(** * Readers-writers coordinator of [n3.cpp]

    A shallow embedding of class [ReadersWriters] and of the threads that
    call it, followed by the properties of the coordinator.

    The class is a monitor: every member function runs with [mtx] held, and
    the only place where the mutex is given up inside a member function is
    [cv.wait(lock, pred)], which is [while (!pred()) cv.wait(lock);].  The
    code between two such points is therefore atomic, and a call of
    [start_read] or [start_write] splits in two pieces: the statements up to
    and including the first evaluation of the predicate, and the statements
    that follow the return of [wait].

    The synchronisation primitives of [n1.cpp] and the film search of
    [n2.cpp] are embedded after the coordinator, each in modules of its
    own; their properties follow those of the coordinator. *)

From stdpp Require Import base list numbers strings pretty sorting.

Local Open Scope Z_scope.

(** ** The coordinator state *)

(** [enum class Priority]. *)
Inductive Priority := READERS | WRITERS | FAIR.

#[global] Instance Priority_eq_dec : EqDecision Priority.
Proof. solve_decision. Defined.

(** The two condition variables of the class and the calls made on them. *)
Inductive CondVar := cv_read | cv_write.

Inductive Signal :=
  | notify_one (cv : CondVar)
  | notify_all (cv : CondVar).

#[global] Instance CondVar_eq_dec : EqDecision CondVar.
Proof. solve_decision. Defined.

#[global] Instance Signal_eq_dec : EqDecision Signal.
Proof. solve_decision. Defined.

(** The data members guarded by [mtx].  The counters are C++ [int]s; they are
    kept in [Z], and [counters_bounded] below shows that they stay between
    zero and the number of threads, so no [int] arithmetic of the class can
    overflow.  [request_queue] is a [std::queue<bool>]: [true] is a writer
    ticket, [false] a reader ticket; the head of the list is the front. *)
Record ReadersWriters := mkRW {
  active_readers : Z;
  waiting_readers : Z;
  active_writers : Z;
  waiting_writers : Z;
  priority : Priority;
  writer_active : bool;
  request_queue : list bool
}.

(** How a call of [start_read] or [start_write] stands when it gives up the
    mutex: it has returned, or it is blocked in the wait of the branch
    [site], which is named by the policy that selects the branch. *)
Inductive Outcome :=
  | Returned (s : ReadersWriters)
  | Waiting (site : Priority) (s : ReadersWriters).

(** [ReadersWriters(Priority p = Priority::FAIR)]. *)
Definition construct (p : Priority) : ReadersWriters :=
  mkRW 0 0 0 0 p false [].

Module RW.

(** *** Field updates *)

Definition with_active_readers (v : Z) (s : ReadersWriters) :=
  mkRW v (waiting_readers s) (active_writers s) (waiting_writers s)
       (priority s) (writer_active s) (request_queue s).

Definition with_waiting_readers (v : Z) (s : ReadersWriters) :=
  mkRW (active_readers s) v (active_writers s) (waiting_writers s)
       (priority s) (writer_active s) (request_queue s).

Definition with_active_writers (v : Z) (s : ReadersWriters) :=
  mkRW (active_readers s) (waiting_readers s) v (waiting_writers s)
       (priority s) (writer_active s) (request_queue s).

Definition with_waiting_writers (v : Z) (s : ReadersWriters) :=
  mkRW (active_readers s) (waiting_readers s) (active_writers s) v
       (priority s) (writer_active s) (request_queue s).

Definition with_priority (v : Priority) (s : ReadersWriters) :=
  mkRW (active_readers s) (waiting_readers s) (active_writers s)
       (waiting_writers s) v (writer_active s) (request_queue s).

Definition with_writer_active (v : bool) (s : ReadersWriters) :=
  mkRW (active_readers s) (waiting_readers s) (active_writers s)
       (waiting_writers s) (priority s) v (request_queue s).

Definition with_request_queue (v : list bool) (s : ReadersWriters) :=
  mkRW (active_readers s) (waiting_readers s) (active_writers s)
       (waiting_writers s) (priority s) (writer_active s) v.

(** *** [std::queue<bool>] *)

Definition push (x : bool) (q : list bool) : list bool := q ++ [x].

Definition empty (q : list bool) : bool :=
  match q with [] => true | _ :: _ => false end.

(** [front()] and [pop()] of an empty queue are undefined; the class calls
    them only behind [!request_queue.empty()], so the values chosen here
    for the empty queue are never used. *)
Definition front (q : list bool) : bool :=
  match q with [] => false | x :: _ => x end.

Definition pop (q : list bool) : list bool :=
  match q with [] => [] | _ :: q' => q' end.

(** [while (!request_queue.empty()) request_queue.pop();] *)
Fixpoint drain (q : list bool) : list bool :=
  match q with
  | [] => q
  | _ :: q' => drain q'
  end.

(** *** [start_read]

    The call first runs the statements in front of the wait
    ([start_read_enter], which also tells which of the three waits the
    call arrived at), then waits on [cv_read] for the predicate of that
    wait ([read_pred]), then runs the statements behind the wait
    ([start_read_leave]).  [wait_read] is [cv_read.wait(lock, pred)] with
    the rest of the function behind it, from one evaluation of the
    predicate on: it is what the thread does when it enters the wait and
    again each time it comes back from the inner [wait(lock)]. *)

Definition start_read_enter (s : ReadersWriters) : Priority * ReadersWriters :=
  if decide (priority s = FAIR) then
    (FAIR, with_request_queue (push false (request_queue s)) s)
  else
    let s := with_waiting_readers (waiting_readers s + 1) s in
    if decide (priority s = READERS) then (READERS, s) else (WRITERS, s).

Definition read_pred (site : Priority) (s : ReadersWriters) : bool :=
  match site with
  | FAIR =>
      negb (writer_active s) && negb (empty (request_queue s))
      && negb (front (request_queue s))
  | READERS => negb (writer_active s)
  | WRITERS => negb (writer_active s) && (waiting_writers s =? 0)
  end.

Definition start_read_leave (site : Priority) (s : ReadersWriters) : ReadersWriters :=
  let s :=
    match site with
    | FAIR => with_request_queue (pop (request_queue s)) s
    | _ => with_waiting_readers (waiting_readers s - 1) s
    end in
  with_active_readers (active_readers s + 1) s.

Definition wait_read (site : Priority) (s : ReadersWriters) : Outcome :=
  if read_pred site s then Returned (start_read_leave site s)
  else Waiting site s.

Definition start_read (s : ReadersWriters) : Outcome :=
  let '(site, s) := start_read_enter s in wait_read site s.

(** *** [end_read] *)

Definition end_read (s : ReadersWriters) : ReadersWriters * list Signal :=
  let s := with_active_readers (active_readers s - 1) s in
  let sg1 := if active_readers s =? 0 then [notify_one cv_write] else [] in
  let sg2 :=
    if bool_decide (priority s = FAIR) && negb (empty (request_queue s)) then
      if front (request_queue s) then [notify_one cv_write]
      else [notify_all cv_read]
    else [] in
  (s, sg1 ++ sg2).

(** *** [start_write] *)

Definition start_write_enter (s : ReadersWriters) : Priority * ReadersWriters :=
  if decide (priority s = FAIR) then
    (FAIR, with_request_queue (push true (request_queue s)) s)
  else
    let s := with_waiting_writers (waiting_writers s + 1) s in
    if decide (priority s = READERS) then (READERS, s) else (WRITERS, s).

Definition write_pred (site : Priority) (s : ReadersWriters) : bool :=
  match site with
  | FAIR =>
      negb (writer_active s) && (active_readers s =? 0)
      && negb (empty (request_queue s)) && front (request_queue s)
  | READERS => negb (writer_active s) && (active_readers s =? 0)
  | WRITERS => negb (writer_active s) && (active_readers s =? 0)
  end.

Definition start_write_leave (site : Priority) (s : ReadersWriters) : ReadersWriters :=
  let s :=
    match site with
    | FAIR => with_request_queue (pop (request_queue s)) s
    | _ => with_waiting_writers (waiting_writers s - 1) s
    end in
  let s := with_writer_active true s in
  with_active_writers (active_writers s + 1) s.

Definition wait_write (site : Priority) (s : ReadersWriters) : Outcome :=
  if write_pred site s then Returned (start_write_leave site s)
  else Waiting site s.

Definition start_write (s : ReadersWriters) : Outcome :=
  let '(site, s) := start_write_enter s in wait_write site s.

(** *** [end_write] *)

Definition end_write (s : ReadersWriters) : ReadersWriters * list Signal :=
  let s := with_writer_active false s in
  let s := with_active_writers (active_writers s - 1) s in
  let sg :=
    if decide (priority s = READERS) then
      if 0 <? waiting_readers s then [notify_all cv_read]
      else if 0 <? waiting_writers s then [notify_one cv_write]
      else []
    else if decide (priority s = WRITERS) then
      if 0 <? waiting_writers s then [notify_one cv_write]
      else if 0 <? waiting_readers s then [notify_all cv_read]
      else []
    else
      if negb (empty (request_queue s)) then
        if front (request_queue s) then [notify_one cv_write]
        else [notify_all cv_read]
      else [] in
  (s, sg).

(** *** [set_priority] *)

Definition set_priority (new_priority : Priority) (s : ReadersWriters)
  : ReadersWriters * list Signal :=
  let s :=
    if bool_decide (priority s = FAIR) && bool_decide (new_priority <> FAIR) then
      with_request_queue (drain (request_queue s)) s
    else if decide (new_priority = FAIR) then
      with_request_queue (drain (request_queue s)) s
    else s in
  let s := with_priority new_priority s in
  (s, [notify_all cv_read; notify_all cv_write]).

(** *** [print_status]

    The text that the call sends to [std::cout], and the state it leaves. *)

Definition endl : string := String (Ascii.ascii_of_nat 10) EmptyString.

Definition print_status (prefix : string) (s : ReadersWriters)
  : string * ReadersWriters :=
  let ss := EmptyString in
  let ss := if decide (prefix = EmptyString) then ss else ss +:+ prefix +:+ " " in
  let ss :=
    ss +:+ "Активные читатели: " +:+ pretty (active_readers s)
       +:+ ", Ожидающие читатели: " +:+ pretty (waiting_readers s)
       +:+ ", Активные писатели: " +:+ pretty (active_writers s)
       +:+ " (writer_active: " +:+ (if writer_active s then "да" else "нет") +:+ ")"
       +:+ ", Ожидающие писатели: " +:+ pretty (waiting_writers s) in
  let ss :=
    if decide (priority s = FAIR) then
      ss +:+ ", Очередь запросов: " +:+ pretty (Z.of_nat (length (request_queue s)))
    else ss in
  let ss := ss +:+ ", Приоритет: " in
  let ss :=
    match priority s with
    | READERS => ss +:+ "ЧИТАТЕЛИ"
    | WRITERS => ss +:+ "ПИСАТЕЛИ"
    | FAIR => ss +:+ "ЧЕСТНЫЙ"
    end in
  (ss +:+ endl, s).

End RW.

(** ** Threads

    A thread of the program is outside the coordinator, blocked in one of the
    six waits, or between an acquire and its release.  [reader] and [writer]
    of [n3.cpp] call [start_read]/[end_read] and [start_write]/[end_write]
    in matched pairs; the control states below allow exactly that. *)

Inductive pc :=
  | Idle
  | InStartRead (site : Priority)
  | Reading
  | InStartWrite (site : Priority)
  | Writing.

#[global] Instance pc_eq_dec : EqDecision pc.
Proof. solve_decision. Defined.

Record System := mkSystem {
  rw : ReadersWriters;
  threads : list pc
}.

(** The global [ReadersWriters rw;] with [n] threads that have not called it
    yet.  The program constructs it with the default [Priority::FAIR]. *)
Definition init (p : Priority) (n : nat) : System :=
  mkSystem (construct p) (replicate n Idle).

(** What a thread does when it gets the mutex.  [Wake t] is thread [t]
    returning from the inner [cv.wait(lock)], after a notification or
    spuriously, and evaluating its predicate again. *)
Inductive Event :=
  | CallStartRead (t : nat)
  | CallEndRead (t : nat)
  | CallStartWrite (t : nat)
  | CallEndWrite (t : nat)
  | Wake (t : nat)
  | CallSetPriority (p : Priority)
  | CallPrintStatus (prefix : string).

(** What an atomic step lets an observer see: a ticket pushed for a thread,
    a thread leaving [start_read] ([writer = false]) or [start_write]
    ([writer = true]), a call on a condition variable, a line printed. *)
Inductive Obs :=
  | Enqueued (t : nat) (writer : bool)
  | Granted (t : nat) (writer : bool)
  | Signalled (sg : Signal)
  | Printed (line : string).

(** Under FAIR a call of [start_read] or [start_write] pushes its ticket
    before anything else. *)
Definition enqueued (s : ReadersWriters) (t : nat) (writer : bool) : list Obs :=
  if decide (priority s = FAIR) then [Enqueued t writer] else [].

(** One atomic step.  [None] is a call that the protocol of matched
    acquire/release excludes (a release by a thread that holds nothing, a
    second acquire by a thread that is already in one) or a thread index
    that does not exist. *)
Definition exec (ev : Event) (σ : System) : option (System * list Obs) :=
  match ev with
  | CallStartRead t =>
      match threads σ !! t with
      | Some Idle =>
          match RW.start_read (rw σ) with
          | Returned s =>
              Some (mkSystem s (<[t:=Reading]> (threads σ)),
                    enqueued (rw σ) t false ++ [Granted t false])
          | Waiting site s =>
              Some (mkSystem s (<[t:=InStartRead site]> (threads σ)),
                    enqueued (rw σ) t false)
          end
      | _ => None
      end
  | CallStartWrite t =>
      match threads σ !! t with
      | Some Idle =>
          match RW.start_write (rw σ) with
          | Returned s =>
              Some (mkSystem s (<[t:=Writing]> (threads σ)),
                    enqueued (rw σ) t true ++ [Granted t true])
          | Waiting site s =>
              Some (mkSystem s (<[t:=InStartWrite site]> (threads σ)),
                    enqueued (rw σ) t true)
          end
      | _ => None
      end
  | Wake t =>
      match threads σ !! t with
      | Some (InStartRead site) =>
          match RW.wait_read site (rw σ) with
          | Returned s =>
              Some (mkSystem s (<[t:=Reading]> (threads σ)), [Granted t false])
          | Waiting _ _ => Some (σ, [])
          end
      | Some (InStartWrite site) =>
          match RW.wait_write site (rw σ) with
          | Returned s =>
              Some (mkSystem s (<[t:=Writing]> (threads σ)), [Granted t true])
          | Waiting _ _ => Some (σ, [])
          end
      | _ => None
      end
  | CallEndRead t =>
      match threads σ !! t with
      | Some Reading =>
          let '(s, sgs) := RW.end_read (rw σ) in
          Some (mkSystem s (<[t:=Idle]> (threads σ)), Signalled <$> sgs)
      | _ => None
      end
  | CallEndWrite t =>
      match threads σ !! t with
      | Some Writing =>
          let '(s, sgs) := RW.end_write (rw σ) in
          Some (mkSystem s (<[t:=Idle]> (threads σ)), Signalled <$> sgs)
      | _ => None
      end
  | CallSetPriority p =>
      let '(s, sgs) := RW.set_priority p (rw σ) in
      Some (mkSystem s (threads σ), Signalled <$> sgs)
  | CallPrintStatus prefix =>
      let '(line, s) := RW.print_status prefix (rw σ) in
      Some (mkSystem s (threads σ), [Printed line])
  end.

(** A schedule: the steps in the order in which the threads got the mutex. *)
Fixpoint run (evs : list Event) (σ : System) : option (System * list Obs) :=
  match evs with
  | [] => Some (σ, [])
  | ev :: evs' =>
      match exec ev σ with
      | Some (σ1, o1) =>
          match run evs' σ1 with
          | Some (σ2, o2) => Some (σ2, o1 ++ o2)
          | None => None
          end
      | None => None
      end
  end.

Definition reachable (p : Priority) (n : nat) (σ : System) : Prop :=
  ∃ evs log, run evs (init p n) = Some (σ, log).

(** ** Notions used by the properties *)

(** Counting the threads in a given control state. *)
Definition is_reading (c : pc) : bool :=
  match c with Reading => true | _ => false end.

Definition is_writing (c : pc) : bool :=
  match c with Writing => true | _ => false end.

(** The waits of the READERS and WRITERS branches are bracketed by
    [waiting_readers++]/[--] and [waiting_writers++]/[--]; the waits of the
    FAIR branch are not. *)
Definition is_counted_reader (c : pc) : bool :=
  match c with InStartRead READERS | InStartRead WRITERS => true | _ => false end.

Definition is_counted_writer (c : pc) : bool :=
  match c with InStartWrite READERS | InStartWrite WRITERS => true | _ => false end.

Fixpoint tally (f : pc → bool) (l : list pc) : Z :=
  match l with
  | [] => 0
  | c :: l' => (if f c then 1 else 0) + tally f l'
  end.

(** The link between the counters of the coordinator and the threads, and
    the facts about the coordinator that follow from it. *)
Record consistent (σ : System) : Prop := mkConsistent {
  c_readers : active_readers (rw σ) = tally is_reading (threads σ);
  c_writers : active_writers (rw σ) = tally is_writing (threads σ);
  c_wreaders : waiting_readers (rw σ) = tally is_counted_reader (threads σ);
  c_wwriters : waiting_writers (rw σ) = tally is_counted_writer (threads σ);
  c_flag : active_writers (rw σ) = if writer_active (rw σ) then 1 else 0;
  c_excl : writer_active (rw σ) = true → active_readers (rw σ) = 0;
  c_queue : priority (rw σ) ≠ FAIR → request_queue (rw σ) = []
}.

(** The wait of [start_read] that thread [t] is blocked in, or would arrive
    at if it called [start_read] now. *)
Definition read_site (σ : System) (t : nat) : option Priority :=
  match threads σ !! t with
  | Some Idle => Some (fst (RW.start_read_enter (rw σ)))
  | Some (InStartRead site) => Some site
  | _ => None
  end.

(** Every blocked thread is blocked in a wait of the branch of policy [p]. *)
Definition blocked_at (p : Priority) (c : pc) : Prop :=
  match c with
  | InStartRead site | InStartWrite site => site = p
  | _ => True
  end.

(** Schedules without a call of [set_priority], and schedules that never
    switch to FAIR. *)
Definition is_switch (ev : Event) : bool :=
  match ev with CallSetPriority _ => true | _ => false end.

Definition no_switch (evs : list Event) : bool :=
  forallb (λ ev, negb (is_switch ev)) evs.

Definition is_switch_to_fair (ev : Event) : bool :=
  match ev with CallSetPriority FAIR => true | _ => false end.

Definition never_fair (evs : list Event) : bool :=
  forallb (λ ev, negb (is_switch_to_fair ev)) evs.

(** Every [start_read] and [start_write] of the schedule is called while the
    policy is FAIR. *)
Definition is_acquire (ev : Event) : bool :=
  match ev with CallStartRead _ | CallStartWrite _ => true | _ => false end.

Fixpoint acquires_under_fair (evs : list Event) (σ : System) : bool :=
  match evs with
  | [] => true
  | ev :: evs' =>
      (negb (is_acquire ev) || bool_decide (priority (rw σ) = FAIR))
      && match exec ev σ with
         | Some (σ1, _) => acquires_under_fair evs' σ1
         | None => true
         end
  end.

(** Reading a log: who pushed a ticket and who was granted, in order, by
    thread and by kind of request. *)
Definition enq_order (log : list Obs) : list nat :=
  omap (λ o, match o with Enqueued t _ => Some t | _ => None end) log.

Definition grant_order (log : list Obs) : list nat :=
  omap (λ o, match o with Granted t _ => Some t | _ => None end) log.

Definition enq_kinds (log : list Obs) : list bool :=
  omap (λ o, match o with Enqueued _ w => Some w | _ => None end) log.

Definition grant_kinds (log : list Obs) : list bool :=
  omap (λ o, match o with Granted _ w => Some w | _ => None end) log.

(** Grants in the order of the requests: the k-th grant goes to the thread
    that pushed the k-th ticket. *)
Definition fifo_by_request (log : list Obs) : Prop :=
  grant_order log `prefix_of` enq_order log.


(** The threads that a call on a condition variable can wake: those blocked
    in a wait on it. *)
Definition waits_on (cv : CondVar) (c : pc) : bool :=
  match cv, c with
  | cv_read, InStartRead _ => true
  | cv_write, InStartWrite _ => true
  | _, _ => false
  end.

(** *** Schedules used as examples *)

(** Submissions [R1, W1, R2] by threads 0, 1, 2 to an idle coordinator. *)
Definition submit_R_W_R : list Event :=
  [CallStartRead 0; CallStartWrite 1; CallStartRead 2]%nat.

(** The same submissions by threads 1, 3, 2 while thread 0 writes; thread 0
    then releases, which signals [cv_read], and of the two readers woken
    thread 2 gets the mutex first. *)
Definition overtaking : list Event :=
  [CallStartWrite 0; CallStartRead 1; CallStartWrite 3; CallStartRead 2;
   CallEndWrite 0; Wake 2]%nat.

(** A reader blocks under FAIR behind a writer, the policy is switched to
    WRITERS, the writer releases. *)
Definition switch_while_blocked : list Event :=
  [CallStartWrite 0; CallStartRead 1; CallSetPriority WRITERS;
   CallEndWrite 0]%nat.


(** A schedule in the manner of the demonstration in [main]: acquires and
    releases under FAIR, a switch to WRITERS while thread 1 writes and
    thread 2 is blocked, an acquire under WRITERS. *)
Definition demo : list Event :=
  [CallStartRead 0; CallStartWrite 1; CallStartRead 2; CallEndRead 0;
   Wake 1; CallSetPriority WRITERS; CallStartRead 0]%nat.

Definition demo_state : System :=
  mkSystem (mkRW 0 1 1 0 WRITERS true [])
           [InStartRead WRITERS; Writing; InStartRead FAIR].

(** [demo] followed by the release of the writer: thread 0, blocked in the
    wait of the WRITERS branch of [start_read], can now be admitted. *)
Definition demo_release : list Event := demo ++ [CallEndWrite 1%nat].

Definition demo_release_log : list Obs :=
  [Enqueued 0 false; Granted 0 false; Enqueued 1 true; Enqueued 2 false;
   Signalled (notify_one cv_write); Signalled (notify_one cv_write);
   Granted 1 true; Signalled (notify_all cv_read);
   Signalled (notify_all cv_write); Signalled (notify_all cv_read)]%nat.

Definition demo_released : System :=
  mkSystem (mkRW 0 1 0 0 WRITERS false [])
           [InStartRead WRITERS; Idle; InStartRead FAIR].

Definition demo_admitted : System :=
  mkSystem (mkRW 1 0 0 0 WRITERS false [])
           [Reading; Idle; InStartRead FAIR].

(** A writer blocked in the wait of the WRITERS branch of [start_write] when
    the last reader has left, and the state after it has been woken. *)
Definition writer_ready : System :=
  mkSystem (mkRW 0 0 0 1 WRITERS false []) [Idle; InStartWrite WRITERS].

Definition writer_admitted : System :=
  mkSystem (mkRW 0 0 1 0 WRITERS true []) [Idle; Writing].


(** The state that [submit_R_W_R] reaches, and the line that [print_status]
    prints there. *)
Definition fair_blocked : System :=
  mkSystem (mkRW 1 0 0 0 FAIR false [true; false])
           [Reading; InStartWrite FAIR; InStartRead FAIR].

Definition fair_blocked_line : string :=
  "Активные читатели: 1, Ожидающие читатели: 0, Активные писатели: 0 (writer_active: нет), Ожидающие писатели: 0, Очередь запросов: 2, Приоритет: ЧЕСТНЫЙ"
  +:+ RW.endl.

(** The line of [print_status] with [0] for the waiting readers and for
    the waiting writers; the other fields are those of [s]. *)
Definition zero_waiting_line (prefix : string) (s : ReadersWriters) : string :=
  (if decide (prefix = EmptyString) then EmptyString else prefix +:+ " ")
  +:+ "Активные читатели: " +:+ pretty (active_readers s)
  +:+ ", Ожидающие читатели: 0"
  +:+ ", Активные писатели: " +:+ pretty (active_writers s)
  +:+ " (writer_active: " +:+ (if writer_active s then "да" else "нет") +:+ ")"
  +:+ ", Ожидающие писатели: 0"
  +:+ (if decide (priority s = FAIR) then
         ", Очередь запросов: " +:+ pretty (Z.of_nat (length (request_queue s)))
       else EmptyString)
  +:+ ", Приоритет: "
  +:+ match priority s with
      | READERS => "ЧИТАТЕЛИ"
      | WRITERS => "ПИСАТЕЛИ"
      | FAIR => "ЧЕСТНЫЙ"
      end
  +:+ RW.endl.

(** A thread blocked in one of the two waits of the FAIR branches. *)
Definition fair_waiter (c : pc) : bool :=
  match c with
  | InStartRead FAIR | InStartWrite FAIR => true
  | _ => false
  end.

(** The state that [overtaking] reaches and what was observed on the way. *)
Definition overtaken_state : System :=
  mkSystem (mkRW 1 0 0 0 FAIR false [true; false])
           [Idle; InStartRead FAIR; Reading; InStartWrite FAIR].

Definition overtaking_log : list Obs :=
  [Enqueued 0 true; Granted 0 true; Enqueued 1 false; Enqueued 3 true;
   Enqueued 2 false; Signalled (notify_all cv_read); Granted 2 false]%nat.

(** The state that [switch_while_blocked] reaches, and a schedule that
    goes on from there under WRITERS and READERS. *)
Definition switched : System :=
  mkSystem (mkRW 0 0 0 0 WRITERS false []) [Idle; InStartRead FAIR].

Definition after_switch : list Event :=
  [Wake 1; CallStartRead 0; Wake 1; CallEndRead 0; CallSetPriority READERS;
   Wake 1; CallStartWrite 0; CallEndWrite 0; Wake 1]%nat.

Definition after_switch_state : System :=
  mkSystem (mkRW 0 0 0 0 READERS false []) [Idle; InStartRead FAIR].

(** The course of the submissions [R1, W1, R2] to an idle coordinator under
    FAIR: the first reader is granted at once; the writer and the second
    reader block; waking them changes nothing before the reader releases;
    after that release the writer is granted and the second reader is not;
    after the release of the writer the second reader is granted. *)
Definition R_W_R_in_order : Prop :=
  ∃ σ3 log3 σ4 o4 σ5 σ6 o6 σ7,
    run submit_R_W_R (init FAIR 3) = Some (σ3, log3) ∧
    grant_order log3 = [0%nat] ∧
    exec (Wake 1) σ3 = Some (σ3, []) ∧
    exec (Wake 2) σ3 = Some (σ3, []) ∧
    exec (CallEndRead 0) σ3 = Some (σ4, o4) ∧
    exec (Wake 2) σ4 = Some (σ4, []) ∧
    exec (Wake 1) σ4 = Some (σ5, [Granted 1%nat true]) ∧
    exec (Wake 2) σ5 = Some (σ5, []) ∧
    exec (CallEndWrite 1) σ5 = Some (σ6, o6) ∧
    exec (Wake 2) σ6 = Some (σ7, [Granted 2%nat false]).

(** A reader blocks under READERS behind a writer; the writer releases, a
    second reader acquires, the policy is switched to WRITERS and a writer
    blocks behind the second reader.  The first reader, woken by the
    release or by the switch, has yet to evaluate its predicate. *)
Definition switch_to_writers : list Event :=
  [CallStartWrite 0; CallStartRead 1; CallEndWrite 0; CallStartRead 2;
   CallSetPriority WRITERS; CallStartWrite 3]%nat.

Definition stale_reader : System :=
  mkSystem (mkRW 1 1 0 1 WRITERS false [])
           [Idle; InStartRead READERS; Reading; InStartWrite WRITERS].

Definition stale_reader_admitted : System :=
  mkSystem (mkRW 2 0 0 1 WRITERS false [])
           [Idle; Reading; Reading; InStartWrite WRITERS].

(** A writer blocks under FAIR behind a reader, the policy is switched to
    WRITERS, a second reader calls [start_read]. *)
Definition uncounted_writer : list Event :=
  [CallStartRead 0; CallStartWrite 1; CallSetPriority WRITERS]%nat.

Definition uncounted_writer_state : System :=
  mkSystem (mkRW 1 0 0 0 WRITERS false []) [Reading; InStartWrite FAIR; Idle].

Definition uncounted_writer_passed : System :=
  mkSystem (mkRW 2 0 0 0 WRITERS false [])
           [Reading; InStartWrite FAIR; Reading].

(** ** Further notions: tickets and waiters *)

(** Threads blocked in the FAIR wait of [start_read] and of [start_write],
    threads blocked in any wait, threads between an acquire and its
    release. *)
Definition is_fair_reader (c : pc) : bool :=
  match c with InStartRead FAIR => true | _ => false end.

Definition is_fair_writer (c : pc) : bool :=
  match c with InStartWrite FAIR => true | _ => false end.

Definition is_blocked (c : pc) : bool :=
  match c with InStartRead _ | InStartWrite _ => true | _ => false end.

Definition holds_access (c : pc) : bool :=
  match c with Reading | Writing => true | _ => false end.

(** The number of tickets of kind [w] in the queue. *)
Fixpoint tickets (w : bool) (q : list bool) : Z :=
  match q with
  | [] => 0
  | x :: q' => (if bool_decide (x = w) then 1 else 0) + tickets w q'
  end.

(** [submit_R_W_R] run to the end: every caller is granted and releases. *)
Definition R_W_R_complete : list Event :=
  submit_R_W_R ++
  [CallEndRead 0; Wake 1; CallEndWrite 1; Wake 2; CallEndRead 2]%nat.

Definition R_W_R_complete_log : list Obs :=
  [Enqueued 0 false; Granted 0 false; Enqueued 1 true; Enqueued 2 false;
   Signalled (notify_one cv_write); Signalled (notify_one cv_write);
   Granted 1 true; Signalled (notify_all cv_read); Granted 2 false;
   Signalled (notify_one cv_write)]%nat.

(** [submit_R_W_R] followed by the release of the first reader: the writer
    and the second reader are blocked and nobody holds access. *)
Definition R_W_R_released : list Event := submit_R_W_R ++ [CallEndRead 0%nat].

Definition R_W_R_released_state : System :=
  mkSystem (mkRW 0 0 0 0 FAIR false [true; false])
           [Idle; InStartWrite FAIR; InStartRead FAIR].

Definition R_W_R_released_log : list Obs :=
  [Enqueued 0 false; Granted 0 false; Enqueued 1 true; Enqueued 2 false;
   Signalled (notify_one cv_write); Signalled (notify_one cv_write)]%nat.

(** A reader that takes the ticket at the head of a FAIR queue, and a
    writer admitted under WRITERS: the states before the call and after
    the grant. *)
Definition fair_reader_before : ReadersWriters :=
  mkRW 2 0 0 0 FAIR false [false; true].

Definition fair_reader_granted : ReadersWriters :=
  mkRW 3 0 0 0 FAIR false [true; false].

Definition writer_before : ReadersWriters := mkRW 0 0 0 0 WRITERS false [].

Definition writer_granted : ReadersWriters := mkRW 0 0 1 0 WRITERS true [].

(** * Synchronisation primitives of [n1.cpp] *)

(** ** [SimpleBarrier] *)

Module Barrier.

Definition INT_MAX : Z := 2147483647.

(** [count], [waiting] and [generation] are [int]s.  [wait] increments
    [waiting] and [generation]; an increment of [INT_MAX] is undefined in
    C++, and the model gives no outcome for it. *)
Record SimpleBarrier := mkBarrier {
  count : Z;
  waiting : Z;
  generation : Z
}.

(** [explicit SimpleBarrier(int count)]. *)
Definition construct (count : Z) : SimpleBarrier := mkBarrier count 0 0.

(** How a call of [wait] stands when it gives up the mutex: returned, or
    blocked with the generation [gen] that it read on entry. *)
Inductive Outcome :=
  | Returned (b : SimpleBarrier)
  | Waiting (gen : Z) (b : SimpleBarrier).

(** [cv.wait(lock, [this, gen] { return gen != generation; })] and the
    return that follows it, from one evaluation of the predicate on. *)
Definition wait_gen (gen : Z) (b : SimpleBarrier) : Outcome :=
  if negb (gen =? generation b) then Returned b else Waiting gen b.

(** [wait()]; the boolean tells whether [cv.notify_all()] was called. *)
Definition wait (b : SimpleBarrier) : option (Outcome * bool) :=
  let gen := generation b in
  if waiting b =? INT_MAX then None
  else
    let b := mkBarrier (count b) (waiting b + 1) (generation b) in
    if waiting b =? count b then
      if generation b =? INT_MAX then None
      else
        let b := mkBarrier (count b) (waiting b) (generation b + 1) in
        let b := mkBarrier (count b) 0 (generation b) in
        Some (Returned b, true)
    else Some (wait_gen gen b, false).

(** A thread is outside [wait] or blocked in it. *)
Inductive pc :=
  | Out
  | InWait (gen : Z).

Record System := mkSystem {
  bar : SimpleBarrier;
  threads : list pc
}.

Definition init (count : Z) (n : nat) : System :=
  mkSystem (construct count) (replicate n Out).

Inductive Event :=
  | CallWait (t : nat)
  | Wake (t : nat).

Inductive Obs :=
  | Arrived (t : nat)
  | Passed (t : nat)
  | NotifiedAll.

Definition exec (ev : Event) (σ : System) : option (System * list Obs) :=
  match ev with
  | CallWait t =>
      match threads σ !! t with
      | Some Out =>
          match wait (bar σ) with
          | Some (Returned b, notified) =>
              Some (mkSystem b (threads σ),
                    Arrived t :: (if notified then [NotifiedAll] else [])
                      ++ [Passed t])
          | Some (Waiting gen b, _) =>
              Some (mkSystem b (<[t:=InWait gen]> (threads σ)), [Arrived t])
          | None => None
          end
      | _ => None
      end
  | Wake t =>
      match threads σ !! t with
      | Some (InWait gen) =>
          match wait_gen gen (bar σ) with
          | Returned b => Some (mkSystem b (<[t:=Out]> (threads σ)), [Passed t])
          | Waiting _ _ => Some (σ, [])
          end
      | _ => None
      end
  end.

Fixpoint run (evs : list Event) (σ : System) : option (System * list Obs) :=
  match evs with
  | [] => Some (σ, [])
  | ev :: evs' =>
      match exec ev σ with
      | Some (σ1, o1) =>
          match run evs' σ1 with
          | Some (σ2, o2) => Some (σ2, o1 ++ o2)
          | None => None
          end
      | None => None
      end
  end.

(** The number of calls of [wait] and of returns from it in a log. *)
Fixpoint arrivals (log : list Obs) : Z :=
  match log with
  | [] => 0
  | Arrived _ :: log' => 1 + arrivals log'
  | _ :: log' => arrivals log'
  end.

Fixpoint passes (log : list Obs) : Z :=
  match log with
  | [] => 0
  | Passed _ :: log' => 1 + passes log'
  | _ :: log' => passes log'
  end.

(** The number of threads blocked in [wait], and of those among them that
    entered in generation [g]. *)
Fixpoint blocked (l : list pc) : Z :=
  match l with
  | [] => 0
  | InWait _ :: l' => 1 + blocked l'
  | Out :: l' => blocked l'
  end.

Fixpoint blocked_in (g : Z) (l : list pc) : Z :=
  match l with
  | [] => 0
  | InWait g' :: l' => (if g' =? g then 1 else 0) + blocked_in g l'
  | Out :: l' => blocked_in g l'
  end.

(** No blocked thread has read a generation beyond [g]. *)
Definition not_after (g : Z) (c : pc) : Prop :=
  match c with InWait g' => g' ≤ g | Out => True end.

(** What holds of a barrier constructed with [k ≥ 1] after [a] arrivals
    and [p] passes. *)
Definition inv (k a p : Z) (σ : System) : Prop :=
  count (bar σ) = k ∧
  0 ≤ waiting (bar σ) < k ∧
  0 ≤ generation (bar σ) ∧
  waiting (bar σ) = blocked_in (generation (bar σ)) (threads σ) ∧
  Forall (not_after (generation (bar σ))) (threads σ) ∧
  a = k * generation (bar σ) + waiting (bar σ) ∧
  p + blocked (threads σ) = a.

(** What holds of a barrier constructed with [k ≤ 0]. *)
Definition inv_stuck (k a p : Z) (σ : System) : Prop :=
  count (bar σ) = k ∧ 0 ≤ waiting (bar σ) ∧ generation (bar σ) = 0 ∧
  Forall (λ c, c = Out ∨ c = InWait 0) (threads σ) ∧
  p = 0 ∧ a = blocked (threads σ).

(** Three threads at a barrier for three: two arrive and block, the third
    arrives and passes, the first is woken and passes. *)
Definition three_arrive : list Event :=
  [CallWait 0; CallWait 1; CallWait 2; Wake 0]%nat.

Definition three_arrive_state : System :=
  mkSystem (mkBarrier 3 0 1) [Out; InWait 0; Out].

Definition three_arrive_log : list Obs :=
  [Arrived 0; Arrived 1; Arrived 2; NotifiedAll; Passed 2; Passed 0]%nat.

(** Two threads at a barrier constructed with a count of zero. *)
Definition two_at_zero : list Event := [CallWait 0; CallWait 1; Wake 0]%nat.

Definition two_at_zero_state : System :=
  mkSystem (mkBarrier 0 2 0) [InWait 0; InWait 0].

Definition two_at_zero_log : list Obs := [Arrived 0; Arrived 1]%nat.

End Barrier.

(** ** [SimpleSemaphore] and its use in [SemaphoreTest] *)

Module Semaphore.

Definition INT_MAX : Z := 2147483647.

Record SimpleSemaphore := mkSemaphore { count : Z }.

(** [explicit SimpleSemaphore(int count = 1)]. *)
Definition construct (count : Z) : SimpleSemaphore := mkSemaphore count.

Inductive Outcome :=
  | Returned (s : SimpleSemaphore)
  | Waiting (s : SimpleSemaphore).

(** [acquire()]: [cv.wait(lock, [this] { return count > 0; }); count--;],
    from one evaluation of the predicate on. *)
Definition acquire (s : SimpleSemaphore) : Outcome :=
  if 0 <? count s then Returned (mkSemaphore (count s - 1)) else Waiting s.

(** [release()]: [count++; cv.notify_one();].  The increment of [INT_MAX]
    is undefined. *)
Definition release (s : SimpleSemaphore) : option SimpleSemaphore :=
  if count s =? INT_MAX then None else Some (mkSemaphore (count s + 1)).

(** The worker of [SemaphoreTest::RunTest] is outside, blocked in
    [acquire], or between [acquire] and [release]. *)
Inductive pc :=
  | Out
  | InAcquire
  | Holding.

Record System := mkSystem {
  sem : SimpleSemaphore;
  threads : list pc
}.

Definition init (count : Z) (n : nat) : System :=
  mkSystem (construct count) (replicate n Out).

Inductive Event :=
  | CallAcquire (t : nat)
  | Wake (t : nat)
  | CallRelease (t : nat).

Definition exec (ev : Event) (σ : System) : option System :=
  match ev with
  | CallAcquire t =>
      match threads σ !! t with
      | Some Out =>
          match acquire (sem σ) with
          | Returned s => Some (mkSystem s (<[t:=Holding]> (threads σ)))
          | Waiting s => Some (mkSystem s (<[t:=InAcquire]> (threads σ)))
          end
      | _ => None
      end
  | Wake t =>
      match threads σ !! t with
      | Some InAcquire =>
          match acquire (sem σ) with
          | Returned s => Some (mkSystem s (<[t:=Holding]> (threads σ)))
          | Waiting _ => Some σ
          end
      | _ => None
      end
  | CallRelease t =>
      match threads σ !! t with
      | Some Holding =>
          match release (sem σ) with
          | Some s => Some (mkSystem s (<[t:=Out]> (threads σ)))
          | None => None
          end
      | _ => None
      end
  end.

Fixpoint run (evs : list Event) (σ : System) : option System :=
  match evs with
  | [] => Some σ
  | ev :: evs' =>
      match exec ev σ with
      | Some σ1 => run evs' σ1
      | None => None
      end
  end.

(** The number of threads between [acquire] and [release]. *)
Fixpoint holding (l : list pc) : Z :=
  match l with
  | [] => 0
  | Holding :: l' => 1 + holding l'
  | _ :: l' => holding l'
  end.

(** Three workers at the semaphore of [SemaphoreTest], which is
    constructed with 1. *)
Definition contend : list Event :=
  [CallAcquire 0; CallAcquire 1; CallAcquire 2; Wake 1; CallRelease 0;
   Wake 2]%nat.

Definition contend_state : System :=
  mkSystem (mkSemaphore 0) [Out; InAcquire; Holding].

(** Two workers at a semaphore constructed with 0. *)
Definition starve : list Event := [CallAcquire 0; CallAcquire 1; Wake 0]%nat.

Definition starve_state : System :=
  mkSystem (mkSemaphore 0) [InAcquire; InAcquire].

End Semaphore.

(** ** Counting threads in a given control state *)

Fixpoint occupancy {A : Type} (f : A → bool) (l : list A) : Z :=
  match l with
  | [] => 0
  | c :: l' => (if f c then 1 else 0) + occupancy f l'
  end.

(** ** [MonitorTest]: [Enter] and [Exit] *)

Module Monitor.

(** The data member [available]; [mtx] and [cv] are what makes the steps
    below atomic and the waits blocking. *)
Record MonitorTest := mkMonitor { available : bool }.

Definition construct : MonitorTest := mkMonitor true.

Inductive Outcome :=
  | Returned (m : MonitorTest)
  | Waiting (m : MonitorTest).

(** [Enter()]: [cv.wait(lock, [this] { return available; }); available =
    false;], from one evaluation of the predicate on. *)
Definition Enter (m : MonitorTest) : Outcome :=
  if available m then Returned (mkMonitor false) else Waiting m.

(** [Exit()]: [available = true;] under the mutex, then [cv.notify_one()]. *)
Definition Exit (m : MonitorTest) : MonitorTest := mkMonitor true.

(** The worker of [RunTest] is outside, blocked in [Enter], or between
    [Enter] and [Exit]. *)
Inductive pc :=
  | Out
  | InEnter
  | Inside.

Definition is_inside (c : pc) : bool :=
  match c with Inside => true | _ => false end.

Record System := mkSystem {
  mon : MonitorTest;
  threads : list pc
}.

Definition init (n : nat) : System := mkSystem construct (replicate n Out).

Inductive Event :=
  | CallEnter (t : nat)
  | Wake (t : nat)
  | CallExit (t : nat).

Definition exec (ev : Event) (σ : System) : option System :=
  match ev with
  | CallEnter t =>
      match threads σ !! t with
      | Some Out =>
          match Enter (mon σ) with
          | Returned m => Some (mkSystem m (<[t:=Inside]> (threads σ)))
          | Waiting m => Some (mkSystem m (<[t:=InEnter]> (threads σ)))
          end
      | _ => None
      end
  | Wake t =>
      match threads σ !! t with
      | Some InEnter =>
          match Enter (mon σ) with
          | Returned m => Some (mkSystem m (<[t:=Inside]> (threads σ)))
          | Waiting _ => Some σ
          end
      | _ => None
      end
  | CallExit t =>
      match threads σ !! t with
      | Some Inside => Some (mkSystem (Exit (mon σ)) (<[t:=Out]> (threads σ)))
      | _ => None
      end
  end.

Fixpoint run (evs : list Event) (σ : System) : option System :=
  match evs with
  | [] => Some σ
  | ev :: evs' =>
      match exec ev σ with
      | Some σ1 => run evs' σ1
      | None => None
      end
  end.

Definition contend : list Event :=
  [CallEnter 0; CallEnter 1; Wake 1; CallExit 0; CallEnter 2; Wake 1]%nat.

Definition contend_state : System :=
  mkSystem (mkMonitor false) [Out; InEnter; Inside].

End Monitor.

(** ** [SpinLockTest]: [Acquire] and [Release] *)

Module SpinLock.

(** [atomic_flag lock = ATOMIC_FLAG_INIT]: [true] is set. *)
Record SpinLockTest := mkSpinLock { lock : bool }.

Definition construct : SpinLockTest := mkSpinLock false.

(** [lock.test_and_set(memory_order_acquire)]: the flag is set, the value
    it had is returned. *)
Definition test_and_set (s : SpinLockTest) : bool * SpinLockTest :=
  (lock s, mkSpinLock true).

(** [Release()]: [lock.clear(memory_order_release)]. *)
Definition Release (s : SpinLockTest) : SpinLockTest := mkSpinLock false.

(** The worker is outside, in the loop of [Acquire], or between [Acquire]
    and [Release]. *)
Inductive pc :=
  | Out
  | Spinning
  | Inside.

Definition is_inside (c : pc) : bool :=
  match c with Inside => true | _ => false end.

Record System := mkSystem {
  spin : SpinLockTest;
  threads : list pc
}.

Definition init (n : nat) : System := mkSystem construct (replicate n Out).

(** [Try t] is one evaluation of the condition of
    [while (lock.test_and_set(...)) {}] by thread [t], the first one of a
    call of [Acquire] or a later one. *)
Inductive Event :=
  | Try (t : nat)
  | CallRelease (t : nat).

Definition exec (ev : Event) (σ : System) : option System :=
  match ev with
  | Try t =>
      match threads σ !! t with
      | Some Out | Some Spinning =>
          let '(was_set, s) := test_and_set (spin σ) in
          if was_set then Some (mkSystem s (<[t:=Spinning]> (threads σ)))
          else Some (mkSystem s (<[t:=Inside]> (threads σ)))
      | _ => None
      end
  | CallRelease t =>
      match threads σ !! t with
      | Some Inside => Some (mkSystem (Release (spin σ)) (<[t:=Out]> (threads σ)))
      | _ => None
      end
  end.

Fixpoint run (evs : list Event) (σ : System) : option System :=
  match evs with
  | [] => Some σ
  | ev :: evs' =>
      match exec ev σ with
      | Some σ1 => run evs' σ1
      | None => None
      end
  end.

Definition contend : list Event :=
  [Try 0; Try 1; Try 1; CallRelease 0; Try 2; Try 1]%nat.

Definition contend_state : System :=
  mkSystem (mkSpinLock true) [Out; Spinning; Inside].

End SpinLock.

(** ** [SpinWaitTest]: [Acquire] and [Release] *)

Module SpinWait.

(** [atomic<bool> locked{false}]. *)
Record SpinWaitTest := mkSpinWait { locked : bool }.

Definition construct : SpinWaitTest := mkSpinWait false.

(** [locked.compare_exchange_weak(expected, true, memory_order_acquire)]
    with [expected == false].  The weak form may fail although [locked]
    has the expected value; [fails] says whether it does this time. *)
Definition compare_exchange_weak (fails : bool) (s : SpinWaitTest)
  : bool * SpinWaitTest :=
  if negb (locked s) && negb fails then (true, mkSpinWait true)
  else (false, s).

(** [Release()]: [locked.store(false, memory_order_release)]. *)
Definition Release (s : SpinWaitTest) : SpinWaitTest := mkSpinWait false.

(** The worker is outside, in [Acquire] with the loop variable [i] of
    [for (int i = 0; i < 1000; i++)], or between [Acquire] and [Release].
    With [i = 1000] the [for] loop is over and [yield] comes next. *)
Inductive pc :=
  | Out
  | Spinning (i : nat)
  | Inside.

Definition is_inside (c : pc) : bool :=
  match c with Inside => true | _ => false end.

Record System := mkSystem {
  spin : SpinWaitTest;
  threads : list pc
}.

Definition init (n : nat) : System := mkSystem construct (replicate n Out).

Inductive Event :=
  | Attempt (t : nat) (fails : bool)
  | Yield (t : nat)
  | CallRelease (t : nat).

(** One turn of the [for] loop by a thread whose loop variable is [i]. *)
Definition attempt (t : nat) (i : nat) (fails : bool) (σ : System)
  : option System :=
  if (i <? 1000)%nat then
    let '(ok, s) := compare_exchange_weak fails (spin σ) in
    if ok then Some (mkSystem s (<[t:=Inside]> (threads σ)))
    else Some (mkSystem s (<[t:=Spinning (S i)]> (threads σ)))
  else None.

Definition exec (ev : Event) (σ : System) : option System :=
  match ev with
  | Attempt t fails =>
      match threads σ !! t with
      | Some Out => attempt t 0 fails σ
      | Some (Spinning i) => attempt t i fails σ
      | _ => None
      end
  | Yield t =>
      match threads σ !! t with
      | Some (Spinning i) =>
          if (i <? 1000)%nat then None
          else Some (mkSystem (spin σ) (<[t:=Spinning 0]> (threads σ)))
      | _ => None
      end
  | CallRelease t =>
      match threads σ !! t with
      | Some Inside => Some (mkSystem (Release (spin σ)) (<[t:=Out]> (threads σ)))
      | _ => None
      end
  end.

Fixpoint run (evs : list Event) (σ : System) : option System :=
  match evs with
  | [] => Some σ
  | ev :: evs' =>
      match exec ev σ with
      | Some σ1 => run evs' σ1
      | None => None
      end
  end.

(** Every thread in [Acquire] has a loop variable of at most 1000. *)
Definition within_round (c : pc) : Prop :=
  match c with Spinning i => (i ≤ 1000)%nat | _ => True end.

Definition contend : list Event :=
  [Attempt 0 true; Attempt 0 false; Attempt 1 false; Attempt 1 false;
   CallRelease 0; Attempt 2 false; Attempt 1 false]%nat.

Definition contend_state : System :=
  mkSystem (mkSpinWait true) [Out; Spinning 3; Inside].

End SpinWait.

(** ** [BarrierTest]: the workers at the barrier *)

Module BarrierTest.

Definition INT_MAX : Z := 2147483647.
Definition INT_MIN : Z := - INT_MAX - 1.

(** [shared_counter++] on the [atomic<int>]: atomic arithmetic wraps. *)
Definition incr (c : Z) : Z := if c =? INT_MAX then INT_MIN else c + 1.

(** A worker with loop variable [i] is in front of [bar->wait()], blocked
    in it with the generation it read, or behind it and in front of the
    block under [mtx]. *)
Inductive pc :=
  | AtWait (i : nat)
  | InWait (gen : Z) (i : nat)
  | Passed (i : nat).

Definition iter (c : pc) : nat :=
  match c with AtWait i | InWait _ i | Passed i => i end.

Record System := mkSystem {
  bar : Barrier.SimpleBarrier;
  threads : list pc;
  shared_counter : Z
}.

(** The start of [RunTest] with [n] workers: the barrier was constructed
    for [n] threads, and has been through [gen0] phases in the runs
    before; [shared_counter = 0]. *)
Definition init (n : nat) (gen0 : Z) : System :=
  mkSystem (Barrier.mkBarrier (Z.of_nat n) 0 gen0) (replicate n (AtWait 0)) 0.

Inductive Event :=
  | CallWait (t : nat)
  | Wake (t : nat)
  | Block (t : nat).

(** One step of a worker; [ops] is [operations_per_thread].  [Block t] is
    the block under [mtx] behind the barrier, in which the worker with
    [id == 0] counts, and the step to the next turn of the loop. *)
Definition exec (ops : Z) (ev : Event) (σ : System) : option System :=
  match ev with
  | CallWait t =>
      match threads σ !! t with
      | Some (AtWait i) =>
          if Z.of_nat i <? ops then
            match Barrier.wait (bar σ) with
            | Some (Barrier.Returned b, _) =>
                Some (mkSystem b (<[t:=Passed i]> (threads σ)) (shared_counter σ))
            | Some (Barrier.Waiting gen b, _) =>
                Some (mkSystem b (<[t:=InWait gen i]> (threads σ))
                        (shared_counter σ))
            | None => None
            end
          else None
      | _ => None
      end
  | Wake t =>
      match threads σ !! t with
      | Some (InWait gen i) =>
          match Barrier.wait_gen gen (bar σ) with
          | Barrier.Returned b =>
              Some (mkSystem b (<[t:=Passed i]> (threads σ)) (shared_counter σ))
          | Barrier.Waiting _ _ => Some σ
          end
      | _ => None
      end
  | Block t =>
      match threads σ !! t with
      | Some (Passed i) =>
          Some (mkSystem (bar σ) (<[t:=AtWait (S i)]> (threads σ))
                  (if decide (t = 0%nat) then incr (shared_counter σ)
                   else shared_counter σ))
      | _ => None
      end
  end.

Fixpoint run (ops : Z) (evs : list Event) (σ : System) : option System :=
  match evs with
  | [] => Some σ
  | ev :: evs' =>
      match exec ops ev σ with
      | Some σ1 => run ops evs' σ1
      | None => None
      end
  end.

(** Blocked in the phase [g]. *)
Definition in_phase (g : Z) (c : pc) : bool :=
  match c with InWait gen _ => gen =? g | _ => false end.

(** Where a worker can be when the barrier has been through [g] phases
    since the start of the run. *)
Definition in_step (gen0 ops g : Z) (c : pc) : Prop :=
  match c with
  | AtWait i => Z.of_nat i = g
  | InWait gen i =>
      gen = gen0 + Z.of_nat i ∧ Z.of_nat i < ops ∧
      (Z.of_nat i = g ∨ Z.of_nat i = g - 1)
  | Passed i => Z.of_nat i = g - 1 ∧ Z.of_nat i < ops
  end.

Record inv (n : nat) (gen0 ops : Z) (σ : System) : Prop := {
  inv_count : Barrier.count (bar σ) = Z.of_nat n;
  inv_length : length (threads σ) = n;
  inv_waiting :
    Barrier.waiting (bar σ)
      = occupancy (in_phase (Barrier.generation (bar σ))) (threads σ);
  inv_room : Barrier.waiting (bar σ) < Z.of_nat n;
  inv_step :
    Forall (in_step gen0 ops (Barrier.generation (bar σ) - gen0)) (threads σ);
  inv_counter :
    ∀ c, threads σ !! 0%nat = Some c → shared_counter σ = Z.of_nat (iter c)
}.

(** Two workers and two operations each, run to the end. *)
Definition two_by_two : list Event :=
  [CallWait 0; CallWait 1; Block 1; CallWait 1; Wake 0; Block 0; CallWait 0;
   Block 0; Wake 1; Block 1]%nat.

Definition two_by_two_state : System :=
  mkSystem (Barrier.mkBarrier 2 0 7) [AtWait 2; AtWait 2] 2.

End BarrierTest.

(** ** [BenchmarkRunner]: averages and the best time *)

Module Benchmark.

Definition LLONG_MAX : Z := 9223372036854775807.
Definition LLONG_MIN : Z := - LLONG_MAX - 1.

Definition in_range (z : Z) : bool := (LLONG_MIN <=? z) && (z <=? LLONG_MAX).

(** [long long sum = 0; for (auto t : times) sum += t;] from the current
    value of [sum] on; [None] is an overflow of the [long long]. *)
Fixpoint sum_from (times : list Z) (sum : Z) : option Z :=
  match times with
  | [] => Some sum
  | t :: times' =>
      if in_range (sum + t) then sum_from times' (sum + t) else None
  end.

(** [long long avg = sum / iterations;] after the loop; the division of
    C++ truncates, and is undefined for a zero divisor and for
    [LLONG_MIN / -1]. *)
Definition average (times : list Z) (iterations : Z) : option Z :=
  match sum_from times 0 with
  | Some sum =>
      if iterations =? 0 then None
      else if (sum =? LLONG_MIN) && (iterations =? -1) then None
      else Some (sum ÷ iterations)
  | None => None
  end.

(** The first loop of [PrintComparisonTable], from the current value of
    [best_time] on. *)
Fixpoint best_from (results : list (string * list Z)) (iterations : Z)
    (best_time : Z) : option Z :=
  match results with
  | [] => Some best_time
  | result :: results' =>
      match average (snd result) iterations with
      | Some avg =>
          best_from results' iterations
            (if avg <? best_time then avg else best_time)
      | None => None
      end
  end.

Definition best_time (results : list (string * list Z)) (iterations : Z)
  : option Z :=
  best_from results iterations LLONG_MAX.

Definition measured : list (string * list Z) :=
  [("Mutex", [300; 500; 400]); ("SpinLock", [100; 90; 110]);
   ("Monitor", [900; 1000; 800])].

End Benchmark.

(** * The film search of [n2.cpp] *)

(** ** Films and the two searches *)

Module Films.

Definition INT_MAX : Z := 2147483647.

(** Conversion of an integer to [int], as [static_cast<int>] and the
    assignment of a [size_t] to an [int] do it: modulo [2^32] into the
    signed range. *)
Definition to_int (z : Z) : Z := (z + 2 ^ 31) `mod` 2 ^ 32 - 2 ^ 31.

(** Conversion of an integer to [size_t], as the usual arithmetic
    conversions do it for an [int] operand beside a [size_t] one. *)
Definition to_size_t (z : Z) : Z := z `mod` 2 ^ 64.

Record Film := mkFilm {
  title : string;
  year : Z;
  genre : string;
  directors : list string
}.

(** The loop of [hasDirector] over [film.directors]. *)
Fixpoint hasDirector_from (ds : list string) (targetDirector : string) : bool :=
  match ds with
  | [] => false
  | director :: ds' =>
      if String.eqb director targetDirector then true
      else hasDirector_from ds' targetDirector
  end.

Definition hasDirector (film : Film) (targetDirector : string) : bool :=
  hasDirector_from (directors film) targetDirector.

(** The loop of [processWithoutThreads]; [result.push_back(film)] appends
    at the end. *)
Fixpoint processWithoutThreads_from (films : list Film)
    (targetDirector : string) (result : list Film) : list Film :=
  match films with
  | [] => result
  | film :: films' =>
      processWithoutThreads_from films' targetDirector
        (if hasDirector film targetDirector then result ++ [film] else result)
  end.

Definition processWithoutThreads (films : list Film) (targetDirector : string)
  : list Film :=
  processWithoutThreads_from films targetDirector [].

(** The loop [for (size_t i = start; i < end && i < films.size(); ++i)] of
    [processChunk], for at most [n] turns. *)
Fixpoint processChunk_from (n : nat) (films : list Film) (i end_ : nat)
    (targetDirector : string) (localResult : list Film) : list Film :=
  match n with
  | O => localResult
  | S n' =>
      if (i <? end_)%nat && (i <? length films)%nat then
        match films !! i with
        | Some film =>
            processChunk_from n' films (S i) end_ targetDirector
              (if hasDirector film targetDirector then localResult ++ [film]
               else localResult)
        | None => localResult
        end
      else localResult
  end.

(** [processChunk]: the new value of [result].  The loop leaves after at
    most [films.size()] turns, since [i] grows by one each turn and stays
    below [films.size()]. *)
Definition processChunk (films : list Film) (result : list Film)
    (start end_ : nat) (targetDirector : string) : list Film :=
  let localResult :=
    processChunk_from (length films) films start end_ targetDirector [] in
  result ++ localResult.

(** The bounds [start] and [end] that the loop of [processWithThreads]
    gives to thread [i]. *)
Definition chunk (films : list Film) (numThreads chunkSize i : Z) : nat * nat :=
  let start := to_size_t (i * chunkSize) in
  let end_ :=
    if i =? numThreads - 1 then Z.of_nat (length films)
    else to_size_t ((i + 1) * chunkSize) in
  (Z.to_nat start, Z.to_nat end_).

(** [processWithThreads] up to the end of the loop that starts the
    threads: the bounds of every thread, in the order of [threads].
    [None] is the division by zero in [films.size() / numThreads]. *)
Definition spawn (films : list Film) (numThreads : Z)
  : option (list (nat * nat)) :=
  let size := Z.of_nat (length films) in
  let numThreads :=
    if numThreads >? to_int size then to_int size else numThreads in
  if to_size_t numThreads =? 0 then None
  else
    let chunkSize := size / to_size_t numThreads in
    Some (chunk films numThreads chunkSize <$> seqZ 0 numThreads).

(** The threads append to [result] under [resultMutex], one after the
    other; [sched] lists their bounds in the order in which they take the
    mutex. *)
Definition join (films : list Film) (targetDirector : string)
    (sched : list (nat * nat)) : list Film :=
  foldl (λ result '(start, end_),
           processChunk films result start end_ targetDirector) [] sched.

(** [processWithThreads], when the threads take [resultMutex] in the
    order [order] (thread numbers, from 0). *)
Definition processWithThreads (films : list Film) (targetDirector : string)
    (numThreads : Z) (order : list nat) : option (list Film) :=
  match spawn films numThreads with
  | Some threads =>
      Some (join films targetDirector (omap (λ t, threads !! t) order))
  | None => None
  end.

(** The films at the positions from [start] up to but not including
    [end_], as far as there are any. *)
Definition slice (films : list Film) (start end_ : nat) : list Film :=
  take (end_ - start) (drop start films).

(** The number of threads that [processWithThreads] starts. *)
Definition started (films : list Film) (numThreads : Z) : nat :=
  match spawn films numThreads with
  | Some threads => length threads
  | None => 0
  end.

(** [main]: the inner loop of the count of films with the director, with
    its [break]; [None] is an increment of an [int] that is [INT_MAX]. *)
Fixpoint count_film (ds : list string) (targetDirector : string)
    (countWithDirector : Z) : option Z :=
  match ds with
  | [] => Some countWithDirector
  | director :: ds' =>
      if String.eqb director targetDirector then
        if countWithDirector <? INT_MAX then Some (countWithDirector + 1)
        else None
      else count_film ds' targetDirector countWithDirector
  end.

Fixpoint count_films (films : list Film) (targetDirector : string)
    (countWithDirector : Z) : option Z :=
  match films with
  | [] => Some countWithDirector
  | film :: films' =>
      match count_film (directors film) targetDirector countWithDirector with
      | Some c => count_films films' targetDirector c
      | None => None
      end
  end.

Definition countWithDirector (films : list Film) (targetDirector : string)
  : option Z :=
  count_films films targetDirector 0.

(** [main]: the check of the number of threads read from the input. *)
Definition checked_numThreads (numThreads : Z) : Z :=
  let numThreads := if numThreads <? 1 then 1 else numThreads in
  if numThreads >? 16 then 16 else numThreads.

(** How [main] ends.  [Compared]: it reaches the comparison of the two
    results, with the value of [countWithDirector], the two sizes and the
    value of [resultWithoutThreads.size() == resultWithThreads.size()].
    [LengthError]: [reserve] in [generateTestData] throws
    [std::length_error], which nothing catches.  [CountOverflow]: the
    increment of [countWithDirector] at [INT_MAX].  [DivisionByZero]: the
    division in [processWithThreads]. *)
Inductive Exit :=
  | Compared (countWithDirector : Z) (sizeWithoutThreads sizeWithThreads : nat)
             (identical : bool)
  | LengthError
  | CountOverflow
  | DivisionByZero.

(** [main] from the count to the comparison of the two results. *)
Definition main_check (films : list Film) (targetDirector : string)
    (numThreads : Z) (order : list nat) : Exit :=
  match countWithDirector films targetDirector with
  | Some c =>
      let resultWithoutThreads := processWithoutThreads films targetDirector in
      match processWithThreads films targetDirector
              (checked_numThreads numThreads) order with
      | Some resultWithThreads =>
          Compared c (length resultWithoutThreads) (length resultWithThreads)
            (length resultWithoutThreads =? length resultWithThreads)%nat
      | None => DivisionByZero
      end
  | None => CountOverflow
  end.

Definition nolan : string := "Nolan".

Definition library : list Film :=
  [ mkFilm "Inception 1" 2010 "Thriller" ["Nolan"];
    mkFilm "Alien 2" 1979 "Horror" ["Scott"];
    mkFilm "Duel 3" 1971 "Thriller" ["Nolan"; "Spielberg"];
    mkFilm "Jaws 4" 1975 "Thriller" ["Spielberg"];
    mkFilm "Tenet 5" 2020 "Action" ["Cameron"; "Nolan"] ].

Definition library_found : list Film :=
  [ mkFilm "Inception 1" 2010 "Thriller" ["Nolan"];
    mkFilm "Duel 3" 1971 "Thriller" ["Nolan"; "Spielberg"];
    mkFilm "Tenet 5" 2020 "Action" ["Cameron"; "Nolan"] ].

End Films.

(** ** The test data and [main] *)

Module TestData.

Definition titles : list string :=
  [ "Интерстеллар"; "Начало"; "Темный рыцарь"; "Побег из Шоушенка";
    "Криминальное чтиво"; "Форрест Гамп"; "Зеленая миля"; "Леон";
    "Бойцовский клуб"; "Король Лев"; "Матрица"; "Список Шиндлера";
    "Властелин колец"; "Гарри Поттер"; "Пираты Карибского моря";
    "Титаник"; "Аватар"; "Звездные войны"; "Паразиты"; "Джокер" ].

Definition genres : list string :=
  [ "Фантастика"; "Драма"; "Боевик"; "Комедия";
    "Триллер"; "Детектив"; "Мелодрама"; "Приключения";
    "Фэнтези"; "Ужасы"; "Мюзикл"; "Исторический" ].

Definition directors : list string :=
  [ "Кристофер Нолан";
    "Стивен Спилберг";
    "Квентин Тарантино";
    "Джеймс Кэмерон";
    "Питер Джексон";
    "Ридли Скотт";
    "Роман Полански";
    "Роберт Земекис";
    "Дэвид Финчер";
    "Мартин Скорсезе";
    "Альфред Хичкок";
    "Фрэнсис Форд Коппола";
    "Стэнли Кубрик";
    "Тим Бёртон";
    "Гильермо дель Торо" ].

(** The values that the distributions return are selected by a sequence
    [rnd], one element for each call; [k] counts the calls made so far.
    [uniform a b] is one call [dist(gen)] of a
    [std::uniform_int_distribution<>(a, b)]: some value from [a] to [b],
    here the one that [rnd k] selects. *)
Definition uniform (a b : Z) (rnd : nat → Z) (k : nat) : Z * nat :=
  (a + rnd k `mod` (b - a + 1), S k).

(** [v[i]] for an index within the vector; the empty string stands for the
    undefined value at any other index. *)
Definition at_index (v : list string) (i : Z) : string :=
  default EmptyString (v !! Z.to_nat i).

(** [std::sort] of a vector of strings: the elements in ascending order
    of [operator<], which compares strings as [String.compare] does.  The
    order being total, the result is the same for every sorting procedure;
    insertion is the one written here. *)
Fixpoint insert_sorted (x : string) (l : list string) : list string :=
  match l with
  | [] => [x]
  | y :: l' => if String.leb x y then x :: l else y :: insert_sorted x l'
  end.

Definition sort (l : list string) : list string := foldr insert_sorted [] l.

(** [v.erase(std::unique(v.begin(), v.end()), v.end())]: of each run of
    equal neighbours one element stays. *)
Fixpoint unique (l : list string) : list string :=
  match l with
  | [] => []
  | x :: l' =>
      match l' with
      | [] => [x]
      | y :: _ => if String.eqb x y then unique l' else x :: unique l'
      end
  end.

(** The loop [for (int j = 0; j < dirCount; ++j)], for [n] more turns. *)
Fixpoint draw_directors (n : nat) (rnd : nat → Z) (k : nat)
    (filmDirectors : list string) : list string * nat :=
  match n with
  | O => (filmDirectors, k)
  | S n' =>
      let '(d, k) := uniform 0 (Z.of_nat (length directors) - 1) rnd k in
      draw_directors n' rnd k (filmDirectors ++ [at_index directors d])
  end.

(** The body of the loop of [generateTestData] for the index [i]: the
    film that is appended. *)
Definition generate_film (i : Z) (rnd : nat → Z) (k : nat) : Films.Film * nat :=
  let '(t, k) := uniform 0 (Z.of_nat (length titles) - 1) rnd k in
  let title := at_index titles t +:+ " " +:+ pretty (i + 1) in
  let '(year, k) := uniform 1980 2023 rnd k in
  let '(g, k) := uniform 0 (Z.of_nat (length genres) - 1) rnd k in
  let genre := at_index genres g in
  let '(dirCount, k) := uniform 1 3 rnd k in
  let '(filmDirectors, k) := draw_directors (Z.to_nat dirCount) rnd k [] in
  let filmDirectors := sort filmDirectors in
  let filmDirectors := unique filmDirectors in
  (Films.mkFilm title year genre filmDirectors, k).

(** The loop [for (int i = 0; i < dataSize; ++i)], for [n] more turns. *)
Fixpoint generate_from (n : nat) (i : Z) (rnd : nat → Z) (k : nat)
    (films : list Films.Film) : list Films.Film :=
  match n with
  | O => films
  | S n' =>
      let '(film, k) := generate_film i rnd k in
      generate_from n' (i + 1) rnd k (films ++ [film])
  end.

(** [generateTestData].  With a negative [dataSize], [films.reserve]
    is asked for more than [max_size()] elements and throws
    [std::length_error], which nothing catches: [None]. *)
Definition generateTestData (dataSize : Z) (rnd : nat → Z)
  : option (list Films.Film) :=
  if dataSize <? 0 then None
  else Some (generate_from (Z.to_nat dataSize) 0 rnd 0 []).

(** What every generated film is like; [i] is its position. *)
Record well_formed (i : nat) (film : Films.Film) : Prop := {
  wf_title : ∃ t, t ∈ titles ∧
                  Films.title film = t +:+ " " +:+ pretty (Z.of_nat i + 1);
  wf_year : 1980 ≤ Films.year film ≤ 2023;
  wf_genre : Films.genre film ∈ genres;
  wf_count : (1 ≤ length (Films.directors film) ≤ 3)%nat;
  wf_known : ∀ d, d ∈ Films.directors film → d ∈ directors;
  wf_distinct : NoDup (Films.directors film)
}.

(** The director searched for: the line read, or the default of [main]
    when the line is empty. *)
Definition target_or_default (targetDirector : string) : string :=
  if decide (targetDirector = EmptyString) then "Кристофер Нолан"
  else targetDirector.

(** [main] from the generation of the data to the comparison of the two
    results, for the values read from the input. *)
Definition main (dataSize numThreads : Z) (targetDirector : string)
    (rnd : nat → Z) (order : list nat) : Films.Exit :=
  let targetDirector := target_or_default targetDirector in
  match generateTestData dataSize rnd with
  | Some films => Films.main_check films targetDirector numThreads order
  | None => Films.LengthError
  end.

(** A sequence of raw values. *)
Definition counting (k : nat) : Z := Z.of_nat (7 * k + 3).

End TestData.


(** ** Notifications

    [exec] lets a blocked thread evaluate its predicate at any time, which
    covers wake-ups of every origin.  To see whether the calls on the
    condition variables reach the threads that need them, the state is
    extended by the notifications that are pending. *)

(** The calls on condition variables in what a step lets see. *)
Definition signals (o : list Obs) : list Signal :=
  omap (λ x, match x with Signalled sg => Some sg | _ => None end) o.

(** The thread that takes a step. *)
Definition acting (ev : Event) : option nat :=
  match ev with
  | CallStartRead t | CallEndRead t | CallStartWrite t | CallEndWrite t
  | Wake t => Some t
  | CallSetPriority _ | CallPrintStatus _ => None
  end.

Module Notify.

(** [notified !! t] is true when thread [t], blocked in a wait, has been
    taken out of the wait by [notify_one] or [notify_all] and has not yet
    evaluated its predicate again. *)
Record State := mkState {
  sys : System;
  notified : list bool
}.

Definition init (p : Priority) (n : nat) : State :=
  mkState (init p n) (replicate n false).

(** A thread that [notify_one] or [notify_all] on [cv] can take out of its
    wait: blocked in a wait on [cv] and not notified yet. *)
Definition in_wait (cv : CondVar) (cb : pc * bool) : bool :=
  waits_on cv cb.1 && negb cb.2.

(** [cv.notify_all()]: every thread in a wait on [cv] is notified. *)
Definition notify_all_to (cv : CondVar) (ths : list pc) (ntf : list bool)
  : list bool :=
  zip_with (λ c b, if waits_on cv c then true else b) ths ntf.

(** [cv.notify_one()]: if any thread is in a wait on [cv], one of them is
    notified, the thread [u]; which one it is the library decides.  [None]
    when threads are in a wait on [cv] and [u] is not one of them. *)
Definition notify_one_to (cv : CondVar) (u : nat) (ths : list pc)
    (ntf : list bool) : option (list bool) :=
  match ths !! u, ntf !! u with
  | Some c, Some b =>
      if in_wait cv (c, b) then Some (<[u:=true]> ntf) else None
  | _, _ => None
  end.

(** The calls of one step, in their order; [picks] says which thread each
    [notify_one] that finds a thread in the wait takes out of it. *)
Fixpoint deliver (sgs : list Signal) (picks : list nat) (ths : list pc)
    (ntf : list bool) : option (list bool) :=
  match sgs with
  | [] => Some ntf
  | notify_all cv :: sgs' => deliver sgs' picks ths (notify_all_to cv ths ntf)
  | notify_one cv :: sgs' =>
      if existsb (in_wait cv) (zip ths ntf) then
        match picks with
        | u :: picks' =>
            match notify_one_to cv u ths ntf with
            | Some ntf' => deliver sgs' picks' ths ntf'
            | None => None
            end
        | [] => None
        end
      else deliver sgs' picks ths ntf
  end.

(** One atomic step of the extended state.  The thread that takes the step
    has no notification pending after it: it has just evaluated its
    predicate, or it is not in a wait. *)
Definition step (ev : Event) (picks : list nat) (σ : State)
  : option (State * list Obs) :=
  match exec ev (sys σ) with
  | Some (s, o) =>
      let ntf :=
        match acting ev with
        | Some t => <[t:=false]> (notified σ)
        | None => notified σ
        end in
      match deliver (signals o) picks (threads s) ntf with
      | Some ntf' => Some (mkState s ntf', o)
      | None => None
      end
  | None => None
  end.

Fixpoint run (sched : list (Event * list nat)) (σ : State)
  : option (State * list Obs) :=
  match sched with
  | [] => Some (σ, [])
  | (ev, picks) :: sched' =>
      match step ev picks σ with
      | Some (σ1, o1) =>
          match run sched' σ1 with
          | Some (σ2, o2) => Some (σ2, o1 ++ o2)
          | None => None
          end
      | None => None
      end
  end.

(** The number of threads blocked in a wait on [cv] with ([flag = true])
    or without a pending notification. *)
Definition cnt (cv : CondVar) (flag : bool) (ths : list pc) (ntf : list bool)
  : Z :=
  occupancy (λ cb, waits_on cv cb.1 && bool_decide (cb.2 = flag)) (zip ths ntf).

Definition count (cv : CondVar) (flag : bool) (σ : State) : Z :=
  cnt cv flag (threads (sys σ)) (notified σ).

(** The four numbers: readers notified and in the wait, writers notified
    and in the wait. *)
Definition counts (ths : list pc) (ntf : list bool) : Z * Z * Z * Z :=
  (cnt cv_read true ths ntf, cnt cv_read false ths ntf,
   cnt cv_write true ths ntf, cnt cv_write false ths ntf).

(** What the calls of one step do to the four numbers. *)
Fixpoint effect (sgs : list Signal) (k k' : Z * Z * Z * Z) : Prop :=
  match sgs with
  | [] =>
      let '(rn, ru, wn, wu) := k in
      let '(rn', ru', wn', wu') := k' in
      rn' = rn ∧ ru' = ru ∧ wn' = wn ∧ wu' = wu
  | notify_all cv_read :: sgs' =>
      let '(rn, ru, wn, wu) := k in effect sgs' (rn + ru, 0, wn, wu) k'
  | notify_all cv_write :: sgs' =>
      let '(rn, ru, wn, wu) := k in effect sgs' (rn, ru, wn + wu, 0) k'
  | notify_one cv_read :: sgs' =>
      let '(rn, ru, wn, wu) := k in
      (ru = 0 ∧ effect sgs' k k') ∨
      (0 < ru ∧ effect sgs' (rn + 1, ru - 1, wn, wu) k')
  | notify_one cv_write :: sgs' =>
      let '(rn, ru, wn, wu) := k in
      (wu = 0 ∧ effect sgs' k k') ∨
      (0 < wu ∧ effect sgs' (rn, ru, wn + 1, wu - 1) k')
  end.

(** What holds of the notifications while the policy is [p] from
    construction on: under READERS no reader is left in the wait when no
    writer is active, under WRITERS none when no writer is active or
    waiting, and when nobody holds access some notified thread finds its
    predicate true, unless nobody is blocked. *)
Record inv (p : Priority) (σ : State) : Prop := {
  inv_length : length (notified σ) = length (threads (sys σ));
  inv_readers :
    p = READERS → writer_active (rw (sys σ)) = false →
    count cv_read false σ = 0;
  inv_readers_behind :
    p = WRITERS → writer_active (rw (sys σ)) = false →
    waiting_writers (rw (sys σ)) = 0 →
    count cv_read false σ = 0;
  inv_progress :
    writer_active (rw (sys σ)) = false → active_readers (rw (sys σ)) = 0 →
    (0 < count cv_read true σ ∧ RW.read_pred p (rw (sys σ)) = true) ∨
    (0 < count cv_write true σ ∧ RW.write_pred p (rw (sys σ)) = true) ∨
    (count cv_read true σ = 0 ∧ count cv_read false σ = 0 ∧
     count cv_write true σ = 0 ∧ count cv_write false σ = 0)
}.

(** [R_W_R_released] with the notifications: the release of the first
    reader takes the writer out of its wait. *)
Definition released : list (Event * list nat) :=
  [(CallStartRead 0, []); (CallStartWrite 1, []); (CallStartRead 2, []);
   (CallEndRead 0, [1])]%nat.

Definition released_state : State :=
  mkState R_W_R_released_state [false; true; false].

End Notify.

(** * Properties *)

(** ** Counting lemmas *)

Lemma tally_insert f l i x y :
  l !! i = Some x →
  tally f (<[i:=y]> l) = tally f l - (if f x then 1 else 0) + (if f y then 1 else 0).
Proof.
  revert i. induction l as [|c l IH]; intros [|i] H; simpl in *; try discriminate.
  - injection H as ->. lia.
  - rewrite (IH i H). lia.
Qed.

Lemma tally_bounds f l : 0 ≤ tally f l ≤ Z.of_nat (length l).
Proof. induction l as [|c l IH]; simpl; [lia|]. destruct (f c); lia. Qed.

Lemma tally_replicate_idle f n : f Idle = false → tally f (replicate n Idle) = 0.
Proof. intros H. induction n as [|n IH]; simpl; [done|]. by rewrite H, IH. Qed.

Lemma tally_lookup_pos f l i x : l !! i = Some x → f x = true → 0 < tally f l.
Proof.
  revert i. induction l as [|c l IH]; intros [|i] H Hx; simpl in *; try discriminate.
  - injection H as ->. rewrite Hx. pose proof (tally_bounds f l). lia.
  - pose proof (IH i H Hx). destruct (f c); lia.
Qed.

Lemma tally_zero_lookup f l i x : tally f l = 0 → l !! i = Some x → f x = false.
Proof.
  intros H0 Hl. destruct (f x) eqn:Hx; [|done].
  pose proof (tally_lookup_pos f l i x Hl Hx). lia.
Qed.

Lemma drain_nil q : RW.drain q = [].
Proof. induction q; simpl; auto. Qed.

(** ** The invariant *)

Ltac bool_facts :=
  repeat match goal with
  | H : (_ =? _) = true |- _ => apply Z.eqb_eq in H
  | H : (_ =? _) = false |- _ => apply Z.eqb_neq in H
  | H : (_ <? _) = true |- _ => apply Z.ltb_lt in H
  | H : (_ <? _) = false |- _ => apply Z.ltb_ge in H
  | H : _ && _ = true |- _ => apply andb_true_iff in H; destruct H
  | H : negb _ = true |- _ => apply negb_true_iff in H
  | H : negb _ = false |- _ => apply negb_false_iff in H
  | H : bool_decide _ = true |- _ => apply bool_decide_eq_true in H
  | H : bool_decide _ = false |- _ => apply bool_decide_eq_false in H
  end.

(** Case analysis of a step [H : exec ev σ = Some _] down to the paths
    through the member function, for [σ] given by its fields. *)
Ltac exec_paths H ths p :=
  unfold exec, enqueued, RW.start_read, RW.start_write,
    RW.wait_read, RW.wait_write in H; simpl in H;
  try match type of H with
      | context [ths !! ?t] =>
          let Ht := fresh "Ht" in
          destruct (ths !! t) as [[]|] eqn:Ht; try discriminate H
      end;
  try match goal with
      | site : Priority |- _ =>
          tryif constr_eq site p then fail else destruct site
      end;
  destruct p; simpl in H;
  repeat match type of H with
         | context [if ?b then _ else _] => destruct b eqn:?; simpl in H
         end;
  try discriminate H.

Ltac exec_thread H ths :=
  unfold exec, enqueued, RW.start_read, RW.start_write,
    RW.wait_read, RW.wait_write in H; simpl in H;
  try match type of H with
      | context [ths !! ?t] =>
          let Ht := fresh "Ht" in
          destruct (ths !! t) as [[]|] eqn:Ht; try discriminate H
      end.

Ltac exec_branches H :=
  simpl in H;
  repeat match type of H with
         | context [if ?b then _ else _] => destruct b eqn:?; simpl in H
         end;
  try discriminate H.

Ltac run_step H E R :=
  match type of H with
  | context [exec ?ev ?σ] =>
      let σ1 := fresh "σ" in let o1 := fresh "o" in
      destruct (exec ev σ) as [[σ1 o1]|] eqn:E; [|discriminate H];
      match type of H with
      | context [run ?evs σ1] =>
          let σ2 := fresh "σ" in let o2 := fresh "o" in
          destruct (run evs σ1) as [[σ2 o2]|] eqn:R; [|discriminate H];
          injection H as <- <-
      end
  end.

Lemma consistent_init p n : consistent (init p n).
Proof. split; simpl; rewrite ?tally_replicate_idle; auto. Qed.

Lemma consistent_exec ev σ σ' o :
  exec ev σ = Some (σ', o) → consistent σ → consistent σ'.
Proof.
  intros H [C1 C2 C3 C4 C5 C6 C7].
  destruct σ as [[ar wr aw ww p wa q] ths]; simpl in *.
  destruct ev; exec_paths H ths p.
  all: try (pose proof (tally_lookup_pos is_reading _ _ _ Ht eq_refl)).
  all: try (pose proof (tally_lookup_pos is_writing _ _ _ Ht eq_refl)).
  all: injection H as <- <-.
  all: split; simpl in *.
  all: rewrite ?drain_nil.
  all: try (erewrite tally_insert by eassumption; simpl).
  all: intros; bool_facts; subst.
  all: try solve [ lia | congruence | tauto | rewrite C7 by discriminate; reflexivity
                 | destruct wa; simpl in *; first [lia | congruence] ].
Qed.

Lemma consistent_run evs : ∀ σ σ' log,
  run evs σ = Some (σ', log) → consistent σ → consistent σ'.
Proof.
  induction evs as [|ev evs IH]; simpl; intros σ σ' log H C.
  - by injection H as <- <-.
  - destruct (exec ev σ) as [[σ1 o1]|] eqn:E; [|discriminate].
    destruct (run evs σ1) as [[σ2 o2]|] eqn:R; [|discriminate].
    injection H as <- <-. eauto using consistent_exec.
Qed.

Lemma reachable_consistent p n σ : reachable p n σ → consistent σ.
Proof. intros (evs & log & H). eauto using consistent_run, consistent_init. Qed.

Lemma exec_length ev σ σ' o :
  exec ev σ = Some (σ', o) → length (threads σ') = length (threads σ).
Proof.
  intros H. destruct σ as [[ar wr aw ww p wa q] ths]; simpl in *.
  destruct ev; exec_paths H ths p.
  all: injection H as <- <-; simpl; by rewrite ?length_insert.
Qed.

Lemma run_length evs : ∀ σ σ' log,
  run evs σ = Some (σ', log) → length (threads σ') = length (threads σ).
Proof.
  induction evs as [|ev evs IH]; simpl; intros σ σ' log H.
  - by injection H as <- <-.
  - destruct (exec ev σ) as [[σ1 o1]|] eqn:E; [|discriminate].
    destruct (run evs σ1) as [[σ2 o2]|] eqn:R; [|discriminate].
    injection H as <- <-. rewrite (IH _ _ _ R). eauto using exec_length.
Qed.

(** X1. The counters stay between zero and the number of threads: the
    [int]s of the class do not overflow as long as there are fewer than
    [2^31] threads. *)
Lemma counters_bounded p n σ :
  reachable p n σ →
  0 ≤ active_readers (rw σ) ≤ Z.of_nat n ∧
  0 ≤ waiting_readers (rw σ) ≤ Z.of_nat n ∧
  0 ≤ active_writers (rw σ) ≤ 1 ∧
  0 ≤ waiting_writers (rw σ) ≤ Z.of_nat n.
Proof.
  intros R. pose proof (reachable_consistent _ _ _ R) as [C1 C2 C3 C4 C5 C6 C7].
  destruct R as (evs & log & R). apply run_length in R.
  simpl in R. rewrite length_replicate in R. rewrite <- R.
  rewrite C1, C3, C4.
  pose proof (tally_bounds is_reading (threads σ)).
  pose proof (tally_bounds is_counted_reader (threads σ)).
  pose proof (tally_bounds is_counted_writer (threads σ)).
  destruct (writer_active (rw σ)); lia.
Qed.

(** ** Mutual exclusion and the single writer *)

(** C1. In every state that a schedule of protocol-respecting calls of
    [start_read], [end_read], [start_write], [end_write] and [set_priority]
    (and [print_status]) reaches from a freshly constructed coordinator, it
    is not the case that [active_writers == 1] while [active_readers > 0]. *)
Theorem mutual_exclusion p n σ :
  reachable p n σ →
  ¬ (active_writers (rw σ) = 1 ∧ 0 < active_readers (rw σ)).
Proof.
  intros R [Hw Hr].
  destruct (reachable_consistent _ _ _ R) as [_ _ _ _ C5 C6 _].
  destruct (writer_active (rw σ)); [|lia].
  rewrite C6 in Hr by done. lia.
Qed.

Lemma mutual_exclusion_witness :
  ¬ (active_writers (rw demo_state) = 1 ∧ 0 < active_readers (rw demo_state)).
Proof.
  apply (mutual_exclusion FAIR 3).
  exists demo. eexists. vm_compute. reflexivity.
Defined.

(** In terms of the threads: while a thread is between [start_write] and
    [end_write], no thread is between [start_read] and [end_read]. *)
Lemma no_reader_beside_writer p n σ i j :
  reachable p n σ →
  threads σ !! i = Some Writing → threads σ !! j = Some Reading → False.
Proof.
  intros R Hi Hj.
  destruct (reachable_consistent _ _ _ R) as [C1 C2 _ _ C5 C6 _].
  pose proof (tally_lookup_pos is_writing _ _ _ Hi eq_refl).
  pose proof (tally_lookup_pos is_reading _ _ _ Hj eq_refl).
  destruct (writer_active (rw σ)); [|lia].
  specialize (C6 eq_refl). lia.
Qed.

(** C2. In every reachable state [active_writers] is 0 or 1, and
    [writer_active] is true exactly when [active_writers == 1]. *)
Theorem single_writer p n σ :
  reachable p n σ →
  (active_writers (rw σ) = 0 ∨ active_writers (rw σ) = 1) ∧
  (writer_active (rw σ) = true ↔ active_writers (rw σ) = 1).
Proof.
  intros R.
  destruct (reachable_consistent _ _ _ R) as [_ _ _ _ C5 _ _].
  rewrite C5. destruct (writer_active (rw σ)); split; try split; auto; try lia;
    try discriminate.
Qed.

Lemma single_writer_witness :
  (active_writers (rw demo_state) = 0 ∨ active_writers (rw demo_state) = 1) ∧
  (writer_active (rw demo_state) = true ↔ active_writers (rw demo_state) = 1).
Proof.
  apply (single_writer FAIR 3).
  exists demo. eexists. vm_compute. reflexivity.
Defined.

(** ** Wait sites under a constant policy *)

Lemma sites_exec p ev σ σ' o :
  is_switch ev = false → priority (rw σ) = p →
  Forall (blocked_at p) (threads σ) →
  exec ev σ = Some (σ', o) →
  priority (rw σ') = p ∧ Forall (blocked_at p) (threads σ').
Proof.
  intros Hs Hp Hall H.
  destruct σ as [[ar wr aw ww p0 wa q] ths]; simpl in *. subst p0.
  destruct ev; try discriminate Hs; exec_paths H ths p.
  all: injection H as <- <-; simpl; split; try done.
  all: by apply Forall_insert.
Qed.

Lemma sites_run p evs : ∀ σ σ' log,
  no_switch evs = true → priority (rw σ) = p →
  Forall (blocked_at p) (threads σ) →
  run evs σ = Some (σ', log) →
  priority (rw σ') = p ∧ Forall (blocked_at p) (threads σ').
Proof.
  induction evs as [|ev evs IH]; simpl; intros σ σ' log Hs Hp Hall H.
  - by injection H as <- <-.
  - apply andb_true_iff in Hs as [Hs1 Hs2]. apply negb_true_iff in Hs1.
    destruct (exec ev σ) as [[σ1 o1]|] eqn:E; [|discriminate].
    destruct (run evs σ1) as [[σ2 o2]|] eqn:R; [|discriminate].
    injection H as <- <-.
    destruct (sites_exec p _ _ _ _ Hs1 Hp Hall E). eauto.
Qed.

Lemma sites_init p n : Forall (blocked_at p) (threads (init p n)).
Proof. simpl. apply Forall_replicate. exact I. Qed.

(** ** Admission *)

(** A step that takes a thread into [Reading] is a grant of [start_read] to
    that thread, made on the predicate of the thread's wait. *)
Lemma read_grant ev σ σ' o t site :
  read_site σ t = Some site →
  exec ev σ = Some (σ', o) →
  threads σ' !! t = Some Reading →
  writer_active (rw σ) = false ∧
  (site = WRITERS → waiting_writers (rw σ) = 0) ∧
  active_readers (rw σ') = active_readers (rw σ) + 1.
Proof.
  intros Hsite H Hpost. unfold read_site in Hsite.
  destruct σ as [[ar wr aw ww p wa q] ths]; simpl in *.
  destruct ev; exec_paths H ths p.
  all: injection H as <- <-; simpl in *.
  all: try (destruct (decide (t0 = t)) as [->|Hne];
            [ rewrite Ht in Hsite; simpl in Hsite;
              apply lookup_lt_Some in Ht;
              rewrite list_lookup_insert_eq in Hpost by done;
              try discriminate Hpost; try discriminate Hsite
            | rewrite list_lookup_insert_ne in Hpost by done;
              rewrite Hpost in Hsite; try discriminate Hsite ]).
  all: try (rewrite Hpost in Hsite; discriminate Hsite).
  all: simplify_eq.
  all: bool_facts; repeat split; try done; try lia.
Qed.

(** A call of [start_read] that found [priority == WRITERS], so that it
    waits on the predicate of that branch, is granted only in a state where
    [writer_active] is false and [waiting_writers == 0].  No writer is
    waiting at that moment, with one exception: a thread that blocked in
    the FAIR wait of [start_write] before a call of [set_priority];
    [waiting_writers] does not count it. *)
Theorem read_admission_writer_priority p n evs σ log ev σ' o t :
  run evs (init p n) = Some (σ, log) →
  read_site σ t = Some WRITERS →
  exec ev σ = Some (σ', o) →
  threads σ' !! t = Some Reading →
  writer_active (rw σ) = false ∧ waiting_writers (rw σ) = 0 ∧
  (∀ u site, threads σ !! u = Some (InStartWrite site) →
             site = FAIR ∧ no_switch evs = false).
Proof.
  intros R Hsite H Hpost.
  destruct (read_grant _ _ _ _ _ _ Hsite H Hpost) as (Hwa & Hww & _).
  specialize (Hww eq_refl). split; [done|]. split; [done|].
  intros u site Hu.
  assert (Hfair : site = FAIR).
  { assert (Rch : reachable p n σ) by (by exists evs, log).
    destruct (reachable_consistent _ _ _ Rch) as [_ _ _ C4 _ _ _].
    assert (Hz : tally is_counted_writer (threads σ) = 0) by lia.
    pose proof (tally_zero_lookup _ _ _ _ Hz Hu) as Hf.
    by destruct site. }
  split; [done|]. subst site.
  destruct (no_switch evs) eqn:Hs; [|done]. exfalso.
  destruct (sites_run p evs (init p n) σ log Hs eq_refl (sites_init _ _) R)
    as [Hp Hall].
  pose proof (Forall_lookup_1 _ _ _ _ Hall Hu) as Hb. simpl in Hb.
  rewrite <- Hb in Hp, Hall.
  unfold read_site, RW.start_read_enter in Hsite. rewrite Hp in Hsite.
  destruct (threads σ !! t) as [[]|] eqn:Ht; try discriminate Hsite.
  injection Hsite as ->.
  pose proof (Forall_lookup_1 _ _ _ _ Hall Ht) as Hb'. discriminate Hb'.
Qed.

Lemma read_admission_writer_priority_witness :
  writer_active (rw demo_released) = false ∧
  waiting_writers (rw demo_released) = 0 ∧
  (∀ u site, threads demo_released !! u = Some (InStartWrite site) →
             site = FAIR ∧ no_switch demo_release = false).
Proof.
  apply (read_admission_writer_priority FAIR 3 demo_release demo_released
           demo_release_log (Wake 0) demo_admitted [Granted 0%nat false] 0%nat).
  - vm_compute. reflexivity.
  - reflexivity.
  - reflexivity.
  - reflexivity.
Defined.

(** When the policy has been WRITERS since construction, no thread at all is
    blocked in [start_write] when a reader is admitted. *)
Corollary read_admission_constant_writer_priority n evs σ log ev σ' o t :
  no_switch evs = true →
  run evs (init WRITERS n) = Some (σ, log) →
  exec ev σ = Some (σ', o) →
  threads σ !! t ≠ Some Reading →
  threads σ' !! t = Some Reading →
  writer_active (rw σ) = false ∧ waiting_writers (rw σ) = 0 ∧
  (∀ u site, threads σ !! u ≠ Some (InStartWrite site)).
Proof.
  intros Hs R H Hpre Hpost.
  destruct (sites_run WRITERS evs (init WRITERS n) σ log Hs eq_refl
              (sites_init _ _) R) as [Hp Hall].
  assert (Hsite : read_site σ t = Some WRITERS).
  { unfold read_site, RW.start_read_enter. rewrite Hp. simpl.
    destruct σ as [[ar wr aw ww p wa q] ths]; simpl in *.
    pose proof H as H'.
    destruct ev; exec_paths H' ths p; try discriminate Hp.
    all: injection H' as <- <-; simpl in *.
    all: try (destruct (decide (t0 = t)) as [->|Hne];
              [ apply lookup_lt_Some in Ht as Hlt;
                rewrite list_lookup_insert_eq in Hpost by done;
                try discriminate Hpost
              | rewrite list_lookup_insert_ne in Hpost by done; try done ]).
    all: try done.
    all: rewrite Ht; try done.
    all: by rewrite (Forall_lookup_1 _ _ _ _ Hall Ht). }
  assert (Rch : reachable WRITERS n σ) by (by exists evs, log).
  pose proof (reachable_consistent _ _ _ Rch) as [_ _ _ C4 _ _ _].
  destruct (read_grant _ _ _ _ _ _ Hsite H Hpost) as (Hwa & Hww & _).
  specialize (Hww eq_refl). repeat split; try done.
  intros u site Hu.
  pose proof (Forall_lookup_1 _ _ _ _ Hall Hu) as Hb. simpl in Hb. subst site.
  assert (Hz : tally is_counted_writer (threads σ) = 0) by lia.
  pose proof (tally_zero_lookup _ _ _ _ Hz Hu). done.
Qed.

(** C6. [start_write] is granted only when [writer_active] is false and
    [active_readers == 0]; at the waits of the READERS and the WRITERS
    branch this is the whole predicate, the same for both.  The grant sets
    [writer_active] and increments [active_writers] by one. *)
Theorem write_admission ev σ σ' o t :
  exec ev σ = Some (σ', o) →
  threads σ !! t ≠ Some Writing →
  threads σ' !! t = Some Writing →
  (∀ site s, site ≠ FAIR →
     RW.write_pred site s = negb (writer_active s) && (active_readers s =? 0)) ∧
  writer_active (rw σ) = false ∧ active_readers (rw σ) = 0 ∧
  writer_active (rw σ') = true ∧
  active_writers (rw σ') = active_writers (rw σ) + 1.
Proof.
  intros H Hpre Hpost. split; [by intros [] s Hs|].
  destruct σ as [[ar wr aw ww p wa q] ths]; simpl in *.
  destruct ev; exec_paths H ths p.
  all: injection H as <- <-; simpl in *.
  all: try (destruct (decide (t0 = t)) as [->|Hne];
            [ apply lookup_lt_Some in Ht;
              rewrite list_lookup_insert_eq in Hpost by done;
              try discriminate Hpost
            | rewrite list_lookup_insert_ne in Hpost by done; try done ]).
  all: try done.
  all: bool_facts; subst; repeat split; try done; try lia.
Qed.

Lemma write_admission_witness :
  (∀ site s, site ≠ FAIR →
     RW.write_pred site s = negb (writer_active s) && (active_readers s =? 0)) ∧
  writer_active (rw writer_ready) = false ∧
  active_readers (rw writer_ready) = 0 ∧
  writer_active (rw writer_admitted) = true ∧
  active_writers (rw writer_admitted) = active_writers (rw writer_ready) + 1.
Proof.
  apply (write_admission (Wake 1) writer_ready writer_admitted
           [Granted 1%nat true] 1%nat).
  - reflexivity.
  - discriminate.
  - reflexivity.
Defined.

(** ** Wake policy of [end_write] *)



(** ** [set_priority] *)

(** C8. [set_priority] empties the queue when the new policy is FAIR or the
    old policy was FAIR and the new one is not, and leaves it alone
    otherwise; it sets the policy; it leaves the four counters and
    [writer_active] unchanged.  The call contains no wait: whatever the
    state, it is one atomic step that moves no thread. *)
Theorem set_priority_effect new_priority s :
  request_queue (fst (RW.set_priority new_priority s)) =
    (if bool_decide (new_priority = FAIR ∨ (priority s = FAIR ∧ new_priority ≠ FAIR))
     then [] else request_queue s) ∧
  priority (fst (RW.set_priority new_priority s)) = new_priority ∧
  active_readers (fst (RW.set_priority new_priority s)) = active_readers s ∧
  waiting_readers (fst (RW.set_priority new_priority s)) = waiting_readers s ∧
  active_writers (fst (RW.set_priority new_priority s)) = active_writers s ∧
  waiting_writers (fst (RW.set_priority new_priority s)) = waiting_writers s ∧
  writer_active (fst (RW.set_priority new_priority s)) = writer_active s ∧
  snd (RW.set_priority new_priority s) = [notify_all cv_read; notify_all cv_write] ∧
  (∀ ths, ∃ o,
     exec (CallSetPriority new_priority) (mkSystem s ths)
       = Some (mkSystem (fst (RW.set_priority new_priority s)) ths, o)).
Proof.
  destruct s as [ar wr aw ww p wa q]. unfold RW.set_priority; simpl.
  split.
  - destruct p, new_priority; simpl; by rewrite ?drain_nil.
  - split; [by destruct p, new_priority|].
    repeat split; try by destruct p, new_priority.
    intros ths. eexists. unfold exec, RW.set_priority; simpl.
    by destruct p, new_priority.
Qed.

(** ** [print_status] *)

(** C9. [print_status] leaves the coordinator as it found it, so a second
    call that follows the first with nothing in between prints the same
    line: the same counts, the same flag, the same queue length and the same
    policy. *)
Theorem print_status_idempotent prefix s :
  snd (RW.print_status prefix s) = s ∧
  fst (RW.print_status prefix (snd (RW.print_status prefix s)))
    = fst (RW.print_status prefix s) ∧
  (∀ ths,
     run [CallPrintStatus prefix; CallPrintStatus prefix] (mkSystem s ths)
       = Some (mkSystem s ths,
               [Printed (fst (RW.print_status prefix s));
                Printed (fst (RW.print_status prefix s))])).
Proof.
  assert (E : snd (RW.print_status prefix s) = s) by reflexivity.
  split; [exact E|]. split; [by rewrite E|].
  intros ths. reflexivity.
Qed.

(** ** Waiting counters under FAIR *)

Lemma fair_branch_keeps_waiting_counters s :
  priority s = FAIR →
  (fst (RW.start_read_enter s) = FAIR ∧
   waiting_readers (snd (RW.start_read_enter s)) = waiting_readers s ∧
   waiting_writers (snd (RW.start_read_enter s)) = waiting_writers s) ∧
  (fst (RW.start_write_enter s) = FAIR ∧
   waiting_readers (snd (RW.start_write_enter s)) = waiting_readers s ∧
   waiting_writers (snd (RW.start_write_enter s)) = waiting_writers s) ∧
  (waiting_readers (RW.start_read_leave FAIR s) = waiting_readers s ∧
   waiting_writers (RW.start_read_leave FAIR s) = waiting_writers s) ∧
  (waiting_readers (RW.start_write_leave FAIR s) = waiting_readers s ∧
   waiting_writers (RW.start_write_leave FAIR s) = waiting_writers s).
Proof.
  destruct s as [ar wr aw ww p wa q]; simpl. intros ->. by repeat split.
Qed.

Lemma uncounted_exec ev σ σ' o :
  (is_acquire ev = true → priority (rw σ) = FAIR) →
  exec ev σ = Some (σ', o) →
  waiting_readers (rw σ) = 0 ∧ waiting_writers (rw σ) = 0 ∧
    Forall (blocked_at FAIR) (threads σ) →
  waiting_readers (rw σ') = 0 ∧ waiting_writers (rw σ') = 0 ∧
    Forall (blocked_at FAIR) (threads σ').
Proof.
  intros Hacq H (Hr & Hw & Hall).
  destruct σ as [[ar wr aw ww p wa q] ths]; simpl in *.
  destruct ev; exec_paths H ths p.
  all: try (specialize (Hacq eq_refl); discriminate Hacq).
  all: try (pose proof (Forall_lookup_1 _ _ _ _ Hall Ht) as Hb; discriminate Hb).
  all: injection H as <- <-; simpl; repeat split; try done.
  all: by apply Forall_insert.
Qed.

Lemma uncounted_run evs : ∀ σ σ' log,
  acquires_under_fair evs σ = true →
  run evs σ = Some (σ', log) →
  waiting_readers (rw σ) = 0 ∧ waiting_writers (rw σ) = 0 ∧
    Forall (blocked_at FAIR) (threads σ) →
  waiting_readers (rw σ') = 0 ∧ waiting_writers (rw σ') = 0 ∧
    Forall (blocked_at FAIR) (threads σ').
Proof.
  induction evs as [|ev evs IH]; simpl; intros σ σ' log Hacq H J.
  - by injection H as <- <-.
  - apply andb_true_iff in Hacq as [Ha1 Ha2].
    run_step H E R.
    apply (IH _ _ _ Ha2 R). eapply (uncounted_exec ev σ); [|done..].
    intros Ha. rewrite Ha in Ha1. simpl in Ha1. by apply bool_decide_eq_true in Ha1.
Qed.

Lemma string_app_assoc (a b c : string) : (a +:+ b) +:+ c = a +:+ b +:+ c.
Proof.
  induction a as [|x a IH]; [done|].
  change (String x ((a +:+ b) +:+ c) = String x (a +:+ b +:+ c)).
  by rewrite IH.
Qed.

(** C10. The branches of [start_read] and [start_write] taken under FAIR do
    not touch [waiting_readers] and [waiting_writers].  So, if every
    [start_read] and [start_write] since construction was called while the
    policy was FAIR, both counters are zero in every state reached, every
    blocked caller is blocked in a FAIR wait, and the line that
    [print_status] prints there reports 0 waiting readers and 0 waiting
    writers. *)
Theorem fair_acquires_uncounted p n evs σ log prefix :
  acquires_under_fair evs (init p n) = true →
  run evs (init p n) = Some (σ, log) →
  (∀ s, priority s = FAIR →
     waiting_readers (snd (RW.start_read_enter s)) = waiting_readers s ∧
     waiting_writers (snd (RW.start_read_enter s)) = waiting_writers s ∧
     waiting_readers (snd (RW.start_write_enter s)) = waiting_readers s ∧
     waiting_writers (snd (RW.start_write_enter s)) = waiting_writers s ∧
     waiting_readers (RW.start_read_leave FAIR s) = waiting_readers s ∧
     waiting_writers (RW.start_read_leave FAIR s) = waiting_writers s ∧
     waiting_readers (RW.start_write_leave FAIR s) = waiting_readers s ∧
     waiting_writers (RW.start_write_leave FAIR s) = waiting_writers s) ∧
  waiting_readers (rw σ) = 0 ∧ waiting_writers (rw σ) = 0 ∧
  Forall (blocked_at FAIR) (threads σ) ∧
  exec (CallPrintStatus prefix) σ
    = Some (σ, [Printed (zero_waiting_line prefix (rw σ))]).
Proof.
  intros Hacq R. split.
  { intros s Hs. pose proof (fair_branch_keeps_waiting_counters s Hs). tauto. }
  destruct (uncounted_run _ _ _ _ Hacq R) as (Hr & Hw & Hall).
  { simpl. repeat split; try done. apply Forall_replicate. exact I. }
  repeat split; try done.
  destruct σ as [[ar wr aw ww q wa qu] ths]; simpl in *. subst wr ww.
  unfold exec, RW.print_status, zero_waiting_line. cbn [rw threads fst snd].
  cbv [active_readers waiting_readers active_writers waiting_writers priority
       writer_active request_queue].
  assert (Hz : pretty 0 = "0") by reflexivity. rewrite Hz.
  do 4 f_equal.
  destruct q; repeat case_decide; try done;
    rewrite ?string_app_assoc; reflexivity.
Qed.

Lemma fair_acquires_uncounted_witness :
  (∀ s, priority s = FAIR →
     waiting_readers (snd (RW.start_read_enter s)) = waiting_readers s ∧
     waiting_writers (snd (RW.start_read_enter s)) = waiting_writers s ∧
     waiting_readers (snd (RW.start_write_enter s)) = waiting_readers s ∧
     waiting_writers (snd (RW.start_write_enter s)) = waiting_writers s ∧
     waiting_readers (RW.start_read_leave FAIR s) = waiting_readers s ∧
     waiting_writers (RW.start_read_leave FAIR s) = waiting_writers s ∧
     waiting_readers (RW.start_write_leave FAIR s) = waiting_readers s ∧
     waiting_writers (RW.start_write_leave FAIR s) = waiting_writers s) ∧
  waiting_readers (rw fair_blocked) = 0 ∧ waiting_writers (rw fair_blocked) = 0 ∧
  Forall (blocked_at FAIR) (threads fair_blocked) ∧
  exec (CallPrintStatus EmptyString) fair_blocked
    = Some (fair_blocked,
            [Printed (zero_waiting_line EmptyString (rw fair_blocked))]).
Proof.
  apply (fair_acquires_uncounted FAIR 3 submit_R_W_R fair_blocked
           [Enqueued 0 false; Granted 0 false; Enqueued 1 true; Enqueued 2 false]%nat).
  - vm_compute. reflexivity.
  - vm_compute. reflexivity.
Defined.

(** The line printed while threads 1 and 2 are blocked on the FAIR queue. *)
Lemma fair_blocked_status :
  threads fair_blocked !! 1%nat = Some (InStartWrite FAIR) ∧
  threads fair_blocked !! 2%nat = Some (InStartRead FAIR) ∧
  exec (CallPrintStatus EmptyString) fair_blocked
    = Some (fair_blocked, [Printed fair_blocked_line]) ∧
  zero_waiting_line EmptyString (rw fair_blocked) = fair_blocked_line.
Proof. vm_compute. by repeat split. Qed.

(** ** The FAIR queue *)

Lemma enq_kinds_app l1 l2 : enq_kinds (l1 ++ l2) = enq_kinds l1 ++ enq_kinds l2.
Proof. apply omap_app. Qed.

Lemma grant_kinds_app l1 l2 :
  grant_kinds (l1 ++ l2) = grant_kinds l1 ++ grant_kinds l2.
Proof. apply omap_app. Qed.

Lemma kinds_exec ev σ σ' o :
  is_switch ev = false → priority (rw σ) = FAIR →
  Forall (blocked_at FAIR) (threads σ) →
  exec ev σ = Some (σ', o) →
  request_queue (rw σ) ++ enq_kinds o = grant_kinds o ++ request_queue (rw σ').
Proof.
  intros Hs Hp Hall H.
  destruct σ as [[ar wr aw ww p wa q] ths]; simpl in *. subst p.
  destruct q as [|[] q], wa.
  all: destruct ev; try discriminate Hs; exec_thread H ths.
  all: try (pose proof (Forall_lookup_1 _ _ _ _ Hall Ht) as Hb;
            simpl in Hb; subst site).
  all: exec_branches H.
  all: injection H as <- <-; simpl.
  all: rewrite ?app_nil_r; try done.
  all: destruct (ar =? 0); discriminate.
Qed.

Lemma kinds_run evs : ∀ σ σ' log,
  no_switch evs = true → priority (rw σ) = FAIR →
  Forall (blocked_at FAIR) (threads σ) →
  run evs σ = Some (σ', log) →
  request_queue (rw σ) ++ enq_kinds log
    = grant_kinds log ++ request_queue (rw σ').
Proof.
  induction evs as [|ev evs IH]; simpl; intros σ σ' log Hs Hp Hall H.
  - injection H as <- <-. simpl. by rewrite app_nil_r.
  - apply andb_true_iff in Hs as [Hs1 Hs2]. apply negb_true_iff in Hs1.
    run_step H E R.
    destruct (sites_exec FAIR _ _ _ _ Hs1 Hp Hall E) as [Hp1 Hall1].
    rewrite enq_kinds_app, grant_kinds_app.
    rewrite app_assoc, (kinds_exec _ _ _ _ Hs1 Hp Hall E).
    rewrite <- !app_assoc. f_equal.
    by apply IH.
Qed.

(** C3 fails on the code.  Threads 1, 3 and 2 submit [R1, W1, R2] under
    FAIR while thread 0 writes.  The release of thread 0 signals [cv_read];
    of the two readers woken, thread 2 takes the mutex first, finds a
    reader ticket at the head and is granted, while thread 1 and thread 3,
    whose tickets were pushed before the ticket of thread 2, still wait. *)
Lemma fair_grant_overtakes :
  no_switch overtaking = true ∧
  run overtaking (init FAIR 4) = Some (overtaken_state, overtaking_log) ∧
  enq_order overtaking_log = [0; 1; 3; 2]%nat ∧
  grant_order overtaking_log = [0; 2]%nat ∧
  threads overtaken_state !! 1%nat = Some (InStartRead FAIR) ∧
  threads overtaken_state !! 3%nat = Some (InStartWrite FAIR) ∧
  ¬ fifo_by_request overtaking_log.
Proof.
  repeat split; try (vm_compute; reflexivity).
  intros [k Hk]. vm_compute in Hk. discriminate Hk.
Qed.

(** What the queue does order.  While the policy is FAIR from
    construction on, every grant takes the ticket at the head of the queue,
    and that ticket has the kind of the caller granted, so the kinds pushed
    are the kinds granted, in that order, followed by the tickets still
    queued.  For the submissions [R1, W1, R2] to an idle coordinator the
    grants are R1 at once, W1 after the release of R1 and R2 after the
    release of W1. *)
Theorem fifo_by_kind n evs σ log :
  no_switch evs = true →
  run evs (init FAIR n) = Some (σ, log) →
  enq_kinds log = grant_kinds log ++ request_queue (rw σ) ∧ R_W_R_in_order.
Proof.
  intros Hs R. split.
  - apply (kinds_run evs (init FAIR n) σ log Hs eq_refl (sites_init _ _) R).
  - unfold R_W_R_in_order. do 8 eexists. vm_compute.
    repeat split; reflexivity.
Qed.

Lemma fifo_by_kind_witness :
  enq_kinds overtaking_log
    = grant_kinds overtaking_log ++ request_queue (rw overtaken_state)
  ∧ R_W_R_in_order.
Proof.
  apply (fifo_by_kind 4 overtaking overtaken_state overtaking_log).
  - vm_compute. reflexivity.
  - vm_compute. reflexivity.
Defined.

(** ** Policy switch with blocked callers *)

Lemma stranded_exec ev σ σ' o t c :
  is_switch_to_fair ev = false →
  priority (rw σ) ≠ FAIR → request_queue (rw σ) = [] →
  threads σ !! t = Some c → fair_waiter c = true →
  exec ev σ = Some (σ', o) →
  priority (rw σ') ≠ FAIR ∧ request_queue (rw σ') = [] ∧
  threads σ' !! t = Some c.
Proof.
  intros Hs Hp Hq Hblk Hc H.
  destruct σ as [[ar wr aw ww p wa q] ths]; simpl in *. subst q.
  destruct ev; exec_paths H ths p; try done.
  all: injection H as <- <-; simpl.
  all: try (destruct (decide (t0 = t)) as [->|Hne];
            [ rewrite Ht in Hblk; injection Hblk as <-; try discriminate Hc
            | rewrite list_lookup_insert_ne by done ]).
  all: repeat split; try done.
  all: bool_facts; try done; try (destruct (ar =? 0); done).
Qed.

Lemma stranded_run evs : ∀ σ σ' log t c,
  never_fair evs = true →
  priority (rw σ) ≠ FAIR → request_queue (rw σ) = [] →
  threads σ !! t = Some c → fair_waiter c = true →
  run evs σ = Some (σ', log) →
  threads σ' !! t = Some c.
Proof.
  induction evs as [|ev evs IH]; simpl; intros σ σ' log t c Hs Hp Hq Hblk Hc H.
  - by injection H as <- <-.
  - apply andb_true_iff in Hs as [Hs1 Hs2]. apply negb_true_iff in Hs1.
    run_step H E R.
    destruct (stranded_exec _ _ _ _ _ _ Hs1 Hp Hq Hblk Hc E) as (? & ? & ?).
    eauto.
Qed.

(** C4 fails on the code.  A caller blocked in a FAIR wait evaluates the
    predicate of that wait, also after a switch of policy, and that
    predicate asks for a ticket at the head of the queue.  The switch has
    emptied the queue and no call pushes a ticket while the policy is not
    FAIR: in every state reached with the policy away from FAIR, a caller
    blocked in a FAIR wait stays blocked through every schedule that does
    not switch back to FAIR, whatever calls and wake-ups it contains. *)
Theorem fair_waiters_stranded p n σ t c evs σ' log :
  reachable p n σ →
  priority (rw σ) ≠ FAIR →
  threads σ !! t = Some c → fair_waiter c = true →
  never_fair evs = true →
  run evs σ = Some (σ', log) →
  threads σ' !! t = Some c.
Proof.
  intros Rch Hp Hblk Hc Hs R.
  destruct (reachable_consistent _ _ _ Rch) as [_ _ _ _ _ _ C7].
  eapply stranded_run; eauto.
Qed.

Lemma fair_waiters_stranded_witness :
  threads after_switch_state !! 1%nat = Some (InStartRead FAIR).
Proof.
  apply (fair_waiters_stranded FAIR 2 switched 1 (InStartRead FAIR)
           after_switch after_switch_state
           [Granted 0%nat false; Signalled (notify_one cv_write);
            Signalled (notify_all cv_read); Signalled (notify_all cv_write);
            Granted 0%nat true]).
  - exists switch_while_blocked. eexists. vm_compute. reflexivity.
  - discriminate.
  - reflexivity.
  - reflexivity.
  - reflexivity.
  - vm_compute. reflexivity.
Defined.

(** The failing schedule in detail: thread 1 blocks in [start_read] under
    FAIR behind the writer; after [set_priority(WRITERS)] and the release of
    the writer the predicate of the WRITERS branch holds (as does that of
    the READERS branch), thread 1 evaluates the FAIR predicate, which is
    false, and the release has made no call on a condition variable. *)
Lemma switch_while_blocked_outcome :
  fst <$> run switch_while_blocked (init FAIR 2) = Some switched ∧
  threads switched !! 1%nat = Some (InStartRead FAIR) ∧
  priority (rw switched) = WRITERS ∧
  RW.read_pred WRITERS (rw switched) = true ∧
  RW.read_pred READERS (rw switched) = true ∧
  RW.read_pred FAIR (rw switched) = false ∧
  exec (Wake 1) switched = Some (switched, []) ∧
  snd (RW.end_write (RW.with_writer_active true
                       (RW.with_active_writers 1 (rw switched)))) = [].
Proof. vm_compute. by repeat split. Qed.

(** The predicate stays that of the branch entered, in the other direction
    too: a reader that blocked under READERS is admitted after the switch to
    WRITERS on the READERS predicate, although the WRITERS predicate is
    false because a writer is waiting. *)
Lemma switch_to_writers_outcome :
  fst <$> run switch_to_writers (init READERS 4) = Some stale_reader ∧
  priority (rw stale_reader) = WRITERS ∧
  waiting_writers (rw stale_reader) = 1 ∧
  RW.read_pred WRITERS (rw stale_reader) = false ∧
  RW.read_pred READERS (rw stale_reader) = true ∧
  exec (Wake 1) stale_reader = Some (stale_reader_admitted, [Granted 1%nat false]).
Proof. vm_compute. by repeat split. Qed.

(** C5 fails on the code.  Under WRITERS a reader is admitted while a
    writer is waiting, in two ways.  A reader that blocked under READERS
    evaluates the READERS predicate after the switch: in [stale_reader] the
    policy is WRITERS, thread 3 is blocked in [start_write] and
    [waiting_writers] is 1, and thread 1 leaves [start_read].  A writer that
    blocked under FAIR is not counted by [waiting_writers]: in
    [uncounted_writer_state] the policy is WRITERS, thread 1 is blocked in
    [start_write], and the call of [start_read] by thread 2 returns at
    once. *)
Lemma reader_admitted_past_waiting_writer :
  (fst <$> run switch_to_writers (init READERS 4) = Some stale_reader ∧
   priority (rw stale_reader) = WRITERS ∧
   writer_active (rw stale_reader) = false ∧
   waiting_writers (rw stale_reader) = 1 ∧
   threads stale_reader !! 3%nat = Some (InStartWrite WRITERS) ∧
   threads stale_reader !! 1%nat = Some (InStartRead READERS) ∧
   exec (Wake 1) stale_reader
     = Some (stale_reader_admitted, [Granted 1%nat false]) ∧
   threads stale_reader_admitted !! 1%nat = Some Reading ∧
   threads stale_reader_admitted !! 3%nat = Some (InStartWrite WRITERS) ∧
   priority (rw stale_reader_admitted) = WRITERS ∧
   waiting_writers (rw stale_reader_admitted) = 1) ∧
  (fst <$> run uncounted_writer (init FAIR 3) = Some uncounted_writer_state ∧
   priority (rw uncounted_writer_state) = WRITERS ∧
   waiting_writers (rw uncounted_writer_state) = 0 ∧
   threads uncounted_writer_state !! 1%nat = Some (InStartWrite FAIR) ∧
   exec (CallStartRead 2) uncounted_writer_state
     = Some (uncounted_writer_passed, [Granted 2%nat false]) ∧
   threads uncounted_writer_passed !! 2%nat = Some Reading ∧
   threads uncounted_writer_passed !! 1%nat = Some (InStartWrite FAIR) ∧
   priority (rw uncounted_writer_passed) = WRITERS).
Proof. vm_compute. by repeat split. Qed.

(** * Further properties of the coordinator *)

(** ** More counting lemmas *)

Lemma tickets_app w q1 q2 : tickets w (q1 ++ q2) = tickets w q1 + tickets w q2.
Proof. induction q1 as [|x q1 IH]; simpl; [lia|]. rewrite IH. lia. Qed.

Lemma tickets_nonneg w q : 0 ≤ tickets w q.
Proof. induction q as [|x q IH]; simpl; [lia|]. case_bool_decide; lia. Qed.

Lemma tickets_none q : tickets false q = 0 → tickets true q = 0 → q = [].
Proof.
  destruct q as [|[] q]; simpl; [done|..]; intros H1 H2;
    pose proof (tickets_nonneg false q); pose proof (tickets_nonneg true q); lia.
Qed.

Lemma tally_none f l : (∀ i x, l !! i = Some x → f x = false) → tally f l = 0.
Proof.
  induction l as [|c l IH]; intros H; simpl; [done|].
  rewrite (H 0%nat c eq_refl), IH; [done|]. intros i x Hi. exact (H (S i) x Hi).
Qed.

Lemma tally_pos_lookup f l : 0 < tally f l → ∃ i x, l !! i = Some x ∧ f x = true.
Proof.
  induction l as [|c l IH]; simpl; [lia|]. intros H.
  destruct (f c) eqn:Hc.
  - by exists 0%nat, c.
  - destruct IH as (i & x & Hi & Hx); [lia|]. by exists (S i), x.
Qed.

Lemma tally_two f l i j x y :
  i ≠ j → l !! i = Some x → l !! j = Some y → f x = true → f y = true →
  2 ≤ tally f l.
Proof.
  revert i j. induction l as [|c l IH]; intros [|i] [|j] Hne Hi Hj Hx Hy;
    simpl in *; try discriminate; try done.
  - injection Hi as ->. rewrite Hx. pose proof (tally_lookup_pos f l j y Hj Hy). lia.
  - injection Hj as ->. rewrite Hy. pose proof (tally_lookup_pos f l i x Hi Hx). lia.
  - assert (i ≠ j) by congruence. pose proof (IH i j H Hi Hj Hx Hy).
    destruct (f c); lia.
Qed.

(** ** Threads and counters *)

Lemma counters_bounded_witness :
  0 ≤ active_readers (rw demo_state) ≤ Z.of_nat 3 ∧
  0 ≤ waiting_readers (rw demo_state) ≤ Z.of_nat 3 ∧
  0 ≤ active_writers (rw demo_state) ≤ 1 ∧
  0 ≤ waiting_writers (rw demo_state) ≤ Z.of_nat 3.
Proof.
  apply (counters_bounded FAIR 3 demo_state).
  exists demo. eexists. vm_compute. reflexivity.
Defined.

(** X2. Exclusion in terms of the threads: while a thread is between
    [start_write] and [end_write], no other thread holds access, neither
    between [start_write] and [end_write] nor between [start_read] and
    [end_read]. *)
Theorem writer_is_alone p n σ i j c :
  reachable p n σ →
  threads σ !! i = Some Writing →
  i ≠ j →
  threads σ !! j = Some c →
  holds_access c = false.
Proof.
  intros R Hi Hne Hj.
  destruct (reachable_consistent _ _ _ R) as [C1 C2 _ _ C5 C6 _].
  destruct c; try done; exfalso.
  - pose proof (tally_lookup_pos is_writing _ _ _ Hi eq_refl).
    pose proof (tally_lookup_pos is_reading _ _ _ Hj eq_refl).
    destruct (writer_active (rw σ)); [|lia]. specialize (C6 eq_refl). lia.
  - pose proof (tally_two is_writing _ _ _ _ _ Hne Hi Hj eq_refl eq_refl).
    destruct (writer_active (rw σ)); lia.
Qed.

Lemma writer_is_alone_witness : holds_access (InStartRead FAIR) = false.
Proof.
  apply (writer_is_alone FAIR 3 demo_state 1 2 (InStartRead FAIR)).
  - exists demo. eexists. vm_compute. reflexivity.
  - reflexivity.
  - lia.
  - reflexivity.
Defined.

(** ** Tickets and FAIR waiters *)

Lemma tickets_le_exec ev σ σ' o :
  exec ev σ = Some (σ', o) →
  tickets false (request_queue (rw σ)) ≤ tally is_fair_reader (threads σ) ∧
  tickets true (request_queue (rw σ)) ≤ tally is_fair_writer (threads σ) →
  tickets false (request_queue (rw σ')) ≤ tally is_fair_reader (threads σ') ∧
  tickets true (request_queue (rw σ')) ≤ tally is_fair_writer (threads σ').
Proof.
  intros H [Hr Hw].
  destruct σ as [[ar wr aw ww p wa q] ths]; simpl in *.
  destruct q as [|[] q], wa.
  all: destruct ev; exec_paths H ths p.
  all: injection H as <- <-; simpl in *.
  all: rewrite ?drain_nil, ?tickets_app; simpl.
  all: try (erewrite !tally_insert by eassumption; simpl).
  all: pose proof (tally_bounds is_fair_reader ths);
       pose proof (tally_bounds is_fair_writer ths).
  all: lia.
Qed.

Lemma tickets_eq_exec ev σ σ' o :
  is_switch ev = false →
  exec ev σ = Some (σ', o) →
  tickets false (request_queue (rw σ)) = tally is_fair_reader (threads σ) ∧
  tickets true (request_queue (rw σ)) = tally is_fair_writer (threads σ) →
  tickets false (request_queue (rw σ')) = tally is_fair_reader (threads σ') ∧
  tickets true (request_queue (rw σ')) = tally is_fair_writer (threads σ').
Proof.
  intros Hs H [Hr Hw].
  destruct σ as [[ar wr aw ww p wa q] ths]; simpl in *.
  destruct q as [|[] q], wa.
  all: destruct ev; try discriminate Hs; exec_paths H ths p.
  all: injection H as <- <-; simpl in *.
  all: rewrite ?tickets_app; simpl.
  all: try (erewrite !tally_insert by eassumption; simpl).
  all: lia.
Qed.

Lemma tickets_le_run evs : ∀ σ σ' log,
  run evs σ = Some (σ', log) →
  tickets false (request_queue (rw σ)) ≤ tally is_fair_reader (threads σ) ∧
  tickets true (request_queue (rw σ)) ≤ tally is_fair_writer (threads σ) →
  tickets false (request_queue (rw σ')) ≤ tally is_fair_reader (threads σ') ∧
  tickets true (request_queue (rw σ')) ≤ tally is_fair_writer (threads σ').
Proof.
  induction evs as [|ev evs IH]; simpl; intros σ σ' log H J.
  - by injection H as <- <-.
  - run_step H E R. eauto using tickets_le_exec.
Qed.

Lemma tickets_eq_run evs : ∀ σ σ' log,
  no_switch evs = true →
  run evs σ = Some (σ', log) →
  tickets false (request_queue (rw σ)) = tally is_fair_reader (threads σ) ∧
  tickets true (request_queue (rw σ)) = tally is_fair_writer (threads σ) →
  tickets false (request_queue (rw σ')) = tally is_fair_reader (threads σ') ∧
  tickets true (request_queue (rw σ')) = tally is_fair_writer (threads σ').
Proof.
  induction evs as [|ev evs IH]; simpl; intros σ σ' log Hs H J.
  - by injection H as <- <-.
  - apply andb_true_iff in Hs as [Hs1 Hs2]. apply negb_true_iff in Hs1.
    run_step H E R. eauto using tickets_eq_exec.
Qed.

(** X3. The queue never holds more reader tickets than there are threads
    blocked in the FAIR wait of [start_read], nor more writer tickets than
    threads blocked in the FAIR wait of [start_write].  As long as
    [set_priority] has not been called the numbers are equal: the queue
    holds one ticket for each caller blocked under FAIR, of its kind. *)
Theorem queue_counts_fair_waiters p n evs σ log :
  run evs (init p n) = Some (σ, log) →
  (tickets false (request_queue (rw σ)) ≤ tally is_fair_reader (threads σ) ∧
   tickets true (request_queue (rw σ)) ≤ tally is_fair_writer (threads σ)) ∧
  (no_switch evs = true →
   tickets false (request_queue (rw σ)) = tally is_fair_reader (threads σ) ∧
   tickets true (request_queue (rw σ)) = tally is_fair_writer (threads σ)).
Proof.
  intros R. split.
  - apply (tickets_le_run _ _ _ _ R). simpl.
    by rewrite !tally_replicate_idle.
  - intros Hs. apply (tickets_eq_run _ _ _ _ Hs R). simpl.
    by rewrite !tally_replicate_idle.
Qed.

Lemma queue_counts_fair_waiters_witness :
  (tickets false (request_queue (rw R_W_R_released_state))
     ≤ tally is_fair_reader (threads R_W_R_released_state) ∧
   tickets true (request_queue (rw R_W_R_released_state))
     ≤ tally is_fair_writer (threads R_W_R_released_state)) ∧
  (no_switch R_W_R_released = true →
   tickets false (request_queue (rw R_W_R_released_state))
     = tally is_fair_reader (threads R_W_R_released_state) ∧
   tickets true (request_queue (rw R_W_R_released_state))
     = tally is_fair_writer (threads R_W_R_released_state)).
Proof.
  apply (queue_counts_fair_waiters FAIR 3 R_W_R_released R_W_R_released_state
           R_W_R_released_log).
  vm_compute. reflexivity.
Defined.

(** X4. No leaked holds: whenever every thread is outside the coordinator
    (each acquire has been matched by its release and nobody is blocked),
    the coordinator is in the state in which its constructor would put it
    for the current policy: all counters zero, no writer active, the queue
    empty. *)
Theorem quiescent_is_fresh p n σ :
  reachable p n σ →
  Forall (λ c, c = Idle) (threads σ) →
  rw σ = construct (priority (rw σ)).
Proof.
  intros R Hidle.
  pose proof (reachable_consistent _ _ _ R) as [C1 C2 C3 C4 C5 C6 C7].
  destruct R as (evs & log & R).
  destruct (tickets_le_run _ _ _ _ R) as [T1 T2].
  { simpl. rewrite !tally_replicate_idle by done. done. }
  assert (Z : ∀ f, f Idle = false → tally f (threads σ) = 0).
  { intros f Hf. apply tally_none. intros i x Hi.
    rewrite (Forall_lookup_1 _ _ _ _ Hidle Hi). done. }
  rewrite Z in * by done.
  pose proof (tickets_nonneg false (request_queue (rw σ))).
  pose proof (tickets_nonneg true (request_queue (rw σ))).
  assert (Hq : request_queue (rw σ) = []) by (apply tickets_none; lia).
  destruct σ as [[ar wr aw ww q wa qu] ths]; simpl in *.
  unfold construct. destruct wa; [lia|]. by subst.
Qed.

Lemma quiescent_is_fresh_witness :
  rw (init FAIR 3) = construct (priority (rw (init FAIR 3))).
Proof.
  apply (quiescent_is_fresh FAIR 3 (init FAIR 3)).
  - exists R_W_R_complete, R_W_R_complete_log. vm_compute. reflexivity.
  - repeat constructor.
Defined.

(** ** Progress under a constant policy *)

(** As long as [set_priority] has not been called, in every state in
    which some caller is blocked and no thread is between an acquire and
    its release, the predicate of some blocked caller holds.  Whether that
    caller has been notified is the subject of [no_lost_wakeup] below. *)
Theorem no_deadlock_without_switch p n evs σ log :
  no_switch evs = true →
  run evs (init p n) = Some (σ, log) →
  (∃ t c, threads σ !! t = Some c ∧ is_blocked c = true) →
  (∀ t c, threads σ !! t = Some c → holds_access c = false) →
  ∃ t c σ' w, threads σ !! t = Some c ∧ is_blocked c = true ∧
              exec (Wake t) σ = Some (σ', [Granted t w]).
Proof.
  intros Hs R (t & c & Ht & Hc) Hfree.
  destruct (sites_run p evs (init p n) σ log Hs eq_refl (sites_init _ _) R)
    as [Hp Hall].
  destruct (tickets_eq_run _ _ _ _ Hs R) as [T1 T2].
  { simpl. by rewrite !tally_replicate_idle. }
  pose proof (reachable_consistent p n σ ltac:(by exists evs, log))
    as [C1 C2 C3 C4 C5 C6 C7].
  assert (Hnr : tally is_reading (threads σ) = 0).
  { apply tally_none. intros i x Hi. specialize (Hfree i x Hi). by destruct x. }
  assert (Hnw : tally is_writing (threads σ) = 0).
  { apply tally_none. intros i x Hi. specialize (Hfree i x Hi). by destruct x. }
  destruct σ as [[ar wr aw ww q wa qu] ths]; simpl in *.
  assert (wa = false) by (destruct wa; [lia|done]). subst wa q ar aw.
  rewrite Hnr in *. clear C5 C6 Hnw.
  pose proof (Forall_lookup_1 _ _ _ _ Hall Ht) as Hb.
  destruct p.
  - (* READERS: every predicate holds *)
    exists t, c. destruct c; try discriminate Hc; simpl in Hb; subst site.
    + do 2 eexists. repeat split; try done.
      unfold exec; simpl. rewrite Ht. reflexivity.
    + do 2 eexists. repeat split; try done.
      unfold exec; simpl. rewrite Ht. reflexivity.
  - (* WRITERS: a blocked writer if there is one, else any reader *)
    destruct c; try discriminate Hc; simpl in Hb; subst site.
    + destruct (decide (ww = 0)) as [->|Hne].
      * exists t, (InStartRead WRITERS). do 2 eexists. repeat split; try done.
        unfold exec; simpl. rewrite Ht. reflexivity.
      * pose proof (tally_bounds is_counted_writer ths).
        destruct (tally_pos_lookup is_counted_writer ths) as (u & x & Hu & Hx);
          [lia|].
        pose proof (Forall_lookup_1 _ _ _ _ Hall Hu) as Hbu.
        destruct x as [| |  | s |]; try discriminate Hx. simpl in Hbu. subst s.
        exists u, (InStartWrite WRITERS). do 2 eexists. repeat split; try done.
        unfold exec; simpl. rewrite Hu. reflexivity.
    + exists t, (InStartWrite WRITERS). do 2 eexists. repeat split; try done.
      unfold exec; simpl. rewrite Ht. reflexivity.
  - (* FAIR: a caller of the kind of the ticket at the head *)
    assert (Hq : ∃ h q', qu = h :: q').
    { destruct qu as [|h q']; [|by eauto]. simpl in *.
      destruct c; try discriminate Hc; simpl in Hb; subst site.
      - pose proof (tally_lookup_pos is_fair_reader _ _ _ Ht eq_refl). lia.
      - pose proof (tally_lookup_pos is_fair_writer _ _ _ Ht eq_refl). lia. }
    destruct Hq as (h & q' & ->). simpl in *.
    pose proof (tickets_nonneg false q'). pose proof (tickets_nonneg true q').
    destruct h.
    + destruct (tally_pos_lookup is_fair_writer ths) as (u & x & Hu & Hx).
      { rewrite bool_decide_eq_true_2 in T2 by done. lia. }
      destruct x as [| | | [] |]; try discriminate Hx.
      exists u, (InStartWrite FAIR). do 2 eexists. repeat split; try done.
      unfold exec; simpl. rewrite Hu. reflexivity.
    + destruct (tally_pos_lookup is_fair_reader ths) as (u & x & Hu & Hx).
      { rewrite bool_decide_eq_true_2 in T1 by done. lia. }
      destruct x as [| [] | | |]; try discriminate Hx.
      exists u, (InStartRead FAIR). do 2 eexists. repeat split; try done.
      unfold exec; simpl. rewrite Hu. reflexivity.
Qed.

Lemma no_deadlock_without_switch_witness :
  ∃ t c σ' w, threads R_W_R_released_state !! t = Some c ∧ is_blocked c = true ∧
              exec (Wake t) R_W_R_released_state = Some (σ', [Granted t w]).
Proof.
  apply (no_deadlock_without_switch FAIR 3 R_W_R_released R_W_R_released_state
           R_W_R_released_log).
  - reflexivity.
  - vm_compute. reflexivity.
  - exists 1%nat, (InStartWrite FAIR). by split.
  - intros [|[|[|t]]] c Hc; vm_compute in Hc; try discriminate Hc;
      injection Hc as <-; reflexivity.
Defined.


(** ** Notifications *)

Lemma cnt_nonneg cv flag ths : ∀ ntf, 0 ≤ Notify.cnt cv flag ths ntf.
Proof.
  unfold Notify.cnt.
  induction ths as [|x ths IH]; intros [|y ntf]; simpl; try lia.
  specialize (IH ntf).
  destruct (waits_on cv x && bool_decide (y = flag)); lia.
Qed.

Lemma cnt_insert cv flag ths : ∀ ntf t c b c' b',
  ths !! t = Some c → ntf !! t = Some b →
  Notify.cnt cv flag (<[t:=c']> ths) (<[t:=b']> ntf)
    = Notify.cnt cv flag ths ntf
      - (if waits_on cv c && bool_decide (b = flag) then 1 else 0)
      + (if waits_on cv c' && bool_decide (b' = flag) then 1 else 0).
Proof.
  unfold Notify.cnt.
  induction ths as [|x ths IH]; intros [|y ntf] [|t] c b c' b' Hc Hb;
    simpl in *; try discriminate.
  - injection Hc as ->. injection Hb as ->. lia.
  - rewrite (IH ntf t c b c' b' Hc Hb). lia.
Qed.

Lemma cnt_insert_flag cv flag ths ntf t c b b' :
  ths !! t = Some c → ntf !! t = Some b →
  Notify.cnt cv flag ths (<[t:=b']> ntf)
    = Notify.cnt cv flag ths ntf
      - (if waits_on cv c && bool_decide (b = flag) then 1 else 0)
      + (if waits_on cv c && bool_decide (b' = flag) then 1 else 0).
Proof.
  intros Hc Hb. rewrite <- (cnt_insert cv flag ths ntf t c b c b' Hc Hb).
  by rewrite (list_insert_id ths t c Hc).
Qed.

Lemma cnt_total cv ths : ∀ ntf,
  length ntf = length ths →
  Notify.cnt cv true ths ntf + Notify.cnt cv false ths ntf
    = tally (waits_on cv) ths.
Proof.
  unfold Notify.cnt.
  induction ths as [|x ths IH]; intros [|y ntf] Hl; simpl in *;
    try discriminate; [done|].
  specialize (IH ntf ltac:(lia)).
  destruct (waits_on cv x), y; simpl; lia.
Qed.

Lemma cnt_notify_all cv cv' flag ths : ∀ ntf,
  length ntf = length ths →
  Notify.cnt cv' flag ths (Notify.notify_all_to cv ths ntf)
    = if decide (cv' = cv) then
        if flag then Notify.cnt cv true ths ntf + Notify.cnt cv false ths ntf
        else 0
      else Notify.cnt cv' flag ths ntf.
Proof.
  unfold Notify.cnt, Notify.notify_all_to.
  induction ths as [|x ths IH]; intros [|y ntf] Hl; simpl in *;
    try discriminate.
  - by destruct (decide (cv' = cv)), flag.
  - rewrite (IH ntf ltac:(lia)).
    destruct cv, cv', x, y, flag; simpl; try done; lia.
Qed.

Lemma length_notify_all cv ths ntf :
  length ntf = length ths →
  length (Notify.notify_all_to cv ths ntf) = length ths.
Proof.
  intros Hl. unfold Notify.notify_all_to. rewrite length_zip_with. lia.
Qed.

Lemma cnt_none_in_wait cv ths : ∀ ntf,
  existsb (Notify.in_wait cv) (zip ths ntf) = false →
  Notify.cnt cv false ths ntf = 0.
Proof.
  unfold Notify.cnt, Notify.in_wait.
  induction ths as [|x ths IH]; intros [|y ntf] H; simpl in *; try done.
  apply orb_false_iff in H as [H1 H2]. rewrite (IH ntf H2).
  destruct (waits_on cv x), y; simpl in *; try done.
Qed.

Lemma cnt_notify_one cv u ths ntf ntf' :
  Notify.notify_one_to cv u ths ntf = Some ntf' →
  length ntf' = length ntf ∧
  0 < Notify.cnt cv false ths ntf ∧
  Notify.cnt cv true ths ntf' = Notify.cnt cv true ths ntf + 1 ∧
  Notify.cnt cv false ths ntf' = Notify.cnt cv false ths ntf - 1 ∧
  ∀ cv' flag, cv' ≠ cv →
    Notify.cnt cv' flag ths ntf' = Notify.cnt cv' flag ths ntf.
Proof.
  unfold Notify.notify_one_to, Notify.in_wait. intros H.
  destruct (ths !! u) as [c|] eqn:Hc; [|discriminate].
  destruct (ntf !! u) as [b|] eqn:Hb; [|discriminate].
  simpl in H. destruct (waits_on cv c) eqn:Hw, b; try discriminate H.
  injection H as <-.
  split; [by rewrite length_insert|].
  pose proof (cnt_insert_flag cv true ths ntf u c false true Hc Hb) as H1.
  pose proof (cnt_insert_flag cv false ths ntf u c false true Hc Hb) as H2.
  rewrite Hw in H1, H2. simpl in H1, H2.
  pose proof (cnt_nonneg cv false ths (<[u:=true]> ntf)).
  repeat split; try lia.
  intros cv' flag Hne.
  rewrite (cnt_insert_flag cv' flag ths ntf u c false true Hc Hb).
  destruct cv, cv', c; simpl in *; try done; lia.
Qed.

Lemma deliver_effect sgs ths : ∀ picks ntf ntf',
  length ntf = length ths →
  Notify.deliver sgs picks ths ntf = Some ntf' →
  length ntf' = length ths ∧
  Notify.effect sgs (Notify.counts ths ntf) (Notify.counts ths ntf').
Proof.
  induction sgs as [|[cv|cv] sgs IH]; intros picks ntf ntf' Hl H; simpl in H.
  - injection H as <-. split; [done|]. by unfold Notify.counts.
  - destruct (existsb (Notify.in_wait cv) (zip ths ntf)) eqn:Hex.
    + destruct picks as [|u picks]; [discriminate|].
      destruct (Notify.notify_one_to cv u ths ntf) as [ntf1|] eqn:H1;
        [|discriminate].
      destruct (cnt_notify_one _ _ _ _ _ H1) as (Hl1 & Hpos & Ht & Hf & Ho).
      destruct (IH picks ntf1 ntf' ltac:(lia) H) as [Hl' He]. split; [done|].
      unfold Notify.counts in *.
      destruct cv; simpl; right; (split; [done|]);
        rewrite <- Ht, <- Hf, <- !(Ho _ _) by done; exact He.
    + destruct (IH _ _ _ Hl H) as [Hl' He]. split; [done|].
      pose proof (cnt_none_in_wait _ _ _ Hex).
      unfold Notify.counts in *. destruct cv; simpl; left; by split.
  - destruct (IH _ _ _ (length_notify_all cv ths ntf Hl) H) as [Hl' He].
    split; [done|]. unfold Notify.counts in *.
    rewrite !cnt_notify_all in He by done.
    destruct cv; simpl in *; exact He.
Qed.

Lemma cnt_lookup cv ths : ∀ ntf,
  0 < Notify.cnt cv true ths ntf →
  ∃ t c, ths !! t = Some c ∧ waits_on cv c = true ∧ ntf !! t = Some true.
Proof.
  unfold Notify.cnt.
  induction ths as [|x ths IH]; intros [|y ntf] H; simpl in *; try lia.
  destruct (waits_on cv x) eqn:Hx, y; simpl in H.
  - by exists 0%nat, x.
  - destruct (IH ntf) as (t & c & ? & ? & ?); [lia|]. by exists (S t), c.
  - destruct (IH ntf) as (t & c & ? & ? & ?); [lia|]. by exists (S t), c.
  - destruct (IH ntf) as (t & c & ? & ? & ?); [lia|]. by exists (S t), c.
Qed.

Lemma waits_tally p ths :
  Forall (blocked_at p) ths →
  tally (waits_on cv_read) ths
    = (if decide (p = FAIR) then tally is_fair_reader ths
       else tally is_counted_reader ths) ∧
  tally (waits_on cv_write) ths
    = (if decide (p = FAIR) then tally is_fair_writer ths
       else tally is_counted_writer ths).
Proof.
  induction 1 as [|c ths Hc _ [IH1 IH2]]; simpl.
  - by destruct (decide (p = FAIR)).
  - rewrite IH1, IH2.
    destruct c as [|site| |site|]; simpl in Hc; subst;
      by destruct p.
Qed.

(** The four numbers of the state after the step are not negative. *)
Ltac new_counts He ntf :=
  match type of He with
  | context [Notify.cnt _ _ ?l ntf] =>
      pose proof (cnt_nonneg cv_read true l ntf);
      pose proof (cnt_nonneg cv_read false l ntf);
      pose proof (cnt_nonneg cv_write true l ntf);
      pose proof (cnt_nonneg cv_write false l ntf)
  end.

Lemma notify_step p ev picks σ σ' o :
  is_switch ev = false →
  Notify.step ev picks σ = Some (σ', o) →
  consistent (Notify.sys σ) →
  priority (rw (Notify.sys σ)) = p →
  Forall (blocked_at p) (threads (Notify.sys σ)) →
  tickets false (request_queue (rw (Notify.sys σ)))
    = tally is_fair_reader (threads (Notify.sys σ)) →
  tickets true (request_queue (rw (Notify.sys σ)))
    = tally is_fair_writer (threads (Notify.sys σ)) →
  Notify.inv p σ → Notify.inv p σ'.
Proof.
  intros Hs H [C1 C2 C3 C4 C5 C6 C7] Hp Hall T1 T2 [Jl J2 J3 J4].
  unfold Notify.step in H.
  destruct (exec ev (Notify.sys σ)) as [[s o1]|] eqn:E; [|discriminate].
  destruct (Notify.deliver _ _ _ _) as [ntf'|] eqn:D; [|discriminate].
  injection H as <- <-.
  apply deliver_effect in D as [Hl' He];
    [|rewrite (exec_length _ _ _ _ E); destruct (acting ev);
      by rewrite ?length_insert].
  unfold Notify.counts in He.
  destruct σ as [[[ar wr aw ww p0 wa q] ths] ntf].
  unfold Notify.count in *. simpl in *. subst p0.
  pose proof (cnt_total cv_read ths ntf Jl) as Sr.
  pose proof (cnt_total cv_write ths ntf Jl) as Sw.
  destruct (waits_tally p ths Hall) as [Wr Ww].
  pose proof (cnt_nonneg cv_read true ths ntf).
  pose proof (cnt_nonneg cv_read false ths ntf).
  pose proof (cnt_nonneg cv_write true ths ntf).
  pose proof (cnt_nonneg cv_write false ths ntf).
  pose proof (tally_bounds is_reading ths).
  pose proof (tally_bounds is_writing ths).
  pose proof (tally_bounds is_counted_reader ths).
  pose proof (tally_bounds is_counted_writer ths).
  destruct q as [|[] q], wa.
  all: try (pose proof (tickets_nonneg false q);
            pose proof (tickets_nonneg true q)).
  all: destruct ev; try discriminate Hs; exec_paths E ths p.
  all: try (specialize (C7 ltac:(discriminate)); discriminate C7).
  all: try (pose proof (Forall_lookup_1 _ _ _ _ Hall Ht) as Hsite;
            discriminate Hsite).
  all: injection E as <- <-; simpl in *.
  all: try (destruct (lookup_lt_is_Some_2 ntf t) as [b Hb];
            [apply lookup_lt_Some in Ht; lia|]).
  all: try rewrite !(cnt_insert cv_read true _ _ _ _ _ _ _ Ht Hb) in He.
  all: try rewrite !(cnt_insert cv_read false _ _ _ _ _ _ _ Ht Hb) in He.
  all: try rewrite !(cnt_insert cv_write true _ _ _ _ _ _ _ Ht Hb) in He.
  all: try rewrite !(cnt_insert cv_write false _ _ _ _ _ _ _ Ht Hb) in He.
  all: try rewrite !(cnt_insert_flag cv_read true _ _ _ _ _ _ Ht Hb) in He.
  all: try rewrite !(cnt_insert_flag cv_read false _ _ _ _ _ _ Ht Hb) in He.
  all: try rewrite !(cnt_insert_flag cv_write true _ _ _ _ _ _ Ht Hb) in He.
  all: try rewrite !(cnt_insert_flag cv_write false _ _ _ _ _ _ Ht Hb) in He.
  all: simpl in He.
  all: new_counts He ntf'.
  all: try (pose proof (tally_lookup_pos is_reading _ _ _ Ht eq_refl)).
  all: try (pose proof (tally_lookup_pos is_writing _ _ _ Ht eq_refl)).
  all: try (pose proof (tally_lookup_pos (waits_on cv_read) _ _ _ Ht eq_refl)).
  all: try (pose proof (tally_lookup_pos (waits_on cv_write) _ _ _ Ht eq_refl)).
  all: bool_facts.
  all: split; unfold Notify.count; simpl; [done|intros; try discriminate..].
  all: repeat match goal with
              | J : ?a = ?a → _ |- _ => specialize (J eq_refl)
              end.
  all: try (destruct b; simpl in *; lia).
  all: try (simpl in *; lia).
Qed.

Lemma notify_init p n : Notify.inv p (Notify.init p n).
Proof.
  assert (Hz : ∀ cv flag,
    Notify.cnt cv flag (replicate n Idle) (replicate n false) = 0).
  { intros cv flag. unfold Notify.cnt.
    induction n as [|n IH]; simpl; [done|].
    destruct cv, flag; simpl; exact IH. }
  split; unfold Notify.count; simpl.
  - by rewrite !length_replicate.
  - intros. apply Hz.
  - intros. apply Hz.
  - intros. right. right. by rewrite !Hz.
Qed.

Lemma notify_run p sched : ∀ σ σ' log,
  no_switch (sched.*1) = true →
  Notify.run sched σ = Some (σ', log) →
  consistent (Notify.sys σ) →
  priority (rw (Notify.sys σ)) = p →
  Forall (blocked_at p) (threads (Notify.sys σ)) →
  tickets false (request_queue (rw (Notify.sys σ)))
    = tally is_fair_reader (threads (Notify.sys σ)) ∧
  tickets true (request_queue (rw (Notify.sys σ)))
    = tally is_fair_writer (threads (Notify.sys σ)) →
  Notify.inv p σ →
  run (sched.*1) (Notify.sys σ) = Some (Notify.sys σ', log) ∧
  consistent (Notify.sys σ') ∧
  Forall (blocked_at p) (threads (Notify.sys σ')) ∧
  Notify.inv p σ'.
Proof.
  induction sched as [|[ev picks] sched IH]; simpl;
    intros σ σ' log Hs H C Hp Hall T J.
  - by injection H as <- <-.
  - apply andb_true_iff in Hs as [Hs1 Hs2]. apply negb_true_iff in Hs1.
    destruct (Notify.step ev picks σ) as [[σ1 o1]|] eqn:E; [|discriminate].
    destruct (Notify.run sched σ1) as [[σ2 o2]|] eqn:R; [|discriminate].
    injection H as <- <-.
    pose proof (notify_step p _ _ _ _ _ Hs1 E C Hp Hall (proj1 T) (proj2 T) J)
      as J1.
    unfold Notify.step in E.
    destruct (exec ev (Notify.sys σ)) as [[s o]|] eqn:X; [|discriminate].
    destruct (Notify.deliver _ _ _ _) as [ntf'|]; [|discriminate].
    injection E as <- <-. simpl in *.
    destruct (sites_exec p _ _ _ _ Hs1 Hp Hall X) as [Hp1 Hall1].
    destruct (IH _ _ _ Hs2 R) as (R' & C' & Hall' & J'); simpl;
      eauto using consistent_exec, tickets_eq_exec.
    change (list_fmap _ _ fst sched) with (sched.*1).
    simpl in R'. by rewrite R'.
Qed.

(** X5. No wake-up is lost while the policy is constant.  [Notify.State]
    records, for each thread, whether a [notify_one] or [notify_all] has
    taken it out of its wait since it last evaluated its predicate, and
    every step delivers the calls on the condition variables that the step
    makes, a [notify_one] to one thread in the wait, whichever it is.  As
    long as [set_priority] has not been called: in every state reached in
    which some caller is blocked and no thread is between an acquire and
    its release, some blocked caller has a notification pending and its
    predicate holds, so that it leaves its wait when it runs next. *)
Theorem no_lost_wakeup p n sched σ log :
  no_switch (sched.*1) = true →
  Notify.run sched (Notify.init p n) = Some (σ, log) →
  (∃ t c, threads (Notify.sys σ) !! t = Some c ∧ is_blocked c = true) →
  (∀ t c, threads (Notify.sys σ) !! t = Some c → holds_access c = false) →
  ∃ t c σ' w,
    threads (Notify.sys σ) !! t = Some c ∧ is_blocked c = true ∧
    Notify.notified σ !! t = Some true ∧
    Notify.step (Wake t) [] σ = Some (σ', [Granted t w]).
Proof.
  intros Hs R (t & c & Ht & Hc) Hfree.
  destruct (notify_run p sched _ _ _ Hs R (consistent_init p n) eq_refl
              (sites_init p n)) as (R' & C & Hall & [Jl _ _ J]).
  { simpl. by rewrite !tally_replicate_idle. }
  { apply notify_init. }
  destruct C as [C1 C2 C3 C4 C5 C6 C7].
  assert (Hp : priority (rw (Notify.sys σ)) = p).
  { by destruct (sites_run p _ (init p n) _ _ Hs eq_refl (sites_init _ _) R'). }
  assert (Hnr : tally is_reading (threads (Notify.sys σ)) = 0).
  { apply tally_none. intros i x Hi. specialize (Hfree i x Hi). by destruct x. }
  assert (Hnw : tally is_writing (threads (Notify.sys σ)) = 0).
  { apply tally_none. intros i x Hi. specialize (Hfree i x Hi). by destruct x. }
  destruct σ as [[[ar wr aw ww q wa qu] ths] ntf].
  unfold Notify.count in *. simpl in *. subst q.
  assert (wa = false) by (destruct wa; [lia|done]). subst wa.
  rewrite Hnr in C1. subst ar.
  pose proof (cnt_total cv_read ths ntf Jl) as Sr.
  pose proof (cnt_total cv_write ths ntf Jl) as Sw.
  destruct (J eq_refl eq_refl) as [[Hn Hpred]|[[Hn Hpred]|(Z1 & Z2 & Z3 & Z4)]].
  - destruct (cnt_lookup _ _ _ Hn) as (u & x & Hu & Hx & Hf).
    pose proof (Forall_lookup_1 _ _ _ _ Hall Hu) as Hsite.
    destruct x as [|site| | |]; try discriminate Hx. simpl in Hsite. subst site.
    exists u, (InStartRead p). do 2 eexists. repeat split; try done.
    unfold Notify.step, exec. simpl. rewrite Hu.
    unfold RW.wait_read. rewrite Hpred. reflexivity.
  - destruct (cnt_lookup _ _ _ Hn) as (u & x & Hu & Hx & Hf).
    pose proof (Forall_lookup_1 _ _ _ _ Hall Hu) as Hsite.
    destruct x as [| | |site|]; try discriminate Hx. simpl in Hsite. subst site.
    exists u, (InStartWrite p). do 2 eexists. repeat split; try done.
    unfold Notify.step, exec. simpl. rewrite Hu.
    unfold RW.wait_write. rewrite Hpred. reflexivity.
  - destruct c; try discriminate Hc.
    + pose proof (tally_lookup_pos (waits_on cv_read) _ _ _ Ht eq_refl). lia.
    + pose proof (tally_lookup_pos (waits_on cv_write) _ _ _ Ht eq_refl). lia.
Qed.

Lemma no_lost_wakeup_witness :
  ∃ t c σ' w,
    threads (Notify.sys Notify.released_state) !! t = Some c ∧
    is_blocked c = true ∧
    Notify.notified Notify.released_state !! t = Some true ∧
    Notify.step (Wake t) [] Notify.released_state = Some (σ', [Granted t w]).
Proof.
  apply (no_lost_wakeup FAIR 3 Notify.released Notify.released_state
           R_W_R_released_log).
  - reflexivity.
  - vm_compute. reflexivity.
  - exists 1%nat, (InStartWrite FAIR). by split.
  - intros [|[|[|t]]] c Hc; vm_compute in Hc; try discriminate Hc;
      injection Hc as <-; reflexivity.
Defined.

(** ** Acquire followed by release *)

Ltac rw_unfold :=
  cbv [RW.start_read RW.start_read_enter RW.wait_read RW.read_pred
       RW.start_write RW.start_write_enter RW.wait_write RW.write_pred
       RW.end_read RW.end_write RW.start_read_leave RW.start_write_leave
       RW.with_active_readers RW.with_waiting_readers RW.with_active_writers
       RW.with_waiting_writers RW.with_writer_active RW.with_request_queue
       RW.push RW.pop RW.empty RW.front fst
       active_readers waiting_readers active_writers waiting_writers
       priority writer_active request_queue negb andb app].

Ltac rw_granted H :=
  unfold RW.start_read, RW.start_read_enter, RW.wait_read, RW.read_pred,
    RW.start_write, RW.start_write_enter, RW.wait_write, RW.write_pred in H;
  simpl in H;
  repeat match type of H with
         | context [?a =? 0] => destruct (a =? 0); simpl in H
         end;
  try discriminate H; injection H as <-; rw_unfold.

Ltac rw_same := repeat split; try done; intros; f_equal; lia.

(** X6. A [start_read] or [start_write] that is granted at once, followed
    by its [end_read] or [end_write], leaves no trace in the counters, the
    flag and the policy.  The queue is as it was when the policy is not FAIR
    or the queue was empty; under FAIR with tickets queued, the call has
    taken the ticket at the head and left its own at the back, so the queue
    holds the same tickets in another order. *)
Theorem acquire_release_round_trip s :
  (∀ s', RW.start_read s = Returned s' →
     fst (RW.end_read s')
       = RW.with_request_queue (request_queue (fst (RW.end_read s'))) s ∧
     request_queue (fst (RW.end_read s')) ≡ₚ request_queue s ∧
     (priority s ≠ FAIR ∨ request_queue s = [] → fst (RW.end_read s') = s)) ∧
  (∀ s', RW.start_write s = Returned s' →
     fst (RW.end_write s')
       = RW.with_request_queue (request_queue (fst (RW.end_write s'))) s ∧
     request_queue (fst (RW.end_write s')) ≡ₚ request_queue s ∧
     (priority s ≠ FAIR ∨ request_queue s = [] → fst (RW.end_write s') = s)).
Proof.
  destruct s as [ar wr aw ww p wa q]. split; intros s' H.
  - destruct p, wa, q as [|[] q]; try discriminate H; rw_granted H.
    1-7: rw_same.
    split; [f_equal; lia|]. split; [|by intros [?|?]].
    change (q ++ [false] ≡ₚ [false] ++ q). apply Permutation_app_comm.
  - destruct p, wa, q as [|[] q]; try discriminate H; rw_granted H.
    1-7: rw_same.
    split; [f_equal; lia|]. split; [|by intros [?|?]].
    change (q ++ [true] ≡ₚ [true] ++ q). apply Permutation_app_comm.
Qed.

Lemma acquire_release_round_trip_witness :
  (fst (RW.end_read fair_reader_granted)
     = RW.with_request_queue
         (request_queue (fst (RW.end_read fair_reader_granted)))
         fair_reader_before ∧
   request_queue (fst (RW.end_read fair_reader_granted))
     ≡ₚ request_queue fair_reader_before ∧
   (priority fair_reader_before ≠ FAIR ∨ request_queue fair_reader_before = [] →
    fst (RW.end_read fair_reader_granted) = fair_reader_before)) ∧
  (fst (RW.end_write writer_granted)
     = RW.with_request_queue (request_queue (fst (RW.end_write writer_granted)))
         writer_before ∧
   request_queue (fst (RW.end_write writer_granted))
     ≡ₚ request_queue writer_before ∧
   (priority writer_before ≠ FAIR ∨ request_queue writer_before = [] →
    fst (RW.end_write writer_granted) = writer_before)).
Proof.
  split.
  - apply (proj1 (acquire_release_round_trip fair_reader_before)
                 fair_reader_granted).
    reflexivity.
  - apply (proj2 (acquire_release_round_trip writer_before) writer_granted).
    reflexivity.
Defined.

(** * Properties of the primitives of [n1.cpp] *)

(** ** [SimpleBarrier] *)

Lemma barrier_blocked_insert l i x y :
  l !! i = Some x →
  Barrier.blocked (<[i:=y]> l)
    = Barrier.blocked l
      - (match x with Barrier.InWait _ => 1 | Barrier.Out => 0 end)
      + (match y with Barrier.InWait _ => 1 | Barrier.Out => 0 end).
Proof.
  revert i. induction l as [|c l IH]; intros [|i] H; simpl in *; try discriminate.
  - injection H as ->. destruct x, y; lia.
  - rewrite (IH i H). destruct c; lia.
Qed.

Lemma barrier_blocked_in_insert g l i x y :
  l !! i = Some x →
  Barrier.blocked_in g (<[i:=y]> l)
    = Barrier.blocked_in g l
      - (match x with Barrier.InWait g' => if g' =? g then 1 else 0
                    | Barrier.Out => 0 end)
      + (match y with Barrier.InWait g' => if g' =? g then 1 else 0
                    | Barrier.Out => 0 end).
Proof.
  revert i. induction l as [|c l IH]; intros [|i] H; simpl in *; try discriminate.
  - injection H as ->. destruct x, y; lia.
  - rewrite (IH i H). destruct c; lia.
Qed.

Lemma barrier_blocked_in_le g l : 0 ≤ Barrier.blocked_in g l ≤ Barrier.blocked l.
Proof.
  induction l as [|[|g'] l IH]; simpl; try lia. destruct (g' =? g); lia.
Qed.

Lemma barrier_blocked_in_fresh g l :
  Forall (Barrier.not_after g) l → Barrier.blocked_in (g + 1) l = 0.
Proof.
  induction 1 as [|[|g'] l H _ IH]; simpl; try done.
  simpl in H. destruct (Z.eqb_spec g' (g + 1)); lia.
Qed.

Lemma barrier_not_after_mono g l :
  Forall (Barrier.not_after g) l → Forall (Barrier.not_after (g + 1)) l.
Proof.
  intros H. eapply Forall_impl; [exact H|]. intros [|g']; simpl; lia.
Qed.

Lemma barrier_blocked_in_lookup g l i :
  l !! i = Some (Barrier.InWait g) → 0 < Barrier.blocked_in g l.
Proof.
  revert i. induction l as [|c l IH]; intros [|i] H; simpl in *; try discriminate.
  - injection H as ->. rewrite Z.eqb_refl.
    pose proof (barrier_blocked_in_le g l). lia.
  - pose proof (IH i H). destruct c as [|g']; [lia|]. destruct (g' =? g); lia.
Qed.

Lemma barrier_arrivals_app l1 l2 :
  Barrier.arrivals (l1 ++ l2) = Barrier.arrivals l1 + Barrier.arrivals l2.
Proof. induction l1 as [|[] l1 IH]; simpl; lia. Qed.

Lemma barrier_passes_app l1 l2 :
  Barrier.passes (l1 ++ l2) = Barrier.passes l1 + Barrier.passes l2.
Proof. induction l1 as [|[] l1 IH]; simpl; lia. Qed.

Lemma barrier_inv_exec k a p ev σ σ' o :
  Barrier.exec ev σ = Some (σ', o) →
  Barrier.inv k a p σ →
  Barrier.inv k (a + Barrier.arrivals o) (p + Barrier.passes o) σ'.
Proof.
  intros H (Hk & Hw & Hg & Hb & Hall & Ha & Hp).
  destruct σ as [[c w g] ths]; simpl in *. subst c.
  destruct ev; unfold Barrier.exec, Barrier.wait, Barrier.wait_gen in H;
    simpl in H.
  - destruct (ths !! t) as [[|g0]|] eqn:Ht; try discriminate H.
    destruct (w =? Barrier.INT_MAX); [discriminate H|].
    destruct (Z.eqb_spec (w + 1) k) as [Hlast|Hnot].
    + destruct (g =? Barrier.INT_MAX); [discriminate H|].
      injection H as <- <-. unfold Barrier.inv; simpl.
      pose proof (barrier_blocked_in_le g ths).
      repeat split; try lia.
      * by rewrite barrier_blocked_in_fresh.
      * by apply barrier_not_after_mono.
    + rewrite Z.eqb_refl in H. simpl in H.
      injection H as <- <-. unfold Barrier.inv; simpl.
      rewrite (barrier_blocked_in_insert _ _ _ _ _ Ht),
              (barrier_blocked_insert _ _ _ _ Ht), Z.eqb_refl.
      repeat split; try lia.
      apply Forall_insert; [done|]. simpl. lia.
  - destruct (ths !! t) as [[|g0]|] eqn:Ht; try discriminate H.
    destruct (Z.eqb_spec g0 g) as [Heq|Hne]; simpl in H.
    + injection H as <- <-. unfold Barrier.inv; simpl.
      repeat split; try done; lia.
    + injection H as <- <-. unfold Barrier.inv; simpl.
      rewrite (barrier_blocked_in_insert _ _ _ _ _ Ht),
              (barrier_blocked_insert _ _ _ _ Ht).
      destruct (Z.eqb_spec g0 g); [done|].
      repeat split; try lia.
      by apply Forall_insert.
Qed.

Lemma barrier_inv_run k evs : ∀ a p σ σ' log,
  Barrier.run evs σ = Some (σ', log) →
  Barrier.inv k a p σ →
  Barrier.inv k (a + Barrier.arrivals log) (p + Barrier.passes log) σ'.
Proof.
  induction evs as [|ev evs IH]; simpl; intros a p σ σ' log H J.
  - injection H as <- <-. simpl. by rewrite !Z.add_0_r.
  - destruct (Barrier.exec ev σ) as [[σ1 o1]|] eqn:E; [|discriminate].
    destruct (Barrier.run evs σ1) as [[σ2 o2]|] eqn:R; [|discriminate].
    injection H as <- <-.
    rewrite barrier_arrivals_app, barrier_passes_app, !Z.add_assoc.
    eauto using barrier_inv_exec.
Qed.

Lemma barrier_blocked_replicate n : Barrier.blocked (replicate n Barrier.Out) = 0.
Proof. induction n; simpl; auto. Qed.

Lemma barrier_blocked_in_replicate g n :
  Barrier.blocked_in g (replicate n Barrier.Out) = 0.
Proof. induction n; simpl; auto. Qed.

Lemma barrier_inv_init k n : 1 ≤ k → Barrier.inv k 0 0 (Barrier.init k n).
Proof.
  intros Hk. unfold Barrier.inv; simpl.
  rewrite barrier_blocked_replicate, barrier_blocked_in_replicate.
  repeat split; try lia. apply Forall_replicate. exact I.
Qed.

(** X7. A barrier constructed with [count ≥ 1] lets nobody through a phase
    before [count] threads have arrived in it: at any moment [generation]
    is the number of complete groups of [count] arrivals, [waiting] is the
    number of arrivals beyond them, and the number of threads that have
    returned from [wait] is at most [count] times the number of complete
    groups. *)
Theorem barrier_phases k n evs σ log :
  1 ≤ k →
  Barrier.run evs (Barrier.init k n) = Some (σ, log) →
  Barrier.generation (Barrier.bar σ) = Barrier.arrivals log `div` k ∧
  Barrier.waiting (Barrier.bar σ) = Barrier.arrivals log `mod` k ∧
  Barrier.passes log ≤ k * (Barrier.arrivals log `div` k) ∧
  Barrier.passes log + Barrier.blocked (Barrier.threads σ) = Barrier.arrivals log.
Proof.
  intros Hk R.
  pose proof (barrier_inv_run k evs 0 0 _ _ _ R (barrier_inv_init k n Hk))
    as (_ & Hw & Hg & Hb & _ & Ha & Hp).
  simpl in Ha, Hp.
  assert (Hdiv : Barrier.arrivals log `div` k = Barrier.generation (Barrier.bar σ)).
  { symmetry. apply (Z.div_unique_pos _ _ _ (Barrier.waiting (Barrier.bar σ)));
      lia. }
  assert (Hmod : Barrier.arrivals log `mod` k = Barrier.waiting (Barrier.bar σ)).
  { symmetry. apply (Z.mod_unique_pos _ _ (Barrier.generation (Barrier.bar σ)));
      lia. }
  pose proof (barrier_blocked_in_le (Barrier.generation (Barrier.bar σ))
                (Barrier.threads σ)).
  rewrite Hdiv. repeat split; try lia.
Qed.

Lemma barrier_phases_witness :
  Barrier.generation (Barrier.bar Barrier.three_arrive_state)
    = Barrier.arrivals Barrier.three_arrive_log `div` 3 ∧
  Barrier.waiting (Barrier.bar Barrier.three_arrive_state)
    = Barrier.arrivals Barrier.three_arrive_log `mod` 3 ∧
  Barrier.passes Barrier.three_arrive_log
    ≤ 3 * (Barrier.arrivals Barrier.three_arrive_log `div` 3) ∧
  Barrier.passes Barrier.three_arrive_log
    + Barrier.blocked (Barrier.threads Barrier.three_arrive_state)
    = Barrier.arrivals Barrier.three_arrive_log.
Proof.
  apply (barrier_phases 3 3 Barrier.three_arrive).
  - lia.
  - vm_compute. reflexivity.
Defined.

(** X8. When a phase is complete, everybody gets through: in a state where
    [waiting] is zero (the last of [count] threads has just arrived, or
    nobody has arrived since), every thread still blocked in [wait] returns
    as soon as it evaluates its predicate; and a thread blocked in the
    phase that is still filling does not return, however often it is
    woken. *)
Theorem barrier_release k n evs σ log t g :
  1 ≤ k →
  Barrier.run evs (Barrier.init k n) = Some (σ, log) →
  Barrier.threads σ !! t = Some (Barrier.InWait g) →
  (Barrier.waiting (Barrier.bar σ) = 0 →
   Barrier.exec (Barrier.Wake t) σ
     = Some (Barrier.mkSystem (Barrier.bar σ)
               (<[t:=Barrier.Out]> (Barrier.threads σ)),
             [Barrier.Passed t])) ∧
  (g = Barrier.generation (Barrier.bar σ) →
   0 < Barrier.waiting (Barrier.bar σ) ∧
   Barrier.exec (Barrier.Wake t) σ = Some (σ, [])).
Proof.
  intros Hk R Ht.
  pose proof (barrier_inv_run k evs 0 0 _ _ _ R (barrier_inv_init k n Hk))
    as (_ & Hw & Hg & Hb & _ & _ & _).
  pose proof (barrier_blocked_in_lookup _ _ _ Ht) as Hpos.
  unfold Barrier.exec, Barrier.wait_gen. rewrite Ht. split.
  - intros H0. destruct (Z.eqb_spec g (Barrier.generation (Barrier.bar σ)));
      [subst g; lia|done].
  - intros ->. rewrite Z.eqb_refl. simpl. split; [lia|done].
Qed.

Lemma barrier_release_witness :
  (Barrier.waiting (Barrier.bar Barrier.three_arrive_state) = 0 →
   Barrier.exec (Barrier.Wake 1) Barrier.three_arrive_state
     = Some (Barrier.mkSystem (Barrier.bar Barrier.three_arrive_state)
               (<[1%nat:=Barrier.Out]> (Barrier.threads Barrier.three_arrive_state)),
             [Barrier.Passed 1])) ∧
  (0 = Barrier.generation (Barrier.bar Barrier.three_arrive_state) →
   0 < Barrier.waiting (Barrier.bar Barrier.three_arrive_state) ∧
   Barrier.exec (Barrier.Wake 1) Barrier.three_arrive_state
     = Some (Barrier.three_arrive_state, [])).
Proof.
  apply (barrier_release 3 3 Barrier.three_arrive Barrier.three_arrive_state
           Barrier.three_arrive_log 1 0).
  - lia.
  - vm_compute. reflexivity.
  - reflexivity.
Defined.

Lemma barrier_stuck_exec k a p ev σ σ' o :
  k ≤ 0 →
  Barrier.exec ev σ = Some (σ', o) →
  Barrier.inv_stuck k a p σ →
  Barrier.inv_stuck k (a + Barrier.arrivals o) (p + Barrier.passes o) σ'.
Proof.
  intros Hk H (Hc & Hw & Hg & Hall & Hp & Ha).
  destruct σ as [[c w g] ths]; simpl in *. subst c g p a.
  destruct ev; unfold Barrier.exec, Barrier.wait, Barrier.wait_gen in H;
    simpl in H.
  - destruct (ths !! t) as [[|g0]|] eqn:Ht; try discriminate H.
    destruct (w =? Barrier.INT_MAX); [discriminate H|].
    destruct (Z.eqb_spec (w + 1) k) as [Hlast|Hnot]; [lia|].
    simpl in H. injection H as <- <-. unfold Barrier.inv_stuck; simpl.
    rewrite (barrier_blocked_insert _ _ _ _ Ht).
    repeat split; try lia. apply Forall_insert; [done|]. by right.
  - destruct (ths !! t) as [[|g0]|] eqn:Ht; try discriminate H.
    destruct (Forall_lookup_1 _ _ _ _ Hall Ht) as [|Hg0]; [done|].
    injection Hg0 as ->. simpl in H. injection H as <- <-.
    unfold Barrier.inv_stuck; simpl. repeat split; try done; lia.
Qed.

Lemma barrier_stuck_run k evs : ∀ a p σ σ' log,
  k ≤ 0 →
  Barrier.run evs σ = Some (σ', log) →
  Barrier.inv_stuck k a p σ →
  Barrier.inv_stuck k (a + Barrier.arrivals log) (p + Barrier.passes log) σ'.
Proof.
  induction evs as [|ev evs IH]; simpl; intros a p σ σ' log Hk H J.
  - injection H as <- <-. simpl. by rewrite !Z.add_0_r.
  - destruct (Barrier.exec ev σ) as [[σ1 o1]|] eqn:E; [|discriminate].
    destruct (Barrier.run evs σ1) as [[σ2 o2]|] eqn:R; [|discriminate].
    injection H as <- <-.
    rewrite barrier_arrivals_app, barrier_passes_app, !Z.add_assoc.
    eauto using barrier_stuck_exec.
Qed.

(** X9. A barrier constructed with a count of zero or less never opens:
    [++waiting == count] is never true, so every call of [wait] blocks, no
    call ever returns, and [generation] stays 0. *)
Theorem barrier_nonpositive_count k n evs σ log :
  k ≤ 0 →
  Barrier.run evs (Barrier.init k n) = Some (σ, log) →
  Barrier.passes log = 0 ∧
  Barrier.generation (Barrier.bar σ) = 0 ∧
  Barrier.blocked (Barrier.threads σ) = Barrier.arrivals log.
Proof.
  intros Hk R.
  destruct (barrier_stuck_run k evs 0 0 _ _ _ Hk R)
    as (_ & _ & Hg & _ & Hp & Ha).
  { unfold Barrier.inv_stuck; simpl. rewrite barrier_blocked_replicate.
    repeat split; try lia. apply Forall_replicate. by left. }
  simpl in *. repeat split; lia.
Qed.

Lemma barrier_nonpositive_count_witness :
  Barrier.passes Barrier.two_at_zero_log = 0 ∧
  Barrier.generation (Barrier.bar Barrier.two_at_zero_state) = 0 ∧
  Barrier.blocked (Barrier.threads Barrier.two_at_zero_state)
    = Barrier.arrivals Barrier.two_at_zero_log.
Proof.
  apply (barrier_nonpositive_count 0 2 Barrier.two_at_zero).
  - lia.
  - vm_compute. reflexivity.
Defined.

(** ** [SimpleSemaphore] *)

Lemma holding_insert l i x y :
  l !! i = Some x →
  Semaphore.holding (<[i:=y]> l)
    = Semaphore.holding l
      - (match x with Semaphore.Holding => 1 | _ => 0 end)
      + (match y with Semaphore.Holding => 1 | _ => 0 end).
Proof.
  revert i. induction l as [|c l IH]; intros [|i] H; simpl in *; try discriminate.
  - injection H as ->. destruct x, y; lia.
  - rewrite (IH i H). destruct c; lia.
Qed.

Lemma holding_nonneg l : 0 ≤ Semaphore.holding l.
Proof. induction l as [|[] l IH]; simpl; lia. Qed.

Lemma holding_two l i j :
  i ≠ j → l !! i = Some Semaphore.Holding → l !! j = Some Semaphore.Holding →
  2 ≤ Semaphore.holding l.
Proof.
  revert i j. induction l as [|c l IH]; intros [|i] [|j] Hne Hi Hj;
    simpl in *; try discriminate; try done.
  - injection Hi as ->. clear IH Hne. revert j Hj.
    induction l as [|c l IH]; intros [|j] Hj; simpl in *; try discriminate.
    + injection Hj as ->. pose proof (holding_nonneg l). lia.
    + pose proof (IH j Hj). destruct c; lia.
  - injection Hj as ->. clear IH Hne. revert i Hi.
    induction l as [|c l IH]; intros [|i] Hi; simpl in *; try discriminate.
    + injection Hi as ->. pose proof (holding_nonneg l). lia.
    + pose proof (IH i Hi). destruct c; lia.
  - assert (i ≠ j) by congruence. pose proof (IH i j H Hi Hj).
    destruct c; lia.
Qed.

Lemma holding_replicate n : Semaphore.holding (replicate n Semaphore.Out) = 0.
Proof. induction n; simpl; auto. Qed.

Lemma semaphore_exec c ev σ σ' :
  Semaphore.exec ev σ = Some σ' →
  0 ≤ Semaphore.count (Semaphore.sem σ) ∧
  Semaphore.count (Semaphore.sem σ) + Semaphore.holding (Semaphore.threads σ) = c →
  0 ≤ Semaphore.count (Semaphore.sem σ') ∧
  Semaphore.count (Semaphore.sem σ') + Semaphore.holding (Semaphore.threads σ') = c.
Proof.
  intros H [H0 Hc]. destruct σ as [[k] ths]; simpl in *.
  destruct ev; unfold Semaphore.exec, Semaphore.acquire, Semaphore.release in H;
    simpl in H;
    destruct (ths !! t) as [[]|] eqn:Ht; try discriminate H.
  - destruct (Z.ltb_spec 0 k); injection H as <-; simpl;
      rewrite (holding_insert _ _ _ _ Ht); lia.
  - destruct (Z.ltb_spec 0 k); injection H as <-; simpl;
      rewrite ?(holding_insert _ _ _ _ Ht); lia.
  - destruct (k =? Semaphore.INT_MAX); [discriminate H|].
    injection H as <-; simpl. rewrite (holding_insert _ _ _ _ Ht). lia.
Qed.

Lemma semaphore_run c evs : ∀ σ σ',
  Semaphore.run evs σ = Some σ' →
  0 ≤ Semaphore.count (Semaphore.sem σ) ∧
  Semaphore.count (Semaphore.sem σ) + Semaphore.holding (Semaphore.threads σ) = c →
  0 ≤ Semaphore.count (Semaphore.sem σ') ∧
  Semaphore.count (Semaphore.sem σ') + Semaphore.holding (Semaphore.threads σ') = c.
Proof.
  induction evs as [|ev evs IH]; simpl; intros σ σ' H J.
  - by injection H as <-.
  - destruct (Semaphore.exec ev σ) as [σ1|] eqn:E; [|discriminate].
    eauto using semaphore_exec.
Qed.

(** X10. With workers that release only what they have acquired, a
    semaphore constructed with [c ≥ 0] keeps [count] non-negative and
    [count] plus the number of holders equal to [c]: never more than [c]
    threads are between [acquire] and [release].  With the
    [SimpleSemaphore(1)] of [SemaphoreTest], two threads are never there
    together. *)
Theorem semaphore_holders c n evs σ :
  0 ≤ c →
  Semaphore.run evs (Semaphore.init c n) = Some σ →
  0 ≤ Semaphore.count (Semaphore.sem σ) ∧
  Semaphore.count (Semaphore.sem σ) + Semaphore.holding (Semaphore.threads σ) = c ∧
  Semaphore.holding (Semaphore.threads σ) ≤ c ∧
  (c ≤ 1 →
   ∀ i j, Semaphore.threads σ !! i = Some Semaphore.Holding →
          Semaphore.threads σ !! j = Some Semaphore.Holding → i = j).
Proof.
  intros Hc R.
  destruct (semaphore_run c evs _ _ R) as [H0 H1].
  { simpl. rewrite holding_replicate. lia. }
  repeat split; try lia.
  intros H1' i j Hi Hj. destruct (decide (i = j)) as [|Hne]; [done|].
  pose proof (holding_two _ _ _ Hne Hi Hj). lia.
Qed.

Lemma semaphore_holders_witness :
  0 ≤ Semaphore.count (Semaphore.sem Semaphore.contend_state) ∧
  Semaphore.count (Semaphore.sem Semaphore.contend_state)
    + Semaphore.holding (Semaphore.threads Semaphore.contend_state) = 1 ∧
  Semaphore.holding (Semaphore.threads Semaphore.contend_state) ≤ 1 ∧
  (1 ≤ 1 →
   ∀ i j, Semaphore.threads Semaphore.contend_state !! i = Some Semaphore.Holding →
          Semaphore.threads Semaphore.contend_state !! j = Some Semaphore.Holding →
          i = j).
Proof.
  apply (semaphore_holders 1 3 Semaphore.contend).
  - lia.
  - vm_compute. reflexivity.
Defined.

Lemma semaphore_closed_exec c ev σ σ' :
  c ≤ 0 →
  Semaphore.exec ev σ = Some σ' →
  Semaphore.count (Semaphore.sem σ) = c ∧
  Semaphore.holding (Semaphore.threads σ) = 0 →
  Semaphore.count (Semaphore.sem σ') = c ∧
  Semaphore.holding (Semaphore.threads σ') = 0.
Proof.
  intros Hc H [Hk Hh]. destruct σ as [[k] ths]; simpl in *. subst k.
  destruct ev; unfold Semaphore.exec, Semaphore.acquire, Semaphore.release in H;
    simpl in H;
    destruct (ths !! t) as [[]|] eqn:Ht; try discriminate H.
  - destruct (Z.ltb_spec 0 c); [lia|]. injection H as <-; simpl.
    rewrite (holding_insert _ _ _ _ Ht). lia.
  - destruct (Z.ltb_spec 0 c); [lia|]. by injection H as <-.
  - pose proof (holding_insert ths t _ Semaphore.Out Ht) as Hi. simpl in Hi.
    pose proof (holding_nonneg (<[t:=Semaphore.Out]> ths)). lia.
Qed.

Lemma semaphore_closed_run c evs : ∀ σ σ',
  c ≤ 0 →
  Semaphore.run evs σ = Some σ' →
  Semaphore.count (Semaphore.sem σ) = c ∧
  Semaphore.holding (Semaphore.threads σ) = 0 →
  Semaphore.count (Semaphore.sem σ') = c ∧
  Semaphore.holding (Semaphore.threads σ') = 0.
Proof.
  induction evs as [|ev evs IH]; simpl; intros σ σ' Hc H J.
  - by injection H as <-.
  - destruct (Semaphore.exec ev σ) as [σ1|] eqn:E; [|discriminate].
    eauto using semaphore_closed_exec.
Qed.

(** X11. A semaphore constructed with a count of zero or less admits
    nobody as long as only holders release: every [acquire] blocks, and
    [count] stays as constructed. *)
Theorem semaphore_nonpositive_count c n evs σ t :
  c ≤ 0 →
  Semaphore.run evs (Semaphore.init c n) = Some σ →
  Semaphore.count (Semaphore.sem σ) = c ∧
  Semaphore.threads σ !! t ≠ Some Semaphore.Holding.
Proof.
  intros Hc R.
  destruct (semaphore_closed_run c evs _ _ Hc R) as [Hk Hh].
  { simpl. by rewrite holding_replicate. }
  split; [done|]. intros Ht.
  pose proof (holding_insert _ _ _ Semaphore.Out Ht) as Hi. simpl in Hi.
  pose proof (holding_nonneg (<[t:=Semaphore.Out]> (Semaphore.threads σ))). lia.
Qed.

Lemma semaphore_nonpositive_count_witness :
  Semaphore.count (Semaphore.sem Semaphore.starve_state) = 0 ∧
  Semaphore.threads Semaphore.starve_state !! 0%nat ≠ Some Semaphore.Holding.
Proof.
  apply (semaphore_nonpositive_count 0 2 Semaphore.starve).
  - lia.
  - vm_compute. reflexivity.
Defined.

(** ** Locks of the tests *)

Lemma occupancy_insert {A} (f : A → bool) l i x y :
  l !! i = Some x →
  occupancy f (<[i:=y]> l)
    = occupancy f l - (if f x then 1 else 0) + (if f y then 1 else 0).
Proof.
  revert i. induction l as [|c l IH]; intros [|i] H; simpl in *; try discriminate.
  - injection H as ->. lia.
  - rewrite (IH i H). lia.
Qed.

Lemma occupancy_nonneg {A} (f : A → bool) l : 0 ≤ occupancy f l.
Proof. induction l as [|c l IH]; simpl; [lia|]. destruct (f c); lia. Qed.

Lemma occupancy_lookup {A} (f : A → bool) l i x :
  l !! i = Some x → f x = true → 1 ≤ occupancy f l.
Proof.
  revert i. induction l as [|c l IH]; intros [|i] H Hx; simpl in *; try discriminate.
  - injection H as ->. rewrite Hx. pose proof (occupancy_nonneg f l). lia.
  - pose proof (IH i H Hx). destruct (f c); lia.
Qed.

Lemma occupancy_two {A} (f : A → bool) l i j x y :
  i ≠ j → l !! i = Some x → l !! j = Some y → f x = true → f y = true →
  2 ≤ occupancy f l.
Proof.
  revert i j. induction l as [|c l IH]; intros [|i] [|j] Hne Hi Hj Hx Hy;
    simpl in *; try discriminate; try done.
  - injection Hi as ->. rewrite Hx. pose proof (occupancy_lookup f l j y Hj Hy). lia.
  - injection Hj as ->. rewrite Hy. pose proof (occupancy_lookup f l i x Hi Hx). lia.
  - assert (i ≠ j) by congruence. pose proof (IH i j H Hi Hj Hx Hy).
    destruct (f c); lia.
Qed.

Lemma occupancy_replicate {A} (f : A → bool) n x :
  f x = false → occupancy f (replicate n x) = 0.
Proof. intros H. induction n as [|n IH]; simpl; [done|]. by rewrite H, IH. Qed.

Lemma monitor_exec ev σ σ' :
  Monitor.exec ev σ = Some σ' →
  occupancy Monitor.is_inside (Monitor.threads σ)
    = (if Monitor.available (Monitor.mon σ) then 0 else 1) →
  occupancy Monitor.is_inside (Monitor.threads σ')
    = (if Monitor.available (Monitor.mon σ') then 0 else 1).
Proof.
  intros H J. destruct σ as [[a] ths]; simpl in *.
  destruct ev; unfold Monitor.exec, Monitor.Enter, Monitor.Exit in H; simpl in H;
    destruct (ths !! t) as [[]|] eqn:Ht; try discriminate H;
    destruct a; simpl in H; injection H as <-; simpl;
    rewrite ?(occupancy_insert Monitor.is_inside _ _ _ _ Ht); simpl; try lia.
  pose proof (occupancy_lookup Monitor.is_inside _ _ _ Ht eq_refl). lia.
Qed.

Lemma monitor_run evs : ∀ σ σ',
  Monitor.run evs σ = Some σ' →
  occupancy Monitor.is_inside (Monitor.threads σ)
    = (if Monitor.available (Monitor.mon σ) then 0 else 1) →
  occupancy Monitor.is_inside (Monitor.threads σ')
    = (if Monitor.available (Monitor.mon σ') then 0 else 1).
Proof.
  induction evs as [|ev evs IH]; simpl; intros σ σ' H J.
  - by injection H as <-.
  - destruct (Monitor.exec ev σ) as [σ1|] eqn:E; [|discriminate].
    eauto using monitor_exec.
Qed.

(** X12. [Enter] and [Exit] of [MonitorTest] make a lock: with workers that
    call [Exit] only after [Enter], two threads are never between [Enter]
    and [Exit] together, and [available] is true exactly when no thread is
    there. *)
Theorem monitor_exclusion n evs σ :
  Monitor.run evs (Monitor.init n) = Some σ →
  (∀ i j, Monitor.threads σ !! i = Some Monitor.Inside →
          Monitor.threads σ !! j = Some Monitor.Inside → i = j) ∧
  (Monitor.available (Monitor.mon σ) = true ↔
   ∀ i, Monitor.threads σ !! i ≠ Some Monitor.Inside).
Proof.
  intros R.
  pose proof (monitor_run evs _ _ R) as J. simpl in J.
  rewrite occupancy_replicate in J by done. specialize (J eq_refl).
  split.
  - intros i j Hi Hj. destruct (decide (i = j)) as [|Hne]; [done|].
    pose proof (occupancy_two Monitor.is_inside _ _ _ _ _ Hne Hi Hj eq_refl eq_refl).
    destruct (Monitor.available (Monitor.mon σ)); lia.
  - split.
    + intros Ha i Hi. rewrite Ha in J.
      pose proof (occupancy_lookup Monitor.is_inside _ _ _ Hi eq_refl). lia.
    + intros Hno. destruct (Monitor.available (Monitor.mon σ)); [done|].
      exfalso. clear R. induction (Monitor.threads σ) as [|c l IH].
      * simpl in J. lia.
      * destruct c; simpl in J.
        -- apply IH; [lia|]. intros i. apply (Hno (S i)).
        -- apply IH; [lia|]. intros i. apply (Hno (S i)).
        -- by apply (Hno 0%nat).
Qed.

Lemma monitor_exclusion_witness :
  (∀ i j, Monitor.threads Monitor.contend_state !! i = Some Monitor.Inside →
          Monitor.threads Monitor.contend_state !! j = Some Monitor.Inside →
          i = j) ∧
  (Monitor.available (Monitor.mon Monitor.contend_state) = true ↔
   ∀ i, Monitor.threads Monitor.contend_state !! i ≠ Some Monitor.Inside).
Proof.
  apply (monitor_exclusion 3 Monitor.contend). vm_compute. reflexivity.
Defined.

Lemma spinlock_exec ev σ σ' :
  SpinLock.exec ev σ = Some σ' →
  occupancy SpinLock.is_inside (SpinLock.threads σ)
    = (if SpinLock.lock (SpinLock.spin σ) then 1 else 0) →
  occupancy SpinLock.is_inside (SpinLock.threads σ')
    = (if SpinLock.lock (SpinLock.spin σ') then 1 else 0).
Proof.
  intros H J. destruct σ as [[a] ths]; simpl in *.
  destruct ev; unfold SpinLock.exec, SpinLock.test_and_set, SpinLock.Release in H;
    simpl in H;
    destruct (ths !! t) as [[]|] eqn:Ht; try discriminate H;
    destruct a; simpl in H; injection H as <-; simpl;
    rewrite ?(occupancy_insert SpinLock.is_inside _ _ _ _ Ht); simpl; try lia.
  pose proof (occupancy_lookup SpinLock.is_inside _ _ _ Ht eq_refl). lia.
Qed.

Lemma spinlock_run evs : ∀ σ σ',
  SpinLock.run evs σ = Some σ' →
  occupancy SpinLock.is_inside (SpinLock.threads σ)
    = (if SpinLock.lock (SpinLock.spin σ) then 1 else 0) →
  occupancy SpinLock.is_inside (SpinLock.threads σ')
    = (if SpinLock.lock (SpinLock.spin σ') then 1 else 0).
Proof.
  induction evs as [|ev evs IH]; simpl; intros σ σ' H J.
  - by injection H as <-.
  - destruct (SpinLock.exec ev σ) as [σ1|] eqn:E; [|discriminate].
    eauto using spinlock_exec.
Qed.

(** X13. [Acquire] and [Release] of [SpinLockTest] make a lock: with
    workers that call [Release] only after [Acquire], two threads are never
    between [Acquire] and [Release] together, and a thread that is there
    finds the flag set. *)
Theorem spinlock_exclusion n evs σ :
  SpinLock.run evs (SpinLock.init n) = Some σ →
  (∀ i j, SpinLock.threads σ !! i = Some SpinLock.Inside →
          SpinLock.threads σ !! j = Some SpinLock.Inside → i = j) ∧
  (∀ i, SpinLock.threads σ !! i = Some SpinLock.Inside →
        SpinLock.lock (SpinLock.spin σ) = true).
Proof.
  intros R.
  pose proof (spinlock_run evs _ _ R) as J. simpl in J.
  rewrite occupancy_replicate in J by done. specialize (J eq_refl).
  split.
  - intros i j Hi Hj. destruct (decide (i = j)) as [|Hne]; [done|].
    pose proof (occupancy_two SpinLock.is_inside _ _ _ _ _ Hne Hi Hj eq_refl eq_refl).
    destruct (SpinLock.lock (SpinLock.spin σ)); lia.
  - intros i Hi. pose proof (occupancy_lookup SpinLock.is_inside _ _ _ Hi eq_refl).
    destruct (SpinLock.lock (SpinLock.spin σ)); [done|lia].
Qed.

Lemma spinlock_exclusion_witness :
  (∀ i j, SpinLock.threads SpinLock.contend_state !! i = Some SpinLock.Inside →
          SpinLock.threads SpinLock.contend_state !! j = Some SpinLock.Inside →
          i = j) ∧
  (∀ i, SpinLock.threads SpinLock.contend_state !! i = Some SpinLock.Inside →
        SpinLock.lock (SpinLock.spin SpinLock.contend_state) = true).
Proof.
  apply (spinlock_exclusion 3 SpinLock.contend). vm_compute. reflexivity.
Defined.

Lemma spinwait_exec ev σ σ' :
  SpinWait.exec ev σ = Some σ' →
  occupancy SpinWait.is_inside (SpinWait.threads σ)
    = (if SpinWait.locked (SpinWait.spin σ) then 1 else 0) ∧
  Forall SpinWait.within_round (SpinWait.threads σ) →
  occupancy SpinWait.is_inside (SpinWait.threads σ')
    = (if SpinWait.locked (SpinWait.spin σ') then 1 else 0) ∧
  Forall SpinWait.within_round (SpinWait.threads σ').
Proof.
  intros H [J F]. destruct σ as [[a] ths]; simpl in *.
  destruct ev as [t fails|t|t];
    unfold SpinWait.exec, SpinWait.attempt, SpinWait.compare_exchange_weak,
      SpinWait.Release in H; simpl in H;
    destruct (ths !! t) as [[|i|]|] eqn:Ht; try discriminate H.
  - destruct a, fails; simpl in H; injection H as <-; simpl;
      rewrite ?(occupancy_insert SpinWait.is_inside _ _ _ _ Ht); simpl;
      (split; [lia|apply Forall_insert; [done|simpl; lia]]).
  - destruct (Nat.ltb_spec i 1000); [|discriminate H].
    destruct a, fails; simpl in H; injection H as <-; simpl;
      rewrite ?(occupancy_insert SpinWait.is_inside _ _ _ _ Ht); simpl;
      (split; [lia|apply Forall_insert; [done|simpl; lia]]).
  - destruct (Nat.ltb_spec i 1000); [discriminate H|].
    injection H as <-; simpl. rewrite (occupancy_insert SpinWait.is_inside _ _ _ _ Ht); simpl.
    split; [lia|apply Forall_insert; [done|simpl; lia]].
  - injection H as <-; simpl. rewrite (occupancy_insert SpinWait.is_inside _ _ _ _ Ht); simpl.
    pose proof (occupancy_lookup SpinWait.is_inside _ _ _ Ht eq_refl).
    split; [destruct a; lia|by apply Forall_insert].
Qed.

Lemma spinwait_run evs : ∀ σ σ',
  SpinWait.run evs σ = Some σ' →
  occupancy SpinWait.is_inside (SpinWait.threads σ)
    = (if SpinWait.locked (SpinWait.spin σ) then 1 else 0) ∧
  Forall SpinWait.within_round (SpinWait.threads σ) →
  occupancy SpinWait.is_inside (SpinWait.threads σ')
    = (if SpinWait.locked (SpinWait.spin σ') then 1 else 0) ∧
  Forall SpinWait.within_round (SpinWait.threads σ').
Proof.
  induction evs as [|ev evs IH]; simpl; intros σ σ' H J.
  - by injection H as <-.
  - destruct (SpinWait.exec ev σ) as [σ1|] eqn:E; [|discriminate].
    eauto using spinwait_exec.
Qed.

(** X14. [Acquire] and [Release] of [SpinWaitTest] make a lock, whatever
    attempts of [compare_exchange_weak] fail: with workers that call
    [Release] only after [Acquire], two threads are never between [Acquire]
    and [Release] together, a thread that is there finds [locked] true, and
    a thread in [Acquire] has made at most 1000 attempts since it entered
    or last yielded. *)
Theorem spinwait_exclusion n evs σ :
  SpinWait.run evs (SpinWait.init n) = Some σ →
  (∀ i j, SpinWait.threads σ !! i = Some SpinWait.Inside →
          SpinWait.threads σ !! j = Some SpinWait.Inside → i = j) ∧
  (∀ i, SpinWait.threads σ !! i = Some SpinWait.Inside →
        SpinWait.locked (SpinWait.spin σ) = true) ∧
  (∀ t k, SpinWait.threads σ !! t = Some (SpinWait.Spinning k) →
          (k ≤ 1000)%nat).
Proof.
  intros R.
  pose proof (spinwait_run evs _ _ R) as J. simpl in J.
  rewrite occupancy_replicate in J by done.
  destruct J as [J F]; [split; [done|by apply Forall_replicate]|].
  split; [|split].
  - intros i j Hi Hj. destruct (decide (i = j)) as [|Hne]; [done|].
    pose proof (occupancy_two SpinWait.is_inside _ _ _ _ _ Hne Hi Hj eq_refl eq_refl).
    destruct (SpinWait.locked (SpinWait.spin σ)); lia.
  - intros i Hi. pose proof (occupancy_lookup SpinWait.is_inside _ _ _ Hi eq_refl).
    destruct (SpinWait.locked (SpinWait.spin σ)); [done|lia].
  - intros t k Ht. apply (Forall_lookup_1 _ _ _ _ F Ht).
Qed.

Lemma spinwait_exclusion_witness :
  (∀ i j, SpinWait.threads SpinWait.contend_state !! i = Some SpinWait.Inside →
          SpinWait.threads SpinWait.contend_state !! j = Some SpinWait.Inside →
          i = j) ∧
  (∀ i, SpinWait.threads SpinWait.contend_state !! i = Some SpinWait.Inside →
        SpinWait.locked (SpinWait.spin SpinWait.contend_state) = true) ∧
  (∀ t k, SpinWait.threads SpinWait.contend_state !! t
            = Some (SpinWait.Spinning k) → (k ≤ 1000)%nat).
Proof.
  apply (spinwait_exclusion 3 SpinWait.contend). vm_compute. reflexivity.
Defined.

(** ** [BarrierTest] *)

Lemma occupancy_le_length {A} (f : A → bool) l :
  occupancy f l ≤ Z.of_nat (length l).
Proof. induction l as [|c l IH]; simpl; [lia|]. destruct (f c); lia. Qed.

Lemma occupancy_full {A} (f : A → bool) l :
  occupancy f l = Z.of_nat (length l) → Forall (λ x, f x = true) l.
Proof.
  induction l as [|c l IH]; simpl; intros H; [constructor|].
  pose proof (occupancy_le_length f l).
  destruct (f c) eqn:E; [|lia]. constructor; [done|]. apply IH. lia.
Qed.

Lemma occupancy_none {A} (f : A → bool) l :
  Forall (λ x, f x = false) l → occupancy f l = 0.
Proof. induction 1 as [|c l Hc _ IH]; simpl; [done|]. by rewrite Hc, IH. Qed.

Lemma barrier_test_counter (ths : list BarrierTest.pc) t c c' cnt :
  ths !! t = Some c →
  BarrierTest.iter c' = BarrierTest.iter c →
  (∀ c0, ths !! 0%nat = Some c0 → cnt = Z.of_nat (BarrierTest.iter c0)) →
  ∀ c0, <[t:=c']> ths !! 0%nat = Some c0 → cnt = Z.of_nat (BarrierTest.iter c0).
Proof.
  intros Ht Hi Hcnt c0 Hc. destruct (decide (t = 0%nat)) as [->|Hne].
  - rewrite list_lookup_insert_eq in Hc by (by eapply lookup_lt_Some).
    injection Hc as <-. rewrite Hi. by apply Hcnt.
  - rewrite list_lookup_insert_ne in Hc by done. by apply Hcnt.
Qed.

Lemma barrier_test_exec n gen0 ops ev σ σ' :
  ops ≤ BarrierTest.INT_MAX →
  BarrierTest.exec ops ev σ = Some σ' →
  BarrierTest.inv n gen0 ops σ → BarrierTest.inv n gen0 ops σ'.
Proof.
  intros Hops H [Hc Hlen Hw Hroom Hstep Hcnt].
  destruct σ as [[k w g] ths cnt]; simpl in *. subst k.
  destruct ev as [t|t|t]; unfold BarrierTest.exec in H; simpl in H;
    destruct (ths !! t) as [[i|gen i|i]|] eqn:Ht; try discriminate H.
  - (* the call of [wait] *)
    destruct (Z.ltb_spec (Z.of_nat i) ops) as [Hi|]; [|discriminate H].
    pose proof (Forall_lookup_1 _ _ _ _ Hstep Ht) as Hti. simpl in Hti.
    unfold Barrier.wait in H; simpl in H.
    destruct (w =? Barrier.INT_MAX); [discriminate H|].
    destruct (Z.eqb_spec (w + 1) (Z.of_nat n)) as [Hlast|Hnot].
    + destruct (g =? Barrier.INT_MAX); [discriminate H|].
      injection H as <-.
      assert (Hall : Forall (λ c, BarrierTest.in_phase g c = true)
                       (<[t:=BarrierTest.InWait g 0]> ths)).
      { apply occupancy_full.
        rewrite (occupancy_insert _ _ _ _ _ Ht), length_insert. simpl.
        rewrite Z.eqb_refl. lia. }
      assert (Hnew : Forall (BarrierTest.in_step gen0 ops (g + 1 - gen0))
                       (<[t:=BarrierTest.Passed i]> ths)).
      { apply Forall_lookup_2. intros u c Hu.
        destruct (decide (u = t)) as [->|Hne].
        - rewrite list_lookup_insert_eq in Hu by (by eapply lookup_lt_Some).
          injection Hu as <-. simpl. lia.
        - rewrite list_lookup_insert_ne in Hu by done.
          pose proof (Forall_lookup_1 _ _ _ _ Hstep Hu) as Hs.
          assert (Hp : BarrierTest.in_phase g c = true).
          { eapply (Forall_lookup_1 _ _ u _ Hall).
            by rewrite list_lookup_insert_ne. }
          destruct c as [j|gen j|j]; try discriminate Hp. simpl in *.
          apply Z.eqb_eq in Hp. lia. }
      split; simpl.
      * done.
      * by rewrite length_insert.
      * symmetry. apply occupancy_none.
        apply Forall_lookup_2. intros u c Hu.
        destruct (decide (u = t)) as [->|Hne].
        -- rewrite list_lookup_insert_eq in Hu by (by eapply lookup_lt_Some).
           by injection Hu as <-.
        -- rewrite list_lookup_insert_ne in Hu by done.
           assert (Hp : BarrierTest.in_phase g c = true).
           { eapply (Forall_lookup_1 _ _ u _ Hall).
             by rewrite list_lookup_insert_ne. }
           destruct c as [j|gen j|j]; try discriminate Hp. simpl in *.
           apply Z.eqb_eq in Hp. apply Z.eqb_neq. lia.
      * pose proof (occupancy_nonneg (BarrierTest.in_phase g) ths). lia.
      * done.
      * by apply (barrier_test_counter _ _ _ _ _ Ht).
    + unfold Barrier.wait_gen in H. simpl in H. rewrite Z.eqb_refl in H.
      simpl in H. injection H as <-.
      split; simpl.
      * done.
      * by rewrite length_insert.
      * rewrite (occupancy_insert _ _ _ _ _ Ht). simpl. rewrite Z.eqb_refl. lia.
      * lia.
      * apply Forall_insert; [done|]. simpl. lia.
      * by apply (barrier_test_counter _ _ _ _ _ Ht).
  - (* a wake-up *)
    pose proof (Forall_lookup_1 _ _ _ _ Hstep Ht) as Hti. simpl in Hti.
    unfold Barrier.wait_gen in H. simpl in H.
    destruct (Z.eqb_spec gen g) as [Heq|Hne]; simpl in H; injection H as <-.
    + by split.
    + split; simpl.
      * done.
      * by rewrite length_insert.
      * rewrite (occupancy_insert _ _ _ _ _ Ht). simpl.
        destruct (Z.eqb_spec gen g); [done|lia].
      * done.
      * apply Forall_insert; [done|]. simpl. lia.
      * by apply (barrier_test_counter _ _ _ _ _ Ht).
  - (* the block under [mtx] *)
    pose proof (Forall_lookup_1 _ _ _ _ Hstep Ht) as Hti. simpl in Hti.
    injection H as <-.
    split; simpl.
    + done.
    + by rewrite length_insert.
    + rewrite (occupancy_insert _ _ _ _ _ Ht). simpl. lia.
    + done.
    + apply Forall_insert; [done|]. simpl. lia.
    + intros c Hc. destruct (decide (t = 0%nat)) as [->|Hne0].
      * rewrite list_lookup_insert_eq in Hc by (by eapply lookup_lt_Some).
        injection Hc as <-. rewrite (Hcnt _ Ht). simpl.
        unfold BarrierTest.incr, BarrierTest.INT_MAX in *.
        destruct (Z.eqb_spec (Z.of_nat i) 2147483647); lia.
      * rewrite list_lookup_insert_ne in Hc by done. by apply Hcnt.
Qed.

Lemma barrier_test_run n gen0 ops evs : ∀ σ σ',
  ops ≤ BarrierTest.INT_MAX →
  BarrierTest.run ops evs σ = Some σ' →
  BarrierTest.inv n gen0 ops σ → BarrierTest.inv n gen0 ops σ'.
Proof.
  induction evs as [|ev evs IH]; simpl; intros σ σ' Hops H J.
  - by injection H as <-.
  - destruct (BarrierTest.exec ops ev σ) as [σ1|] eqn:E; [|discriminate].
    eauto using barrier_test_exec.
Qed.

Lemma barrier_test_init n gen0 ops :
  (1 ≤ n)%nat → BarrierTest.inv n gen0 ops (BarrierTest.init n gen0).
Proof.
  intros Hn. split; simpl.
  - done.
  - by rewrite length_replicate.
  - by rewrite occupancy_replicate.
  - lia.
  - apply Forall_replicate. simpl. lia.
  - intros c Hc. apply lookup_replicate in Hc as [-> _]. done.
Qed.

(** X24. The workers of [BarrierTest] go through their loops in step:
    with a barrier constructed for as many threads as there are workers,
    the loop variables of two workers never differ by more than one, and
    [shared_counter], which only worker 0 increments, is the loop variable
    of worker 0.  When all workers have left their loops, [shared_counter]
    is [operations_per_thread], the barrier has been through that many
    phases more, and nobody is counted as waiting. *)
Theorem barrier_test_lockstep n gen0 ops evs σ :
  (1 ≤ n)%nat →
  ops ≤ BarrierTest.INT_MAX →
  BarrierTest.run ops evs (BarrierTest.init n gen0) = Some σ →
  (∀ t u c d, BarrierTest.threads σ !! t = Some c →
              BarrierTest.threads σ !! u = Some d →
              (BarrierTest.iter c ≤ S (BarrierTest.iter d))%nat) ∧
  (∀ c, BarrierTest.threads σ !! 0%nat = Some c →
        BarrierTest.shared_counter σ = Z.of_nat (BarrierTest.iter c)) ∧
  (0 ≤ ops →
   Forall (λ c, c = BarrierTest.AtWait (Z.to_nat ops)) (BarrierTest.threads σ) →
   BarrierTest.shared_counter σ = ops ∧
   Barrier.generation (BarrierTest.bar σ) = gen0 + ops ∧
   Barrier.waiting (BarrierTest.bar σ) = 0).
Proof.
  intros Hn Hops R.
  destruct (barrier_test_run n gen0 ops evs _ _ Hops R
              (barrier_test_init n gen0 ops Hn))
    as [Hc Hlen Hw Hroom Hstep Hcnt].
  split; [|split; [done|]].
  - intros t u c d Ht Hu.
    pose proof (Forall_lookup_1 _ _ _ _ Hstep Ht) as H1.
    pose proof (Forall_lookup_1 _ _ _ _ Hstep Hu) as H2.
    destruct c, d; simpl in *; lia.
  - intros H0 Hall.
    destruct (lookup_lt_is_Some_2 (BarrierTest.threads σ) 0) as [c Hc0]; [lia|].
    pose proof (Forall_lookup_1 _ _ _ _ Hall Hc0) as ->.
    pose proof (Forall_lookup_1 _ _ _ _ Hstep Hc0) as Hs. simpl in Hs.
    rewrite (Hcnt _ Hc0). simpl. split; [lia|]. split; [lia|].
    rewrite Hw. apply occupancy_none.
    eapply Forall_impl; [exact Hall|]. by intros c ->.
Qed.

Lemma barrier_test_lockstep_witness :
  (∀ t u c d, BarrierTest.threads BarrierTest.two_by_two_state !! t = Some c →
              BarrierTest.threads BarrierTest.two_by_two_state !! u = Some d →
              (BarrierTest.iter c ≤ S (BarrierTest.iter d))%nat) ∧
  (∀ c, BarrierTest.threads BarrierTest.two_by_two_state !! 0%nat = Some c →
        BarrierTest.shared_counter BarrierTest.two_by_two_state
          = Z.of_nat (BarrierTest.iter c)) ∧
  (0 ≤ 2 →
   Forall (λ c, c = BarrierTest.AtWait (Z.to_nat 2))
     (BarrierTest.threads BarrierTest.two_by_two_state) →
   BarrierTest.shared_counter BarrierTest.two_by_two_state = 2 ∧
   Barrier.generation (BarrierTest.bar BarrierTest.two_by_two_state) = 5 + 2 ∧
   Barrier.waiting (BarrierTest.bar BarrierTest.two_by_two_state) = 0).
Proof.
  apply (barrier_test_lockstep 2 5 2 BarrierTest.two_by_two).
  - lia.
  - vm_compute. discriminate.
  - vm_compute. reflexivity.
Defined.

(** ** [BenchmarkRunner] *)

Lemma best_from_minimum results iterations : ∀ b0 b,
  Benchmark.best_from results iterations b0 = Some b →
  b ≤ b0 ∧
  (∀ name times, (name, times) ∈ results →
     ∃ avg, Benchmark.average times iterations = Some avg ∧ b ≤ avg) ∧
  (b = b0 ∨ ∃ name times, (name, times) ∈ results ∧
                          Benchmark.average times iterations = Some b).
Proof.
  induction results as [|[name0 times0] results IH]; simpl; intros b0 b H.
  - injection H as <-. split; [lia|]. split; [|by left].
    by intros name times ?%elem_of_nil.
  - destruct (Benchmark.average times0 iterations) as [avg|] eqn:Ha;
      [|discriminate].
    destruct (IH _ _ H) as (Hle & Hall & Hex).
    destruct (Z.ltb_spec avg b0).
    + split; [lia|]. split.
      * intros name times [Heq|Hin]%elem_of_cons; [|by apply (Hall name times)].
        injection Heq as -> ->. exists avg. split; [done|lia].
      * right. destruct Hex as [->|(name & times & Hin & Hb)].
        -- exists name0, times0. split; [apply list_elem_of_here|done].
        -- exists name, times. split; [by apply list_elem_of_further|done].
    + split; [lia|]. split.
      * intros name times [Heq|Hin]%elem_of_cons; [|by apply (Hall name times)].
        injection Heq as -> ->. exists avg. split; [done|lia].
      * destruct Hex as [->|(name & times & Hin & Hb)]; [by left|].
        right. exists name, times. split; [by apply list_elem_of_further|done].
Qed.

Lemma best_from_undefined results iterations : ∀ b0,
  Benchmark.best_from results iterations b0 = None ↔
  ∃ name times, (name, times) ∈ results ∧
                Benchmark.average times iterations = None.
Proof.
  induction results as [|[name0 times0] results IH]; simpl; intros b0.
  - split; [discriminate|]. by intros (name & times & ?%elem_of_nil & _).
  - destruct (Benchmark.average times0 iterations) as [avg|] eqn:Ha.
    + rewrite IH. split.
      * intros (name & times & Hin & Hn). exists name, times.
        split; [by apply list_elem_of_further|done].
      * intros (name & times & [Heq|Hin]%elem_of_cons & Hn).
        -- injection Heq as -> ->. congruence.
        -- by exists name, times.
    + split; [|done]. intros _. exists name0, times0.
      split; [apply list_elem_of_here|done].
Qed.

(** X23. The first loop of [PrintComparisonTable] finds the smallest
    average: when every average is defined, [best_time] is at most the
    average of every test, and it is the average of one of the tests unless
    it is still [LLONG_MAX]; so no speed factor of the table has a
    numerator below its denominator.  The loop is undefined exactly when
    the average of some test is, as for [iterations == 0]. *)
Theorem best_time_minimum results iterations :
  (∀ b, Benchmark.best_time results iterations = Some b →
     (∀ name times, (name, times) ∈ results →
        ∃ avg, Benchmark.average times iterations = Some avg ∧ b ≤ avg) ∧
     (b = Benchmark.LLONG_MAX ∨
      ∃ name times, (name, times) ∈ results ∧
                    Benchmark.average times iterations = Some b)) ∧
  (Benchmark.best_time results iterations = None ↔
   ∃ name times, (name, times) ∈ results ∧
                 Benchmark.average times iterations = None) ∧
  (iterations = 0 → results ≠ [] →
   Benchmark.best_time results iterations = None).
Proof.
  split; [|split].
  - intros b H. by destruct (best_from_minimum _ _ _ _ H) as (_ & ? & ?).
  - apply best_from_undefined.
  - intros -> Hne. apply best_from_undefined.
    destruct results as [|[name times] results]; [done|].
    exists name, times. split; [apply list_elem_of_here|].
    unfold Benchmark.average. by destruct (Benchmark.sum_from times 0).
Qed.

Lemma best_time_minimum_witness :
  (∀ name times, (name, times) ∈ Benchmark.measured →
     ∃ avg, Benchmark.average times 3 = Some avg ∧ 100 ≤ avg) ∧
  (100 = Benchmark.LLONG_MAX ∨
   ∃ name times, (name, times) ∈ Benchmark.measured ∧
                 Benchmark.average times 3 = Some 100).
Proof.
  apply (proj1 (best_time_minimum Benchmark.measured 3) 100).
  vm_compute. reflexivity.
Defined.

(** ** The film search *)

Lemma hasDirector_from_elem ds target :
  Films.hasDirector_from ds target = true ↔ target ∈ ds.
Proof.
  induction ds as [|d ds IH]; simpl.
  - split; [discriminate|]. by intros ?%elem_of_nil.
  - destruct (String.eqb_spec d target) as [->|Hne].
    + split; [intros _; apply list_elem_of_here|done].
    + rewrite IH. split; [apply list_elem_of_further|].
      intros [?|?]%elem_of_cons; [congruence|done].
Qed.

Lemma processWithoutThreads_from_filter films target result :
  Films.processWithoutThreads_from films target result
    = result ++ filter (λ film, target ∈ Films.directors film) films.
Proof.
  revert result. induction films as [|film films IH]; intros result; simpl.
  - by rewrite app_nil_r.
  - rewrite IH. unfold Films.hasDirector.
    destruct (Films.hasDirector_from (Films.directors film) target) eqn:E.
    + apply hasDirector_from_elem in E.
      rewrite filter_cons_True by done. by rewrite <- app_assoc.
    + rewrite filter_cons_False; [done|].
      intros H%hasDirector_from_elem. congruence.
Qed.

(** X15. [processWithoutThreads] returns the films that have the target
    among their directors, each once and in the order of the input;
    [hasDirector] decides that membership. *)
Theorem processWithoutThreads_filter films target :
  Films.processWithoutThreads films target
    = filter (λ film, target ∈ Films.directors film) films ∧
  ∀ film, Films.hasDirector film target = true ↔ target ∈ Films.directors film.
Proof.
  split.
  - unfold Films.processWithoutThreads.
    by rewrite processWithoutThreads_from_filter.
  - intros film. apply hasDirector_from_elem.
Qed.

Lemma processChunk_from_slice n films target : ∀ i e localResult,
  (length films - i ≤ n)%nat →
  Films.processChunk_from n films i e target localResult
    = localResult ++ filter (λ film, target ∈ Films.directors film)
                            (Films.slice films i e).
Proof.
  unfold Films.slice.
  induction n as [|n IH]; intros i e localResult Hn; simpl.
  - rewrite drop_ge by lia. rewrite take_nil. by rewrite app_nil_r.
  - destruct (Nat.ltb_spec i e) as [He|He]; simpl.
    + destruct (Nat.ltb_spec i (length films)) as [Hl|Hl].
      * destruct (lookup_lt_is_Some_2 films i Hl) as [film Hf].
        rewrite Hf, IH by lia.
        rewrite (drop_S _ _ _ Hf).
        replace (e - i)%nat with (S (e - S i)) by lia. simpl.
        unfold Films.hasDirector.
        destruct (Films.hasDirector_from (Films.directors film) target) eqn:E.
        -- apply hasDirector_from_elem in E.
           rewrite filter_cons_True by done. by rewrite <- app_assoc.
        -- rewrite filter_cons_False; [done|].
           intros H%hasDirector_from_elem. congruence.
      * rewrite drop_ge by lia. rewrite take_nil. by rewrite app_nil_r.
    + replace (e - i)%nat with 0%nat by lia. by rewrite app_nil_r.
Qed.

(** X16. [processChunk] appends to [result] the films of the input at the
    positions from [start] up to but not including [end] that have the
    target among their directors, in the order of the input; positions past
    the end of the input are left out, so that nothing is appended when
    [end <= start] or when [start] is past the end. *)
Theorem processChunk_slice films result start end_ target :
  Films.processChunk films result start end_ target
    = result ++ Films.processWithoutThreads
                  (Films.slice films start end_) target.
Proof.
  unfold Films.processChunk, Films.processWithoutThreads.
  rewrite processChunk_from_slice by lia.
  by rewrite processWithoutThreads_from_filter.
Qed.
Lemma join_concat films target sched : ∀ result,
  foldl (λ result '(start, end_),
           Films.processChunk films result start end_ target) result sched
    = result ++ sched ≫= (λ '(start, end_),
        filter (λ film, target ∈ Films.directors film)
               (Films.slice films start end_)).
Proof.
  induction sched as [|[s e] sched IH]; intros result; simpl.
  - by rewrite app_nil_r.
  - rewrite IH, processChunk_slice. unfold Films.processWithoutThreads.
    rewrite processWithoutThreads_from_filter. simpl.
    by rewrite <- app_assoc.
Qed.

Lemma to_size_t_small z : 0 ≤ z < 2 ^ 64 → Films.to_size_t z = z.
Proof. intros H. unfold Films.to_size_t. by apply Z.mod_small. Qed.

Lemma to_int_small z : - 2 ^ 31 ≤ z < 2 ^ 31 → Films.to_int z = z.
Proof. intros H. unfold Films.to_int. rewrite Z.mod_small; lia. Qed.

(** The threads that are started when there is at least one film and at
    least one thread is asked for. *)
Lemma spawn_some films numThreads :
  films ≠ [] → Z.of_nat (length films) ≤ Films.INT_MAX → 1 ≤ numThreads →
  ∃ n : nat,
    (1 ≤ n ≤ length films)%nat ∧
    Z.of_nat n = Z.min numThreads (Z.of_nat (length films)) ∧
    Films.spawn films numThreads
      = Some (Films.chunk films (Z.of_nat n) (Z.of_nat (length films / n))
                <$> seqZ 0 (Z.of_nat n)).
Proof.
  intros Hne Hmax Hn. unfold Films.INT_MAX in Hmax.
  assert (1 ≤ length films)%nat by (destruct films; [done|simpl; lia]).
  exists (Z.to_nat (Z.min numThreads (Z.of_nat (length films)))).
  split; [lia|]. split; [lia|].
  unfold Films.spawn. rewrite to_int_small by lia.
  replace (if numThreads >? Z.of_nat (length films)
           then Z.of_nat (length films) else numThreads)
    with (Z.min numThreads (Z.of_nat (length films)))
    by (destruct (Z.gtb_spec numThreads (Z.of_nat (length films))); lia).
  rewrite to_size_t_small by lia.
  destruct (Z.eqb_spec (Z.min numThreads (Z.of_nat (length films))) 0); [lia|].
  rewrite Nat2Z.inj_div, Z2Nat.id by lia. done.
Qed.

Lemma chunk_inner films (n c i : nat) :
  (S i < n)%nat → (n * c ≤ length films)%nat →
  Z.of_nat (length films) ≤ Films.INT_MAX →
  Films.chunk films (Z.of_nat n) (Z.of_nat c) (Z.of_nat i)
    = ((i * c)%nat, (S i * c)%nat).
Proof.
  intros Hi Hc Hmax. unfold Films.INT_MAX in Hmax. unfold Films.chunk.
  destruct (Z.eqb_spec (Z.of_nat i) (Z.of_nat n - 1)); [lia|].
  assert (i * c ≤ n * c)%nat by (apply Nat.mul_le_mono_r; lia).
  assert (S i * c ≤ n * c)%nat by (apply Nat.mul_le_mono_r; lia).
  rewrite !to_size_t_small by nia.
  f_equal; nia.
Qed.

Lemma chunk_last films (n c : nat) :
  (n * c ≤ length films)%nat → Z.of_nat (length films) ≤ Films.INT_MAX →
  Films.chunk films (Z.of_nat (S n)) (Z.of_nat c) (Z.of_nat n)
    = ((n * c)%nat, length films).
Proof.
  intros Hc Hmax. unfold Films.INT_MAX in Hmax. unfold Films.chunk.
  destruct (Z.eqb_spec (Z.of_nat n) (Z.of_nat (S n) - 1)); [|lia].
  rewrite !to_size_t_small by nia.
  f_equal; nia.
Qed.

Lemma chunks_prefix films target (n c : nat) :
  (n * c ≤ length films)%nat → Z.of_nat (length films) ≤ Films.INT_MAX →
  ∀ k : nat, (k < n)%nat →
  (Films.chunk films (Z.of_nat n) (Z.of_nat c) <$> seqZ 0 (Z.of_nat k))
    ≫= (λ '(start, end_),
          filter (λ film, target ∈ Films.directors film)
                 (Films.slice films start end_))
  = filter (λ film, target ∈ Films.directors film) (take (k * c) films).
Proof.
  intros Hc Hmax. induction k as [|k IH]; intros Hk.
  - done.
  - rewrite seqZ_S, fmap_app, bind_app, IH, Z.add_0_l by lia.
    rewrite list_fmap_singleton, chunk_inner by lia. simpl. rewrite app_nil_r.
    unfold Films.slice. rewrite <- filter_app.
    replace (S k * c - k * c)%nat with c by lia.
    rewrite take_take_drop. f_equal. f_equal. lia.
Qed.

Lemma chunks_cover films target (n : nat) :
  (1 ≤ n ≤ length films)%nat → Z.of_nat (length films) ≤ Films.INT_MAX →
  (Films.chunk films (Z.of_nat n) (Z.of_nat (length films / n))
     <$> seqZ 0 (Z.of_nat n))
    ≫= (λ '(start, end_),
          filter (λ film, target ∈ Films.directors film)
                 (Films.slice films start end_))
  = filter (λ film, target ∈ Films.directors film) films.
Proof.
  intros Hn Hmax.
  assert (Hc : (n * (length films / n) ≤ length films)%nat)
    by (apply Nat.Div0.mul_div_le).
  destruct n as [|k]; [lia|].
  rewrite seqZ_S, fmap_app, bind_app, (chunks_prefix _ _ _ _ Hc Hmax), Z.add_0_l
    by lia.
  rewrite list_fmap_singleton, chunk_last by lia. simpl. rewrite app_nil_r.
  unfold Films.slice. rewrite <- filter_app.
  rewrite (take_ge (drop _ _)) by (rewrite length_drop; lia).
  by rewrite take_drop.
Qed.

Lemma omap_lookup_seq {A} (l : list A) :
  omap (λ t, l !! t) (seq 0 (length l)) = l.
Proof.
  induction l as [|x l IH]; [done|].
  change (seq 0 (length (x :: l))) with (0%nat :: seq 1 (length l)).
  rewrite <- fmap_S_seq.
  assert (Hk : ∀ k : list nat,
            omap (λ t, (x :: l) !! t) (S <$> k) = omap (λ t, l !! t) k).
  { induction k as [|i k IHk]; [done|].
    rewrite fmap_cons. change (omap ?f (?a :: ?r)) with
      (match f a with Some y => y :: omap f r | None => omap f r end).
    rewrite IHk. done. }
  change (omap ?f (?a :: ?r)) with
      (match f a with Some y => y :: omap f r | None => omap f r end).
  simpl. by rewrite Hk, IH.
Qed.
Lemma processWithThreads_spawned films target numThreads threads order :
  Z.of_nat (length films) ≤ Films.INT_MAX →
  Films.spawn films numThreads = Some threads →
  order ≡ₚ seq 0 (length threads) →
  Films.processWithThreads films target numThreads order
    = Some (Films.join films target (omap (λ t, threads !! t) order)) ∧
  omap (λ t, threads !! t) order ≡ₚ threads.
Proof.
  intros Hmax Hs Ho. unfold Films.processWithThreads. rewrite Hs.
  split; [done|]. rewrite Ho. by rewrite omap_lookup_seq.
Qed.

Lemma started_min films numThreads :
  films ≠ [] →
  Z.of_nat (length films) ≤ Films.INT_MAX →
  1 ≤ numThreads →
  Z.of_nat (Films.started films numThreads)
    = Z.min numThreads (Z.of_nat (length films)).
Proof.
  intros Hne Hmax Hn.
  destruct (spawn_some films numThreads Hne Hmax Hn) as (n & Hn1 & Hn2 & Hs).
  unfold Films.started. rewrite Hs.
  by rewrite length_fmap, length_seqZ, Nat2Z.id.
Qed.

(** The films that the threads find, in terms of the input. *)
Lemma threads_find films target numThreads order :
  films ≠ [] →
  Z.of_nat (length films) ≤ Films.INT_MAX →
  1 ≤ numThreads →
  order ≡ₚ seq 0 (Films.started films numThreads) →
  ∃ result,
    Films.processWithThreads films target numThreads order = Some result ∧
    result ≡ₚ filter (λ film, target ∈ Films.directors film) films.
Proof.
  intros Hne Hmax Hn Ho.
  destruct (spawn_some films numThreads Hne Hmax Hn) as (n & Hn1 & Hn2 & Hs).
  unfold Films.started in Ho. rewrite Hs in Ho.
  destruct (processWithThreads_spawned films target numThreads _ order
              Hmax Hs Ho) as [-> Hp].
  eexists. split; [done|].
  unfold Films.join. rewrite join_concat. simpl. rewrite Hp.
  by rewrite chunks_cover.
Qed.

(** X17. Whatever the order in which the threads take [resultMutex],
    [processWithThreads] finds what [processWithoutThreads] finds: for a
    non-empty input and at least one thread, the result holds the same
    films, each as often, so the two results have the same size.  The
    number of threads started is the smaller of [numThreads] and the number
    of films. *)
Theorem processWithThreads_any_order films target numThreads order :
  films ≠ [] →
  Z.of_nat (length films) ≤ Films.INT_MAX →
  1 ≤ numThreads →
  order ≡ₚ seq 0 (Films.started films numThreads) →
  Z.of_nat (Films.started films numThreads)
    = Z.min numThreads (Z.of_nat (length films)) ∧
  ∃ result,
    Films.processWithThreads films target numThreads order = Some result ∧
    result ≡ₚ Films.processWithoutThreads films target ∧
    length result = length (Films.processWithoutThreads films target).
Proof.
  intros Hne Hmax Hn Ho. split; [by apply started_min|].
  destruct (threads_find films target numThreads order Hne Hmax Hn Ho)
    as (result & Hr & Hp).
  exists result. split; [done|].
  unfold Films.processWithoutThreads.
  rewrite processWithoutThreads_from_filter. simpl.
  split; [done|]. by rewrite Hp.
Qed.
Lemma processWithThreads_any_order_witness :
  Z.of_nat (Films.started Films.library 2)
    = Z.min 2 (Z.of_nat (length Films.library)) ∧
  ∃ result,
    Films.processWithThreads Films.library Films.nolan 2 [1; 0]%nat
      = Some result ∧
    result ≡ₚ Films.processWithoutThreads Films.library Films.nolan ∧
    length result
      = length (Films.processWithoutThreads Films.library Films.nolan).
Proof.
  apply (processWithThreads_any_order Films.library Films.nolan 2 [1; 0]%nat).
  - discriminate.
  - vm_compute. discriminate.
  - lia.
  - apply (perm_swap 0%nat 1%nat []).
Defined.

(** X18. For a non-empty input of at most [INT_MAX] films and
    [numThreads >= 1]: when the threads take [resultMutex] in the order in
    which they were started, [processWithThreads] returns exactly the
    result of [processWithoutThreads], in the order of the input. *)
Theorem processWithThreads_in_order films target numThreads :
  films ≠ [] →
  Z.of_nat (length films) ≤ Films.INT_MAX →
  1 ≤ numThreads →
  Films.processWithThreads films target numThreads
    (seq 0 (Films.started films numThreads))
    = Some (Films.processWithoutThreads films target).
Proof.
  intros Hne Hmax Hn.
  destruct (spawn_some films numThreads Hne Hmax Hn) as (n & Hn1 & Hn2 & Hs).
  unfold Films.started, Films.processWithThreads. rewrite Hs.
  rewrite omap_lookup_seq. unfold Films.join. rewrite join_concat. simpl.
  rewrite chunks_cover by done.
  unfold Films.processWithoutThreads.
  by rewrite processWithoutThreads_from_filter.
Qed.

Lemma processWithThreads_in_order_witness :
  Films.processWithThreads Films.library Films.nolan 2
    (seq 0 (Films.started Films.library 2))
    = Some (Films.processWithoutThreads Films.library Films.nolan).
Proof.
  apply (processWithThreads_in_order Films.library Films.nolan 2).
  - discriminate.
  - vm_compute. discriminate.
  - lia.
Defined.

Lemma omap_chunks films (n c : nat) (order : list nat) :
  Forall (λ t, (t < n)%nat) order →
  omap (λ t, (Films.chunk films (Z.of_nat n) (Z.of_nat c)
                <$> seqZ 0 (Z.of_nat n)) !! t) order
    = (λ t, Films.chunk films (Z.of_nat n) (Z.of_nat c) (Z.of_nat t)) <$> order.
Proof.
  induction 1 as [|t order Ht _ IH]; [done|].
  change (omap ?g (?a :: ?r)) with
    (match g a with Some y => y :: omap g r | None => omap g r end).
  cbv beta. rewrite list_lookup_fmap, lookup_seqZ_lt by lia.
  rewrite fmap_cons, Z.add_0_l. simpl. f_equal. exact IH.
Qed.

(** X19. For a non-empty input of at most [INT_MAX] films,
    [numThreads >= 1] and an [order] that names started threads only: the
    result of [processWithThreads] lists what the threads find in the
    order in which they take [resultMutex].  With [n] threads started and
    [chunkSize = films.size() / n], thread [t] contributes the result of
    [processWithoutThreads] on the films at the positions from
    [t * chunkSize] up to [(t + 1) * chunkSize], the last thread on those
    from [t * chunkSize] to the end. *)
Theorem processWithThreads_schedule films target numThreads order :
  films ≠ [] →
  Z.of_nat (length films) ≤ Films.INT_MAX →
  1 ≤ numThreads →
  Forall (λ t, (t < Films.started films numThreads)%nat) order →
  Films.processWithThreads films target numThreads order
    = Some (order ≫= λ t,
              let n := Films.started films numThreads in
              let chunkSize := (length films / n)%nat in
              Films.processWithoutThreads
                (Films.slice films (t * chunkSize)
                   (if decide (S t = n) then length films
                    else (S t * chunkSize)%nat))
                target).
Proof.
  intros Hne Hmax Hn Ho.
  destruct (spawn_some films numThreads Hne Hmax Hn) as (n & Hn1 & Hn2 & Hs).
  unfold Films.started in *. unfold Films.processWithThreads. rewrite Hs in *.
  rewrite length_fmap, length_seqZ, Nat2Z.id in *.
  f_equal. unfold Films.join. rewrite join_concat, omap_chunks by done.
  rewrite app_nil_l.
  assert (Hc : (n * (length films / n) ≤ length films)%nat)
    by (apply Nat.Div0.mul_div_le).
  induction Ho as [|t order Ht _ IH]; [done|].
  rewrite fmap_cons, !bind_cons, IH. f_equal.
  unfold Films.processWithoutThreads. rewrite processWithoutThreads_from_filter.
  rewrite app_nil_l. cbv zeta.
  destruct (decide (S t = n)) as [<-|Hlast].
  - by rewrite chunk_last by lia.
  - by rewrite chunk_inner by lia.
Qed.

Lemma processWithThreads_schedule_witness :
  Films.processWithThreads Films.library Films.nolan 2 [1; 0]%nat
    = Some ([1; 0]%nat ≫= λ t,
              let n := Films.started Films.library 2 in
              let chunkSize := (length Films.library / n)%nat in
              Films.processWithoutThreads
                (Films.slice Films.library (t * chunkSize)
                   (if decide (S t = n) then length Films.library
                    else (S t * chunkSize)%nat))
                Films.nolan).
Proof.
  apply (processWithThreads_schedule Films.library Films.nolan 2 [1; 0]%nat).
  - discriminate.
  - vm_compute. discriminate.
  - lia.
  - repeat constructor.
Defined.

(** A schedule with a result that differs from the result of
    [processWithoutThreads]. *)
Remark processWithThreads_order_matters :
  ∃ films target numThreads order result,
    order ≡ₚ seq 0 (Films.started films numThreads) ∧
    Films.processWithThreads films target numThreads order = Some result ∧
    result ≠ Films.processWithoutThreads films target.
Proof.
  exists Films.library, Films.nolan, 2, [1; 0]%nat. eexists.
  split; [apply (perm_swap 0%nat 1%nat [])|].
  split; [vm_compute; reflexivity|]. vm_compute. discriminate.
Qed.
(** X20. [processWithThreads] divides by zero exactly when it is asked for
    no thread, or given no film and asked for at least one thread: the
    number of threads is first lowered to the number of films.  Asked for a
    negative number of threads it starts none and returns nothing. *)
Theorem processWithThreads_division_by_zero films target numThreads order :
  - 2 ^ 31 ≤ numThreads ≤ Films.INT_MAX →
  Z.of_nat (length films) ≤ Films.INT_MAX →
  (Films.processWithThreads films target numThreads order = None
     ↔ numThreads = 0 ∨ (films = [] ∧ 0 < numThreads)) ∧
  (numThreads < 0 →
   Films.processWithThreads films target numThreads order = Some []).
Proof.
  intros Hn Hmax. unfold Films.INT_MAX in *.
  unfold Films.processWithThreads, Films.spawn.
  rewrite to_int_small by lia.
  destruct (Z.gtb_spec numThreads (Z.of_nat (length films))) as [Hgt|Hle].
  - rewrite to_size_t_small by lia.
    destruct (Z.eqb_spec (Z.of_nat (length films)) 0) as [H0|H0].
    + split; [|lia]. split; [|done]. intros _. right.
      split; [|lia]. destruct films; [done|simpl in H0; lia].
    + split; [|lia]. split; [done|]. intros [->|[-> _]]; [lia|done].
  - destruct (Z.eqb_spec (Films.to_size_t numThreads) 0) as [H0|H0].
    + assert (numThreads = 0).
      { unfold Films.to_size_t in H0.
        destruct (decide (0 ≤ numThreads)).
        - rewrite Z.mod_small in H0 by lia. done.
        - pose proof (Z.mod_unique numThreads (2 ^ 64) (-1)
                        (numThreads + 2 ^ 64)). lia. }
      split; [|lia]. split; [by left|done].
    + split.
      * split; [done|]. intros [->|[-> ?]]; [done|simpl in Hle; lia].
      * intros Hneg. f_equal.
        replace (seqZ 0 numThreads) with (@nil Z)
          by (unfold seqZ; by replace (Z.to_nat numThreads) with 0%nat by lia).
        rewrite fmap_nil. clear. induction order as [|t order IH]; [done|].
        exact IH.
Qed.
Lemma processWithThreads_division_by_zero_witness :
  (Films.processWithThreads [] Films.nolan 4 [] = None
     ↔ 4 = 0 ∨ (@nil Films.Film = [] ∧ 0 < 4)) ∧
  (4 < 0 → Films.processWithThreads [] Films.nolan 4 [] = Some []).
Proof.
  apply (processWithThreads_division_by_zero [] Films.nolan 4 []).
  - unfold Films.INT_MAX. lia.
  - unfold Films.INT_MAX. simpl. lia.
Defined.

Lemma count_film_found ds target c :
  c < Films.INT_MAX →
  Films.count_film ds target c
    = Some (if Films.hasDirector_from ds target then c + 1 else c).
Proof.
  intros Hc. induction ds as [|d ds IH]; simpl; [done|].
  destruct (String.eqb d target); [|done].
  by destruct (Z.ltb_spec c Films.INT_MAX); [|lia].
Qed.

Lemma count_films_found films target : ∀ c,
  c + Z.of_nat (length films) ≤ Films.INT_MAX →
  Films.count_films films target c
    = Some (c + Z.of_nat (length
              (filter (λ film, target ∈ Films.directors film) films))).
Proof.
  induction films as [|film films IH]; intros c Hc; simpl in *.
  - by rewrite Z.add_0_r.
  - rewrite count_film_found by lia.
    pose proof (length_filter (λ film, target ∈ Films.directors film) films)
      as Hle.
    destruct (Films.hasDirector_from (Films.directors film) target) eqn:E.
    + apply hasDirector_from_elem in E.
      rewrite filter_cons_True by done. rewrite IH by lia. simpl.
      f_equal. lia.
    + rewrite filter_cons_False
        by (intros H%hasDirector_from_elem; congruence).
      by rewrite IH by lia.
Qed.

Lemma checked_numThreads_range numThreads :
  1 ≤ Films.checked_numThreads numThreads ≤ 16.
Proof.
  unfold Films.checked_numThreads.
  destruct (Z.ltb_spec numThreads 1);
    [done|destruct (Z.gtb_spec numThreads 16); lia].
Qed.

Lemma processWithThreads_no_films target numThreads order :
  0 ≤ numThreads → Films.processWithThreads [] target numThreads order = None.
Proof.
  intros Hn. unfold Films.processWithThreads, Films.spawn.
  change (Films.to_int (Z.of_nat (length []))) with 0.
  destruct (Z.gtb_spec numThreads 0); [done|].
  by replace numThreads with 0 by lia.
Qed.

(** [main] on a non-empty list of films: both searches return, the two
    results have the same size, and the count is that size. *)
Lemma main_check_sizes_agree films target numThreads order :
  films ≠ [] →
  Z.of_nat (length films) ≤ Films.INT_MAX →
  order ≡ₚ seq 0 (Films.started films (Films.checked_numThreads numThreads)) →
  let found := length (Films.processWithoutThreads films target) in
  Films.main_check films target numThreads order
    = Films.Compared (Z.of_nat found) found found true.
Proof.
  intros Hne Hmax Ho.
  assert (Hn : 1 ≤ Films.checked_numThreads numThreads)
    by apply checked_numThreads_range.
  destruct (threads_find films target _ order Hne Hmax Hn Ho)
    as (result & Hr & Hp).
  unfold Films.main_check, Films.countWithDirector.
  rewrite count_films_found, Hr by lia.
  unfold Films.processWithoutThreads.
  rewrite processWithoutThreads_from_filter. simpl.
  by rewrite Hp, Nat.eqb_refl.
Qed.

(** [main] on an empty list of films: [processWithThreads] lowers the
    number of threads to zero and divides by it. *)
Lemma main_check_no_films target numThreads order :
  Films.main_check [] target numThreads order = Films.DivisionByZero.
Proof.
  unfold Films.main_check. simpl.
  rewrite processWithThreads_no_films; [done|].
  pose proof (checked_numThreads_range numThreads). lia.
Qed.
(** ** The test data and [main] *)

Lemma ascii_compare_N a b :
  Ascii.compare a b = N.compare (Ascii.N_of_ascii a) (Ascii.N_of_ascii b).
Proof. reflexivity. Qed.

Lemma string_leb_trans s1 : ∀ s2 s3,
  String.leb s1 s2 = true → String.leb s2 s3 = true → String.leb s1 s3 = true.
Proof.
  unfold String.leb.
  induction s1 as [|a s1 IH]; intros [|b s2] [|c s3]; simpl; try done.
  rewrite !ascii_compare_N.
  destruct (N.compare_spec (Ascii.N_of_ascii a) (Ascii.N_of_ascii b)) as [Hab|Hab|Hab];
    destruct (N.compare_spec (Ascii.N_of_ascii b) (Ascii.N_of_ascii c)) as [Hbc|Hbc|Hbc];
    destruct (N.compare_spec (Ascii.N_of_ascii a) (Ascii.N_of_ascii c)) as [Hac|Hac|Hac];
    try done; try lia.
  apply IH.
Qed.

Lemma insert_sorted_perm x l : TestData.insert_sorted x l ≡ₚ x :: l.
Proof.
  induction l as [|y l IH]; simpl; [done|].
  destruct (String.leb x y); [done|]. rewrite IH. apply perm_swap.
Qed.

Lemma sort_perm l : TestData.sort l ≡ₚ l.
Proof.
  induction l as [|x l IH]; simpl; [done|].
  by rewrite insert_sorted_perm, IH.
Qed.

Lemma insert_sorted_sorted x l :
  StronglySorted (λ a b, String.leb a b = true) l →
  StronglySorted (λ a b, String.leb a b = true) (TestData.insert_sorted x l).
Proof.
  induction 1 as [|y l Hs IH Hy]; simpl.
  - repeat constructor.
  - destruct (String.leb x y) eqn:E.
    + constructor; [by constructor|]. constructor; [done|].
      eapply Forall_impl; [exact Hy|]. intros z Hz. simpl in Hz.
      by apply (string_leb_trans x y z).
    + constructor; [done|]. rewrite insert_sorted_perm.
      constructor; [|done].
      destruct (String.leb_total x y) as [?|?]; [congruence|done].
Qed.

Lemma sort_sorted l :
  StronglySorted (λ a b, String.leb a b = true) (TestData.sort l).
Proof.
  induction l as [|x l IH]; simpl; [constructor|].
  by apply insert_sorted_sorted.
Qed.

Lemma unique_elem l x : x ∈ TestData.unique l ↔ x ∈ l.
Proof.
  induction l as [|a [|b l] IH]; [done|done|].
  change (TestData.unique (a :: b :: l))
    with (if String.eqb a b then TestData.unique (b :: l)
          else a :: TestData.unique (b :: l)).
  destruct (String.eqb_spec a b) as [->|Hne].
  - rewrite IH. rewrite (elem_of_cons (b :: l)). split; [by right|].
    intros [->|?]; [apply list_elem_of_here|done].
  - by rewrite !(elem_of_cons _ x a), IH.
Qed.

Lemma unique_length l : (length (TestData.unique l) ≤ length l)%nat.
Proof.
  induction l as [|a [|b l] IH]; [done|done|].
  change (TestData.unique (a :: b :: l))
    with (if String.eqb a b then TestData.unique (b :: l)
          else a :: TestData.unique (b :: l)).
  destruct (String.eqb a b); simpl in *; lia.
Qed.

Lemma unique_nonempty l : l ≠ [] → TestData.unique l ≠ [].
Proof.
  destruct l as [|a l]; [done|]. intros _ H.
  assert (Ha : a ∈ TestData.unique (a :: l))
    by (apply unique_elem, list_elem_of_here).
  rewrite H in Ha. by apply elem_of_nil in Ha.
Qed.

Lemma unique_distinct l :
  StronglySorted (λ a b, String.leb a b = true) l → NoDup (TestData.unique l).
Proof.
  induction l as [|a [|b l] IH]; intros Hs.
  - constructor.
  - apply NoDup_singleton.
  - change (TestData.unique (a :: b :: l))
      with (if String.eqb a b then TestData.unique (b :: l)
            else a :: TestData.unique (b :: l)).
    inversion Hs as [|? ? Hs' Ha]; subst.
    destruct (String.eqb_spec a b) as [->|Hne]; [by apply IH|].
    constructor; [|by apply IH].
    rewrite unique_elem. intros Hin.
    inversion Hs' as [|? ? _ Hb]; subst.
    inversion Ha as [|? ? Hab Ha']; subst.
    apply Hne. apply String.leb_antisym; [done|].
    apply elem_of_cons in Hin as [->|Hin]; [done|].
    rewrite Forall_forall in Hb. by apply Hb.
Qed.
Lemma uniform_range a b rnd k :
  a ≤ b → a ≤ (TestData.uniform a b rnd k).1 ≤ b.
Proof.
  intros Hab. unfold TestData.uniform. simpl.
  pose proof (Z.mod_pos_bound (rnd k) (b - a + 1)). lia.
Qed.

Lemma at_index_elem v i :
  0 ≤ i ≤ Z.of_nat (length v) - 1 → TestData.at_index v i ∈ v.
Proof.
  intros Hi. unfold TestData.at_index.
  destruct (lookup_lt_is_Some_2 v (Z.to_nat i)) as [x Hx]; [lia|].
  rewrite Hx. simpl. by eapply list_elem_of_lookup_2.
Qed.

Lemma draw_directors_S n rnd k filmDirectors :
  TestData.draw_directors (S n) rnd k filmDirectors
    = TestData.draw_directors n rnd (S k)
        (filmDirectors
           ++ [TestData.at_index TestData.directors
                 (TestData.uniform 0 14 rnd k).1]).
Proof. reflexivity. Qed.

Lemma draw_directors_drawn n rnd : ∀ k filmDirectors,
  length (TestData.draw_directors n rnd k filmDirectors).1
    = (length filmDirectors + n)%nat ∧
  ∀ d, d ∈ (TestData.draw_directors n rnd k filmDirectors).1 →
       d ∈ filmDirectors ∨ d ∈ TestData.directors.
Proof.
  induction n as [|n IH]; intros k acc.
  - simpl. split; [lia|]. by left.
  - rewrite draw_directors_S.
    destruct (IH (S k)
                (acc ++ [TestData.at_index TestData.directors
                           (TestData.uniform 0 14 rnd k).1])) as [Hl Hd].
    split.
    + rewrite Hl, length_app. simpl. lia.
    + intros d Hin. destruct (Hd d Hin) as [Ha|?]; [|by right].
      apply elem_of_app in Ha as [?|Ha]; [by left|]. right.
      apply list_elem_of_singleton in Ha as ->.
      apply at_index_elem.
      pose proof (uniform_range 0 14 rnd k).
      change (Z.of_nat (length TestData.directors)) with 15. lia.
Qed.

Lemma generate_film_well_formed (i : nat) rnd k :
  TestData.well_formed i (TestData.generate_film (Z.of_nat i) rnd k).1.
Proof.
  unfold TestData.generate_film.
  change (Z.of_nat (length TestData.titles) - 1) with 19.
  change (Z.of_nat (length TestData.genres) - 1) with 11.
  pose proof (uniform_range 0 19 rnd k) as Ht.
  pose proof (uniform_range 1980 2023 rnd (S k)) as Hy.
  pose proof (uniform_range 0 11 rnd (S (S k))) as Hg.
  pose proof (uniform_range 1 3 rnd (S (S (S k)))) as Hc.
  unfold TestData.uniform in *. simpl in Ht, Hy, Hg, Hc.
  cbv zeta. cbv beta iota.
  set (c := 1 + rnd (S (S (S k))) `mod` (3 - 1 + 1)) in *.
  destruct (draw_directors_drawn (Z.to_nat c) rnd (S (S (S (S k)))) [])
    as [Hl Hd].
  destruct (TestData.draw_directors (Z.to_nat c) rnd (S (S (S (S k)))) [])
    as [ds k'] eqn:E.
  simpl in Hl, Hd. simpl.
  split; simpl.
  - eexists. split; [|done]. apply at_index_elem.
    change (Z.of_nat (length TestData.titles)) with 20. lia.
  - lia.
  - apply at_index_elem. change (Z.of_nat (length TestData.genres)) with 12. lia.
  - split.
    + assert (TestData.unique (TestData.sort ds) ≠ []); [|
        destruct (TestData.unique (TestData.sort ds)); [done|simpl; lia]].
      apply unique_nonempty. intros Hnil.
      pose proof (sort_perm ds) as Hp. rewrite Hnil in Hp.
      apply Permutation_nil_l in Hp. subst ds. simpl in Hl. lia.
    + pose proof (unique_length (TestData.sort ds)) as Hu.
      rewrite (Permutation_length (sort_perm ds)) in Hu. lia.
  - intros d Hin. apply (proj1 (unique_elem _ _)) in Hin.
    rewrite sort_perm in Hin.
    destruct (Hd d Hin) as [?%elem_of_nil|?]; done.
  - apply unique_distinct, sort_sorted.
Qed.

Lemma generate_from_well_formed rnd n : ∀ k films,
  (∀ i film, films !! i = Some film → TestData.well_formed i film) →
  length (TestData.generate_from n (Z.of_nat (length films)) rnd k films)
    = (length films + n)%nat ∧
  ∀ i film,
    TestData.generate_from n (Z.of_nat (length films)) rnd k films !! i
      = Some film →
    TestData.well_formed i film.
Proof.
  induction n as [|n IH]; intros k films Hwf; simpl.
  - split; [lia|done].
  - pose proof (generate_film_well_formed (length films) rnd k) as Hf.
    destruct (TestData.generate_film (Z.of_nat (length films)) rnd k)
      as [film k'] eqn:E.
    simpl in Hf.
    replace (Z.of_nat (length films) + 1)
      with (Z.of_nat (length (films ++ [film])))
      by (rewrite length_app; simpl; lia).
    destruct (IH k' (films ++ [film])) as [Hl Hall].
    { intros i f Hi. apply lookup_app_Some in Hi as [Hi|[Hge Hi]].
      - by apply Hwf.
      - apply list_lookup_singleton_Some in Hi as [Hi ->].
        by replace i with (length films) by lia. }
    split; [|done]. rewrite Hl, length_app. simpl. lia.
Qed.

Lemma generateTestData_size dataSize rnd :
  0 ≤ dataSize →
  ∃ films, TestData.generateTestData dataSize rnd = Some films ∧
           Z.of_nat (length films) = dataSize.
Proof.
  intros H. unfold TestData.generateTestData.
  destruct (Z.ltb_spec dataSize 0); [lia|]. eexists. split; [done|].
  destruct (generate_from_well_formed rnd (Z.to_nat dataSize) 0 [])
    as [Hl _]; [by intros i film ?|].
  change (Z.of_nat (length (@nil Films.Film))) with 0 in Hl.
  rewrite Hl. simpl. lia.
Qed.

(** X21. [generateTestData(dataSize)] with [dataSize >= 0] returns
    [dataSize] films, whatever the random engine gives.  Each film has a
    title of the table followed by a space and its position counted from
    one, a year from 1980 to 2023, a genre of the table, and one to three
    directors of the table, no director twice.  With a negative [dataSize]
    the call ends in the exception of [reserve]. *)
Theorem generated_films dataSize rnd :
  (dataSize < 0 → TestData.generateTestData dataSize rnd = None) ∧
  (0 ≤ dataSize →
   ∃ films, TestData.generateTestData dataSize rnd = Some films ∧
            Z.of_nat (length films) = dataSize ∧
            ∀ i film, films !! i = Some film → TestData.well_formed i film).
Proof.
  unfold TestData.generateTestData. split; intros H.
  - by destruct (Z.ltb_spec dataSize 0); [|lia].
  - destruct (Z.ltb_spec dataSize 0); [lia|]. eexists. split; [done|].
    destruct (generate_from_well_formed rnd (Z.to_nat dataSize) 0 [])
      as [Hl Hall]; [by intros i film ?|].
    change (Z.of_nat (length (@nil Films.Film))) with 0 in Hl, Hall.
    split; [rewrite Hl; simpl; lia|done].
Qed.

Lemma generated_films_witness :
  ∃ films, TestData.generateTestData 4 TestData.counting = Some films ∧
           Z.of_nat (length films) = 4 ∧
           ∀ i film, films !! i = Some film → TestData.well_formed i film.
Proof.
  apply (proj2 (generated_films 4 TestData.counting)). lia.
Defined.

(** X22. [main] for the values typed in.  With [dataSize] from 1 to
    [INT_MAX], whatever the number of threads typed in, the random engine
    and the order in which the threads take [resultMutex] (each started
    thread once), [main] reaches the comparison of the two results:
    [generateTestData] has returned [dataSize] films, the two results have
    the same size, so the branch that reports equal results is taken, and
    [countWithDirector], printed as approximate, is exactly that size, the
    number of films that [processWithoutThreads] finds for the director
    typed in or for the default director when the line is empty.  With
    [dataSize] zero [main] ends in the division by zero of
    [processWithThreads], since [main] asks for at least one thread and the
    number is lowered to the number of films; with a negative [dataSize] it
    ends in the exception of [reserve]. *)
Theorem main_outcome dataSize numThreads target rnd order :
  (dataSize < 0 →
   TestData.main dataSize numThreads target rnd order = Films.LengthError) ∧
  (dataSize = 0 →
   TestData.main dataSize numThreads target rnd order = Films.DivisionByZero) ∧
  (1 ≤ dataSize ≤ Films.INT_MAX →
   order ≡ₚ seq 0 (Z.to_nat (Z.min (Films.checked_numThreads numThreads)
                                     dataSize)) →
   ∃ films,
     TestData.generateTestData dataSize rnd = Some films ∧
     Z.of_nat (length films) = dataSize ∧
     let found :=
       length (Films.processWithoutThreads films
                 (TestData.target_or_default target)) in
     TestData.main dataSize numThreads target rnd order
       = Films.Compared (Z.of_nat found) found found true).
Proof.
  unfold TestData.main. split; [|split].
  - intros Hd. unfold TestData.generateTestData.
    by destruct (Z.ltb_spec dataSize 0); [|lia].
  - intros ->. simpl. apply main_check_no_films.
  - intros Hd Ho.
    destruct (generateTestData_size dataSize rnd) as (films & Hg & Hl); [lia|].
    assert (Hne : films ≠ []) by (intros ->; simpl in Hl; lia).
    exists films. rewrite Hg. split; [done|]. split; [lia|].
    apply main_check_sizes_agree; [done|lia|].
    rewrite <- (Nat2Z.id (Films.started _ _)), started_min, Hl; [done..|lia|].
    apply checked_numThreads_range.
Qed.

Lemma main_outcome_witness :
  TestData.main (-1) 20 EmptyString TestData.counting [] = Films.LengthError ∧
  TestData.main 0 20 EmptyString TestData.counting [] = Films.DivisionByZero ∧
  ∃ films,
    TestData.generateTestData 5 TestData.counting = Some films ∧
    Z.of_nat (length films) = 5 ∧
    let found :=
      length (Films.processWithoutThreads films
                (TestData.target_or_default EmptyString)) in
    TestData.main 5 20 EmptyString TestData.counting [1; 0; 3; 2; 4]%nat
      = Films.Compared (Z.of_nat found) found found true.
Proof.
  split; [|split].
  - apply (proj1 (main_outcome (-1) 20 EmptyString TestData.counting [])). lia.
  - apply (proj1 (proj2 (main_outcome 0 20 EmptyString TestData.counting []))).
    reflexivity.
  - apply (proj2 (proj2 (main_outcome 5 20 EmptyString TestData.counting
                           [1; 0; 3; 2; 4]%nat))).
    + unfold Films.INT_MAX. lia.
    + change ([1; 0; 3; 2; 4]%nat ≡ₚ [0; 1; 2; 3; 4]%nat).
      etrans; [apply perm_swap|]. do 2 apply perm_skip. apply perm_swap.
Defined.
